(** * algopy: the computational-graph tracer and the nth-derivative decorator

    A shallow embedding of [algopy/tracer/tracer.py] (classes [CGraph] and
    [Function]) and of the [basecase] decorator of
    [algopy/nthderiv/nthderiv.py] with some of the functions it decorates.

    Python objects are mutable and shared, so [Function] and [CGraph]
    objects live in a store indexed by object identity, and every method is
    a computation in a state-and-exception monad.  An exception leaves the
    store as it was when it was raised: partial updates stay visible.

    The tracer is embedded over the stores in which the arguments of a node
    are a tuple of nodes, which is what the constructor and the operators
    record, and, in [AnyArgs], over the stores in which they may also be a
    node, which is what [Function.push_forward] records when it is given
    one. *)

From Stdlib Require Import ZArith String List.
From Stdlib Require Import Floats.SpecFloat.
From stdpp Require Import gmap strings list fin_maps sorting.

(** ** Exceptions and results *)

Inductive exn : Type :=
| PyException (msg : string)
| AttributeError
| TypeError
| IndexError
| ValueError (msg : string)
| OtherError (name : string).

Inductive result (A : Type) : Type :=
| Ok (a : A)
| Raise (e : exn).

Arguments Ok {A} a.
Arguments Raise {A} e.

(** Identity of a Python object ([id(o)]). *)
Abbreviation ref := nat (only parsing).

(** The float [0.]. *)
Definition float_zero : spec_float := S754_zero false.

(** ** Values handled by the tracer

    The tracer never computes with the values it stores; it only inspects
    their kind: a scalar ([numpy.isscalar]), a tuple, or an instance of the
    algebra being traced (type [obj], e.g. a matrix Taylor polynomial).
    [VNotSet] is an instance of the sentinel class [NotSet]. *)

#[warnings="-register-all"]
Inductive value (obj : Type) : Type :=
| VNone
| VInt (z : Z)
| VFloat (f : spec_float)
| VTuple (vs : list (value obj))
| VObj (o : obj)
| VNotSet.

Arguments VNone {obj}.
Arguments VInt {obj} z.
Arguments VFloat {obj} f.
Arguments VTuple {obj} vs.
Arguments VObj {obj} o.
Arguments VNotSet {obj}.

(** A Python callable: its [__name__] and what calling it on positional
    arguments returns. *)
Record callable (obj : Type) : Type := mkCallable {
  name : string;
  call : list (value obj) → result (value obj)
}.

Arguments mkCallable {obj} name call.
Arguments name {obj} c.
Arguments call {obj} c vs.

(** A pullback evaluator [pb_<name>], called with positional arguments and
    the keywords [out] and [funcargs].  It
    works in place on the objects of [out]; an object of [out] is the
    adjoint of an argument node, so it is passed as the pair of that node's
    identity and the current content, and the evaluator answers with the
    writes it performs, in order. *)
Definition pbfun (obj : Type) : Type :=
  list (value obj) → list (ref * value obj) → option (list (value obj)) →
  result (list (ref * value obj)).

(** What the tracer needs from the algebra (module [algopy.utp.utpm.utpm],
    not part of the tracer itself). *)
Class Algebra (obj : Type) : Type := {
  (* [o.__class__.__name__] *)
  class_name : obj → string;
  (* [o.zeros_like()] *)
  zeros_like : obj → obj;
  (* [o[...] = v] *)
  obj_setitem : obj → value obj → result obj;
  (* the attribute [<class>.pb_<func_name>] of the algebra module *)
  pb_lookup : string → string → option (pbfun obj)
}.

(** ** Objects and the store *)

Section Definitions.
Context {obj : Type} {alg : Algebra obj}.

Local Abbreviation value := (value obj).
Local Abbreviation callable := (callable obj).

(** Instance attributes of a [Function] object.  An attribute that was
    never assigned is [None]; reading it raises [AttributeError].  [xbar]
    always reads: the class provides [xbar = NotSet()]. *)
Record Function : Type := mkFunction {
  x : option value;
  args : option (list ref);
  func : option callable;
  ID : option (option nat);
  funcargs : option (list value);
  xbar : value
}.

Record CGraph : Type := mkCGraph {
  functionCount : nat;
  functionList : list ref;
  dependentFunctionList : list ref;
  independentFunctionList : list ref
}.

(** The object a bare [Function()] yields. *)
Definition blank : Function := mkFunction None None None None None VNotSet.

Record state : Type := mkState {
  (* attributes of the Function objects, by identity *)
  heap : gmap nat Function;
  (* attributes of the CGraph objects, by identity *)
  graphs : gmap nat CGraph;
  (* the class attribute [Function.cgraph] *)
  cgraph : option ref;
  (* identity of the next object to be allocated *)
  next_ref : nat
}.

Definition init_state : state := mkState ∅ ∅ None 0.

Definition get_obj (s : state) (r : ref) : Function := default blank (heap s !! r).

(** ** The monad *)

Definition M (A : Type) : Type := state → result A * state.

Definition ret {A} (a : A) : M A := λ s, (Ok a, s).

Definition raise {A} (e : exn) : M A := λ s, (Raise e, s).

Definition bind {A B} (m : M A) (k : A → M B) : M B :=
  λ s, match m s with
       | (Ok a, s') => k a s'
       | (Raise e, s') => (Raise e, s')
       end.

Definition lift {A} (r : result A) : M A := λ s, (r, s).

Notation "v <- m ;; k" := (bind m (λ v, k))
  (at level 100, m at next level, right associativity, only parsing).
Notation "m ;;; k" := (bind m (λ _, k))
  (at level 100, right associativity, only parsing).

(** [for v in l: body(v)] *)
Fixpoint for_each {A} (l : list A) (body : A → M unit) : M unit :=
  match l with
  | [] => ret tt
  | a :: l' => body a ;;; for_each l' body
  end.

(** [for n, v in enumerate(l): body(n, v)], counting from [n]. *)
Fixpoint for_enumerate_from {A} (n : nat) (l : list A) (body : nat → A → M unit) : M unit :=
  match l with
  | [] => ret tt
  | a :: l' => body n a ;;; for_enumerate_from (S n) l' body
  end.

Definition for_enumerate {A} (l : list A) (body : nat → A → M unit) : M unit :=
  for_enumerate_from 0 l body.

(** [[g(v) for v in l]] *)
Fixpoint list_comp {A B} (l : list A) (g : A → M B) : M (list B) :=
  match l with
  | [] => ret []
  | a :: l' => b <- g a ;; bs <- list_comp l' g ;; ret (b :: bs)
  end.

(** [l[n]] for a non-negative index *)
Definition list_getitem {A} (l : list A) (n : nat) : M A :=
  match l !! n with
  | Some a => ret a
  | None => raise IndexError
  end.

(** ** Attribute access *)

Definition getattr {A} (proj : Function → option A) (f : ref) : M A :=
  λ s, match proj (get_obj s f) with
       | Some a => (Ok a, s)
       | None => (Raise AttributeError, s)
       end.

Definition getattr_xbar (f : ref) : M value := λ s, (Ok (xbar (get_obj s f)), s).

Definition write_obj (f : ref) (upd : Function → Function) (s : state) : state :=
  mkState (<[f := upd (get_obj s f)]> (heap s)) (graphs s) (cgraph s) (next_ref s).

Definition update_obj (f : ref) (upd : Function → Function) : M unit :=
  λ s, (Ok tt, write_obj f upd s).

Definition set_x (v : value) (o : Function) : Function :=
  mkFunction (Some v) (args o) (func o) (ID o) (funcargs o) (xbar o).
Definition set_args (a : list ref) (o : Function) : Function :=
  mkFunction (x o) (Some a) (func o) (ID o) (funcargs o) (xbar o).
Definition set_func (fn : callable) (o : Function) : Function :=
  mkFunction (x o) (args o) (Some fn) (ID o) (funcargs o) (xbar o).
Definition set_ID (i : option nat) (o : Function) : Function :=
  mkFunction (x o) (args o) (func o) (Some i) (funcargs o) (xbar o).
Definition set_funcargs (fa : list value) (o : Function) : Function :=
  mkFunction (x o) (args o) (func o) (ID o) (Some fa) (xbar o).
Definition set_xbar (v : value) (o : Function) : Function :=
  mkFunction (x o) (args o) (func o) (ID o) (funcargs o) v.

(** Attributes of a CGraph object; an identity that is no CGraph has none. *)
Definition get_graph (g : ref) : M CGraph :=
  λ s, match graphs s !! g with
       | Some G => (Ok G, s)
       | None => (Raise AttributeError, s)
       end.

Definition put_graph (g : ref) (G : CGraph) : M unit :=
  λ s, (Ok tt, mkState (heap s) (<[g := G]> (graphs s)) (cgraph s) (next_ref s)).

Definition get_cgraph : M (option ref) := λ s, (Ok (cgraph s), s).

Definition set_cgraph (g : option ref) : M unit :=
  λ s, (Ok tt, mkState (heap s) (graphs s) g (next_ref s)).

(** Allocation of a new object. *)
Definition allocate : M ref :=
  λ s, (Ok (next_ref s), mkState (heap s) (graphs s) (cgraph s) (S (next_ref s))).

(** ** numpy and built-in helpers *)

(** [numpy.isscalar(v)] *)
Definition isscalar (v : value) : bool :=
  match v with
  | VInt _ | VFloat _ => true
  | _ => false
  end.

(** [v.zeros_like()]: only instances of the algebra have the method. *)
Definition call_zeros_like (v : value) : result value :=
  match v with
  | VObj o => Ok (VObj (zeros_like o))
  | _ => Raise AttributeError
  end.

(** [[xi.zeros_like() for xi in vs]] *)
Fixpoint zeros_like_each (vs : list value) : result (list value) :=
  match vs with
  | [] => Ok []
  | v :: vs' =>
      match call_zeros_like v with
      | Ok z => match zeros_like_each vs' with
                | Ok zs => Ok (z :: zs)
                | Raise e => Raise e
                end
      | Raise e => Raise e
      end
  end.

(** [target[...] = v]: floats, ints, tuples, [None] and [NotSet] instances
    do not support item assignment. *)
Definition setitem_ellipsis (target v : value) : result value :=
  match target with
  | VObj o => match obj_setitem o v with
              | Ok o' => Ok (VObj o')
              | Raise e => Raise e
              end
  | _ => Raise TypeError
  end.

(** [list(v)], where instances of the algebra are taken not to be iterable *)
Definition to_list (v : value) : result (list value) :=
  match v with
  | VTuple vs => Ok vs
  | _ => Raise TypeError
  end.

(** [v.__class__.__name__] *)
Definition value_class_name (v : value) : string :=
  match v with
  | VNone => "NoneType"
  | VInt _ => "int"
  | VFloat _ => "float"
  | VTuple _ => "tuple"
  | VObj o => class_name o
  | VNotSet => "NotSet"
  end.

(** ** class CGraph *)

(** [CGraph.__init__] *)
Definition CGraph_init : M ref :=
  self <- allocate ;;
  put_graph self (mkCGraph 0 [] [] []) ;;;
  set_cgraph (Some self) ;;;
  ret self.

(** [CGraph.append] *)
Definition CGraph_append (self : ref) (f : ref) : M unit :=
  G <- get_graph self ;;
  put_graph self (mkCGraph (functionCount G + 1) (functionList G)
                           (dependentFunctionList G) (independentFunctionList G)) ;;;
  G <- get_graph self ;;
  put_graph self (mkCGraph (functionCount G) (functionList G ++ [f])
                           (dependentFunctionList G) (independentFunctionList G)).

(** ** class Function

    The tests [f == None] and [Fout == None] are identity tests: the base
    class [Algebra] is taken not to redefine equality.  The arguments of a
    node are a tuple of Function nodes, as the docstrings of [create] and
    [push_forward] have it and as every caller in the class passes them;
    [AnyArgs] below has [push_forward] with a node as [Fargs] as well. *)

(** [Function.Id] *)
Definition Function_Id : callable :=
  mkCallable "Id" (λ vs, match vs with
                         | [v] => Ok v
                         | _ => Raise TypeError
                         end).

(** [Function.get_ID] *)
Definition Function_get_ID : M (option nat) :=
  g <- get_cgraph ;;
  match g with
  | Some g => G <- get_graph g ;; ret (Some (functionCount G))
  | None => ret None
  end.

(** [Function()]: with [x = None] the constructor records nothing. *)
Definition Function_blank : M ref := allocate.

(** [Function.create] *)
Definition Function_create (xv : value) (fargs : list ref) (fn : callable)
    (f : option ref) (fa : list value) : M ref :=
  f <- match f with
       | None => Function_blank
       | Some f => ret f
       end ;;
  update_obj f (set_x xv) ;;;
  update_obj f (set_args fargs) ;;;
  update_obj f (set_func fn) ;;;
  i <- Function_get_ID ;;
  update_obj f (set_ID i) ;;;
  update_obj f (set_funcargs fa) ;;;
  g <- get_cgraph ;;
  match g with
  | Some g => CGraph_append g f
  | None => raise AttributeError
  end ;;;
  ret f.

(** [Function(x)]: allocation followed by [Function.__init__]. *)
Definition Function_init (xv : value) : M ref :=
  self <- allocate ;;
  match xv with
  | VNone => ret self
  | _ => Function_create xv [self] Function_Id (Some self) [] ;;; ret self
  end.

(** [Function.push_forward] with a tuple of nodes as [Fargs]:
    [numpy.ndim(Fargs) > 0] holds (also for the empty tuple), and the branch
    that evaluates [func] on [fa.x for fa in Fargs] followed by [funcargs]
    is the one that runs.  The other branch is in
    [AnyArgs.Function_push_forward]. *)
Definition Function_push_forward (fn : callable) (Fargs : list ref)
    (Fout : option ref) (fa : list value) : M ref :=
  vs <- list_comp Fargs (getattr x) ;;
  out <- lift (call fn (vs ++ fa)) ;;
  match Fout with
  | None => Function_create out Fargs fn None fa
  | Some Fout => update_obj Fout (set_x out) ;;; ret Fout
  end.

(** [Function.xbar_from_x] *)
Definition Function_xbar_from_x (self : ref) : M unit :=
  xv <- getattr x self ;;
  if isscalar xv then update_obj self (set_xbar (VFloat float_zero))
  else match xv with
       | VTuple vs => zs <- lift (zeros_like_each vs) ;; update_obj self (set_xbar (VTuple zs))
       | _ => z <- lift (call_zeros_like xv) ;; update_obj self (set_xbar z)
       end.

(** The call of a pullback evaluator on [args] and [kwargs]: its writes land
    in the adjoints of the nodes whose adjoint objects were passed in [out]. *)
Definition call_pullback (pb : pbfun obj) (pargs : list value)
    (out : list (ref * value)) (kw_funcargs : option (list value)) : M unit :=
  writes <- lift (pb pargs out kw_funcargs) ;;
  for_each writes (λ w, if bool_decide (w.1 ∈ out.*1)
                        then update_obj w.1 (set_xbar w.2) else ret tt).

(** The [eval] that fetches [<class>.pb_<func_name>] from the algebra module. *)
Definition eval_pb (cls func_name : string) : M (pbfun obj) :=
  match pb_lookup cls func_name with
  | Some pb => ret pb
  | None => raise AttributeError
  end.

(** [Function.pullback] *)
Definition Function_pullback (F : ref) : M ref :=
  fn <- getattr func F ;;
  let func_name := name fn in
  xv <- getattr x F ;;
  match xv with
  | VTuple ys =>
      a <- getattr args F ;;
      args_list <- list_comp a (getattr x) ;;
      a <- getattr args F ;;
      argsbar_list <- list_comp a (λ Fa, xb <- getattr_xbar Fa ;; ret (Fa, xb)) ;;
      ybar <- getattr_xbar F ;;
      ybars <- lift (to_list ybar) ;;
      let pargs := ybars ++ args_list ++ ys in
      fa <- getattr funcargs F ;;
      let kw := if (length fa =? 0)%nat then None else Some fa in
      y0 <- list_getitem ys 0 ;;
      pb <- eval_pb (value_class_name y0) func_name ;;
      call_pullback pb pargs argsbar_list kw ;;;
      ret F
  | _ =>
      a <- getattr args F ;;
      args_list <- list_comp a (getattr x) ;;
      a <- getattr args F ;;
      argsbar_list <- list_comp a (λ Fa, xb <- getattr_xbar Fa ;; ret (Fa, xb)) ;;
      ybar <- getattr_xbar F ;;
      let pargs := [ybar] ++ args_list ++ [xv] in
      fa <- getattr funcargs F ;;
      let kw := if (length fa =? 0)%nat then None else Some fa in
      pb <- eval_pb (value_class_name xv) func_name ;;
      call_pullback pb pargs argsbar_list kw ;;;
      ret F
  end.

(** ** Replay: [CGraph.push_forward] and [CGraph.pullback] *)

(** "populate independent arguments with new values":
    [f.args[0].x = x_list[nf]], right-hand side first. *)
Definition assign_input (x_list : list value) (nf : nat) (f : ref) : M unit :=
  v <- list_getitem x_list nf ;;
  a <- getattr args f ;;
  a0 <- list_getitem a 0 ;;
  update_obj a0 (set_x v).

Definition push_forward_inputs (self : ref) (x_list : list value) : M unit :=
  G <- get_graph self ;;
  for_enumerate (independentFunctionList G) (assign_input x_list).

(** One step of "traverse the computational tree". *)
Definition replay_node (f : ref) : M unit :=
  fn <- getattr func f ;;
  a <- getattr args f ;;
  fa <- getattr funcargs f ;;
  Function_push_forward fn a (Some f) fa ;;;
  ret tt.

Definition push_forward_traverse (self : ref) : M unit :=
  G <- get_graph self ;;
  for_each (functionList G) replay_node.

(** [CGraph.push_forward] *)
Definition CGraph_push_forward (self : ref) (x_list : list value) : M unit :=
  push_forward_inputs self x_list ;;;
  push_forward_traverse self.

Definition no_dependent_msg : string :=
  "You forgot to specify which variables are dependent!".

(** "initial all xbar to zero" *)
Definition pullback_zero_init (self : ref) : M unit :=
  G <- get_graph self ;;
  for_each (functionList G) Function_xbar_from_x.

(** [f.xbar[...] = xbar_list[nf]], right-hand side first. *)
Definition seed_output (xbar_list : list value) (nf : nat) (f : ref) : M unit :=
  v <- list_getitem xbar_list nf ;;
  xb <- getattr_xbar f ;;
  xb' <- lift (setitem_ellipsis xb v) ;;
  update_obj f (set_xbar xb').

Definition pullback_seed (self : ref) (xbar_list : list value) : M unit :=
  G <- get_graph self ;;
  for_enumerate (dependentFunctionList G) (seed_output xbar_list).

(** [for f in self.functionList[::-1]: Function.pullback(f)] *)
Definition pullback_propagate (self : ref) : M unit :=
  G <- get_graph self ;;
  for_each (rev (functionList G)) (λ f, Function_pullback f ;;; ret tt).

(** [CGraph.pullback] *)
Definition CGraph_pullback (self : ref) (xbar_list : list value) : M unit :=
  G <- get_graph self ;;
  if (length (dependentFunctionList G) =? 0)%nat
  then raise (PyException no_dependent_msg)
  else
    pullback_zero_init self ;;;
    pullback_seed self xbar_list ;;;
    pullback_propagate self.

(** ** The tracing interface

    What user code does with the tracer: open a graph, wrap a value, apply
    an overloaded operator (each of [__add__], [__mul__], [dot], [qr],
    [__getitem__], ... is [Function.push_forward(op, operands, funcargs=...)]),
    declare the independent and dependent nodes, and replay. *)

Inductive api_call : Type :=
| NewCGraph
| NewFunction (xv : value)
| Apply (fn : callable) (Fargs : list ref) (fa : list value)
| SetIndependent (g : ref) (l : list ref)
| SetDependent (g : ref) (l : list ref)
| PushForward (g : ref) (x_list : list value)
| Pullback (g : ref) (xbar_list : list value).

Definition set_independent (g : ref) (l : list ref) : M unit :=
  G <- get_graph g ;;
  put_graph g (mkCGraph (functionCount G) (functionList G) (dependentFunctionList G) l).

Definition set_dependent (g : ref) (l : list ref) : M unit :=
  G <- get_graph g ;;
  put_graph g (mkCGraph (functionCount G) (functionList G) l (independentFunctionList G)).

(** The store after a call, whether it returned or raised. *)
Definition run_call (c : api_call) (s : state) : state :=
  match c with
  | NewCGraph => (CGraph_init s).2
  | NewFunction xv => (Function_init xv s).2
  | Apply fn Fargs fa => (Function_push_forward fn Fargs None fa s).2
  | SetIndependent g l => (set_independent g l s).2
  | SetDependent g l => (set_dependent g l s).2
  | PushForward g x_list => (CGraph_push_forward g x_list s).2
  | Pullback g xbar_list => (CGraph_pullback g xbar_list s).2
  end.

Definition run_calls (cs : list api_call) (s : state) : state :=
  fold_left (λ s c, run_call c s) cs s.

(** A store that a tracing session can produce. *)
Definition traced (s : state) : Prop := ∃ cs, s = run_calls cs init_state.

(** ** Vocabulary of the statements *)

(** A computation keeps the relation [R] between the store before and
    after, on every outcome. *)
Definition preserves (R : state → state → Prop) {A} (m : M A) : Prop :=
  ∀ s, R s (m s).2.

(** The structural fields of a node: everything but [x] and [xbar]. *)
Definition structure (o : Function) :
    option (list ref) * option callable * option (option nat) * option (list value) :=
  (args o, func o, ID o, funcargs o).

Definition same_structure (s s' : state) : Prop :=
  graphs s' = graphs s ∧ cgraph s' = cgraph s ∧ next_ref s' = next_ref s ∧
  ∀ r, structure (get_obj s' r) = structure (get_obj s r).

(** Nothing but adjoints differs between the two stores. *)
Definition same_up_to_adjoints (s s' : state) : Prop :=
  same_structure s s' ∧ ∀ r, x (get_obj s' r) = x (get_obj s r).

(** A computation keeps the invariant [P] of the store, on every outcome. *)
Definition keeps (P : state → Prop) {A} (m : M A) : Prop :=
  ∀ s, P s → P (m s).2.

(** [value == operation(arguments[*].value, auxiliary_args)] at node [f]. *)
Definition forward_consistent (s : state) (f : ref) : Prop :=
  ∃ fn a fa vs v,
    func (get_obj s f) = Some fn ∧ args (get_obj s f) = Some a ∧
    funcargs (get_obj s f) = Some fa ∧
    Forall2 (λ k w, x (get_obj s k) = Some w) a vs ∧
    x (get_obj s f) = Some v ∧
    call fn (vs ++ fa) = Ok v.

(** The additive identity shaped like [v]: the float zero for a scalar, the
    tuple of the elements' [zeros_like()] for a tuple of instances,
    [zeros_like()] for an instance. *)
Definition additive_identity_of (v z : value) : Prop :=
  match v with
  | VInt _ | VFloat _ => z = VFloat float_zero
  | VTuple vs => ∃ os, vs = VObj <$> os ∧ z = VTuple ((λ o, VObj (zeros_like o)) <$> os)
  | VObj o => z = VObj (zeros_like o)
  | VNone | VNotSet => False
  end.

(** The values that have one. *)
Definition has_additive_identity (v : value) : Prop :=
  match v with
  | VInt _ | VFloat _ | VObj _ => True
  | VTuple vs => ∃ os, vs = VObj <$> os
  | VNone | VNotSet => False
  end.

(** What [Function(x)] records: the node is its own single argument and its
    operation is [Id]. *)
Definition is_leaf (s : state) (f : ref) : Prop :=
  args (get_obj s f) = Some [f] ∧ func (get_obj s f) = Some Function_Id ∧
  funcargs (get_obj s f) = Some [].

(** Shape of the stores of a tracing session. *)
Record wf (s : state) : Prop := mkWf {
  wf_fresh : ∀ r, next_ref s ≤ r →
    x (get_obj s r) = None ∧ args (get_obj s r) = None;
  wf_args : ∀ r a, args (get_obj s r) = Some a →
    is_leaf s r ∨ Forall (λ k, k < r) a;
  wf_cgraph : ∀ g, cgraph s = Some g → is_Some (graphs s !! g);
  wf_graph : ∀ g G, graphs s !! g = Some G →
    functionCount G = length (functionList G) ∧
    StronglySorted lt (functionList G) ∧
    ∀ i r, functionList G !! i = Some r →
      ID (get_obj s r) = Some (Some i) ∧ is_Some (x (get_obj s r)) ∧
      is_Some (args (get_obj s r)) ∧ is_Some (func (get_obj s r)) ∧
      is_Some (funcargs (get_obj s r))
}.

End Definitions.

Arguments Function obj : clear implicits.
Arguments state obj : clear implicits.
Arguments M obj A : clear implicits.
Arguments api_call obj : clear implicits.
Arguments write_obj : simpl never.
Arguments get_obj : simpl never.

(** * The rest of the tracer: the sentinel and the overloaded operators *)

Section Operators.
Context {obj : Type} {alg : Algebra obj}.

Local Abbreviation value := (value obj).
Local Abbreviation callable := (callable obj).
Local Abbreviation state := (state obj).
Local Abbreviation M := (M obj).

Notation "v <- m ;; k" := (bind m (λ v, k))
  (at level 100, m at next level, right associativity, only parsing).

(** [is_set(o)]: [not isinstance(o, NotSet)] *)
Definition is_set (o : value) : bool :=
  match o with
  | VNotSet => false
  | _ => true
  end.

(** What user code hands to an operator besides a Function node: [None], a
    number or a tuple.  Such a value has no attribute [x], and its class has
    no attribute [totype]. *)
Inductive plain : Type :=
| PlainNone
| PlainInt (z : Z)
| PlainFloat (f : spec_float)
| PlainTuple (vs : list value).

Definition plain_value (p : plain) : value :=
  match p with
  | PlainNone => VNone
  | PlainInt z => VInt z
  | PlainFloat f => VFloat f
  | PlainTuple vs => VTuple vs
  end.

Inductive operand : Type :=
| Node (r : ref)
| Plain (p : plain).

(** [fa.x] for an element [fa] of [Fargs] *)
Definition operand_x (a : operand) : M value :=
  match a with
  | Node r => getattr x r
  | Plain _ => raise AttributeError
  end.

(** The Function nodes among the operands. *)
Definition nodes (ops : list operand) : list ref :=
  omap (λ a, match a with Node r => Some r | Plain _ => None end) ops.

(** [numpy.ndim] of a tuple of operands one of which is itself a tuple: the
    answer is numpy's.  Recent versions refuse such a ragged sequence with a
    [ValueError]; older ones make an array of objects of it and answer 1. *)
Variable numpy_ndim_nested : list operand → result nat.

Definition is_tuple_operand (a : operand) : bool :=
  match a with
  | Plain (PlainTuple _) => true
  | _ => false
  end.

(** [numpy.ndim(Fargs)] for the tuple [Fargs]: nodes, numbers and [None] are
    scalars to numpy, so a tuple of them has one dimension. *)
Definition numpy_ndim (Fargs : list operand) : result nat :=
  if existsb is_tuple_operand Fargs then numpy_ndim_nested Fargs else Ok 1.

(** [Function.push_forward(func, Fargs, funcargs=funcargs)] as the operators
    call it, with a tuple [Fargs] and [Fout = None].  [numpy.ndim(Fargs)] is
    asked first.  When it is positive [fa.x for fa in Fargs] is evaluated,
    and when that succeeds every operand is a node; when it is zero the
    attribute [x] of the tuple [Fargs] itself is read, which it does not
    have. *)
Definition Function_push_forward_operands (fn : callable) (Fargs : list operand)
    (fa : list value) : M ref :=
  d <- lift (numpy_ndim Fargs) ;;
  match d with
  | S _ =>
      vs <- list_comp Fargs operand_x ;;
      out <- lift (call fn (vs ++ fa)) ;;
      Function_create out (nodes Fargs) fn None fa
  | O => raise AttributeError
  end.

(** The attribute [v.__class__.<name>], for instance [float.__add__] or the
    method [dot] of the algebra: given by the classes of the traced values. *)
Variable class_attr : value → string → option callable.

Definition getattr_class (v : value) (name : string) : M callable :=
  match class_attr v name with
  | Some fn => ret fn
  | None => raise AttributeError
  end.

(** The common shape of [__add__], [__sub__], [__mul__], [__div__], [dot]
    and [solve]: [Function.push_forward(self.x.__class__.<name>, (self, rhs))] *)
Definition Function_binary (name : string) (self : ref) (rhs : operand) : M ref :=
  xv <- getattr x self ;;
  fn <- getattr_class xv name ;;
  Function_push_forward_operands fn [Node self; rhs] [].

(** The common shape of [inv], [qr], [eigh] and [transpose]:
    [Function.push_forward(self.x.__class__.<name>, (self,))] *)
Definition Function_unary (name : string) (self : ref) : M ref :=
  xv <- getattr x self ;;
  fn <- getattr_class xv name ;;
  Function_push_forward_operands fn [Node self] [].

Definition Function_add := Function_binary "__add__".
Definition Function_sub := Function_binary "__sub__".
Definition Function_mul := Function_binary "__mul__".
Definition Function_div := Function_binary "__div__".
Definition Function_dot := Function_binary "dot".
Definition Function_solve := Function_binary "solve".
Definition Function_inv := Function_unary "inv".
Definition Function_qr := Function_unary "qr".
Definition Function_eigh := Function_unary "eigh".
Definition Function_transpose := Function_unary "transpose".

(** [Function.__getitem__] *)
Definition Function_getitem (self : ref) (sl : value) : M ref :=
  xv <- getattr x self ;;
  fn <- getattr_class xv "__getitem__" ;;
  Function_push_forward_operands fn [Node self] [sl].

(** [Function.__radd__]: [self + lhs] *)
Definition Function_radd (self : ref) (lhs : operand) : M ref := Function_add self lhs.

(** [Function.__rmul__]: [self * lhs] *)
Definition Function_rmul (self : ref) (lhs : operand) : M ref := Function_mul self lhs.

(** [Function.totype] *)
Definition Function_totype (a : operand) : M ref :=
  match a with
  | Node r => ret r
  | Plain p => Function_init (plain_value p)
  end.

(** [Function.__rdiv__]: [lhs = lhs.__class__.totype(lhs)], then [lhs/self].
    The method [totype] is looked up in the class of [lhs]. *)
Definition Function_rdiv (self : ref) (lhs : operand) : M ref :=
  lhs <- match lhs with
         | Node r => Function_totype (Node r)
         | Plain _ => raise AttributeError
         end ;;
  Function_div lhs (Node self).

End Operators.

Arguments plain obj : clear implicits.
Arguments operand obj : clear implicits.

(** ** More vocabulary for the statements *)

Section Vocabulary.
Context {obj : Type}.

Local Abbreviation state := (state obj).

(** No adjoint differs between the two stores. *)
Definition same_adjoints (s s' : state) : Prop :=
  ∀ r, xbar (get_obj s' r) = xbar (get_obj s r).

(** Every CGraph object was allocated, and no node is recorded in two
    graphs. *)
Definition exclusive (s : state) : Prop :=
  (∀ g, is_Some (graphs s !! g) → g < next_ref s) ∧
  ∀ g1 g2 G1 G2 r,
    graphs s !! g1 = Some G1 → graphs s !! g2 = Some G2 →
    r ∈ functionList G1 → r ∈ functionList G2 → g1 = g2.

(** The calls of the tracing interface other than [CGraph.pullback]. *)
Definition is_pullback (c : api_call obj) : bool :=
  match c with
  | Pullback _ _ => true
  | _ => false
  end.

(** The calls of the tracing interface other than [CGraph.push_forward]. *)
Definition is_push_forward (c : api_call obj) : bool :=
  match c with
  | PushForward _ _ => true
  | _ => false
  end.

(** The nodes whose value [CGraph.push_forward] may assign: those of the
    graph and the first arguments of its independent nodes. *)
Definition assigned_by_push_forward (s : state) (G : CGraph) (r : ref) : Prop :=
  r ∈ functionList G ∨
  ∃ f a, f ∈ independentFunctionList G ∧ args (get_obj s f) = Some a ∧ a !! 0 = Some r.

(** The store [t] has the structure of [s] and differs from it only at
    nodes that [CGraph.push_forward] may assign. *)
Definition untouched (s : state) (G : CGraph) (t : state) : Prop :=
  same_structure s t ∧
  ∀ r, ¬ assigned_by_push_forward s G r → get_obj t r = get_obj s r.

(** Every object that has received its auxiliary arguments, the last
    attribute [Function.create] assigns, is forward-consistent. *)
Definition evaluated (s : state) : Prop :=
  ∀ f, is_Some (funcargs (get_obj s f)) → forward_consistent s f.

(** Two stores that have the structure and the values of [s0] and hold
    the same adjoint at every node of [D]. *)
Definition agree_on (s0 : state) (D : list ref) (s t : state) : Prop :=
  same_up_to_adjoints s0 s ∧ same_up_to_adjoints s0 t ∧
  ∀ r, r ∈ D → xbar (get_obj t r) = xbar (get_obj s r).

(** A computation that runs alike from two such stores: same outcome,
    stores that still agree, and a result that satisfies [Q]. *)
Definition lockstep (s0 : state) (D : list ref) {A} (Q : A → Prop) (m : M obj A) : Prop :=
  ∀ s t, agree_on s0 D s t →
    (m t).1 = (m s).1 ∧ agree_on s0 D (m s).2 (m t).2 ∧
    ∀ a, (m s).1 = Ok a → Q a.

End Vocabulary.

(** * The tracer with a node as [Fargs]

    [Function.push_forward] asks for [numpy.ndim(Fargs)]: besides a tuple of
    nodes it takes a node itself as [Fargs], reads [Fargs.x], calls [func]
    on it alone, and [create] stores what it was given as [args].  This
    module embeds the tracer over stores in which the [args] of a node is a
    tuple of nodes or a node.  A [Function] has [__getitem__] and neither
    [__iter__] nor [__len__] (the base class [Algebra] is taken to define
    none of them), so [numpy.ndim] of a node is 0, indexing a node is
    [Function.__getitem__], and iterating a node calls [__getitem__] on 0,
    1, 2, ... until the call raises [IndexError] or [StopIteration]. *)

Module AnyArgs.
Section Definitions.
Context {obj : Type} {alg : Algebra obj}.

Local Abbreviation value := (value obj).
Local Abbreviation callable := (callable obj).

(** The attribute [v.__class__.<name>], given by the classes of the traced
    values. *)
Variable class_attr : value → string → option callable.

(** What [Function.push_forward] is given as [Fargs]. *)
Inductive fargs : Type :=
| ArgsTuple (l : list ref)
| ArgsNode (r : ref).

(** [numpy.ndim(Fargs)] *)
Definition numpy_ndim (Fargs : fargs) : nat :=
  match Fargs with
  | ArgsTuple _ => 1
  | ArgsNode _ => 0
  end.

Record Function : Type := mkFunction {
  x : option value;
  args : option fargs;
  func : option callable;
  ID : option (option nat);
  funcargs : option (list value);
  xbar : value
}.

Definition blank : Function := mkFunction None None None None None VNotSet.

Record state : Type := mkState {
  heap : gmap nat Function;
  graphs : gmap nat CGraph;
  cgraph : option ref;
  next_ref : nat
}.

Definition init_state : state := mkState ∅ ∅ None 0.

Definition get_obj (s : state) (r : ref) : Function := default blank (heap s !! r).

(** ** The monad

    Iterating a node may go on for ever: the iterations are counted, and a
    computation that exceeds its bound has no outcome. *)

Definition M (A : Type) : Type := state → option (result A * state).

Definition ret {A} (a : A) : M A := λ s, Some (Ok a, s).

Definition raise {A} (e : exn) : M A := λ s, Some (Raise e, s).

Definition out_of_fuel {A} : M A := λ _, None.

Definition bind {A B} (m : M A) (k : A → M B) : M B :=
  λ s, match m s with
       | Some (Ok a, s') => k a s'
       | Some (Raise e, s') => Some (Raise e, s')
       | None => None
       end.

Definition lift {A} (r : result A) : M A := λ s, Some (r, s).

Notation "v <- m ;; k" := (bind m (λ v, k))
  (at level 100, m at next level, right associativity, only parsing).
Notation "m ;;; k" := (bind m (λ _, k))
  (at level 100, right associativity, only parsing).

Fixpoint for_each {A} (l : list A) (body : A → M unit) : M unit :=
  match l with
  | [] => ret tt
  | a :: l' => body a ;;; for_each l' body
  end.

Fixpoint for_enumerate_from {A} (n : nat) (l : list A) (body : nat → A → M unit) : M unit :=
  match l with
  | [] => ret tt
  | a :: l' => body n a ;;; for_enumerate_from (S n) l' body
  end.

Definition for_enumerate {A} (l : list A) (body : nat → A → M unit) : M unit :=
  for_enumerate_from 0 l body.

Fixpoint list_comp {A B} (l : list A) (g : A → M B) : M (list B) :=
  match l with
  | [] => ret []
  | a :: l' => b <- g a ;; bs <- list_comp l' g ;; ret (b :: bs)
  end.

Definition list_getitem {A} (l : list A) (n : nat) : M A :=
  match l !! n with
  | Some a => ret a
  | None => raise IndexError
  end.

(** ** Attribute access *)

Definition getattr {A} (proj : Function → option A) (f : ref) : M A :=
  λ s, match proj (get_obj s f) with
       | Some a => Some (Ok a, s)
       | None => Some (Raise AttributeError, s)
       end.

Definition getattr_xbar (f : ref) : M value := λ s, Some (Ok (xbar (get_obj s f)), s).

Definition getattr_class (v : value) (name : string) : M callable :=
  match class_attr v name with
  | Some fn => ret fn
  | None => raise AttributeError
  end.

Definition write_obj (f : ref) (upd : Function → Function) (s : state) : state :=
  mkState (<[f := upd (get_obj s f)]> (heap s)) (graphs s) (cgraph s) (next_ref s).

Definition update_obj (f : ref) (upd : Function → Function) : M unit :=
  λ s, Some (Ok tt, write_obj f upd s).

Definition set_x (v : value) (o : Function) : Function :=
  mkFunction (Some v) (args o) (func o) (ID o) (funcargs o) (xbar o).
Definition set_args (a : fargs) (o : Function) : Function :=
  mkFunction (x o) (Some a) (func o) (ID o) (funcargs o) (xbar o).
Definition set_func (fn : callable) (o : Function) : Function :=
  mkFunction (x o) (args o) (Some fn) (ID o) (funcargs o) (xbar o).
Definition set_ID (i : option nat) (o : Function) : Function :=
  mkFunction (x o) (args o) (func o) (Some i) (funcargs o) (xbar o).
Definition set_funcargs (fa : list value) (o : Function) : Function :=
  mkFunction (x o) (args o) (func o) (ID o) (Some fa) (xbar o).
Definition set_xbar (v : value) (o : Function) : Function :=
  mkFunction (x o) (args o) (func o) (ID o) (funcargs o) v.

Definition get_graph (g : ref) : M CGraph :=
  λ s, match graphs s !! g with
       | Some G => Some (Ok G, s)
       | None => Some (Raise AttributeError, s)
       end.

Definition put_graph (g : ref) (G : CGraph) : M unit :=
  λ s, Some (Ok tt, mkState (heap s) (<[g := G]> (graphs s)) (cgraph s) (next_ref s)).

Definition get_cgraph : M (option ref) := λ s, Some (Ok (cgraph s), s).

Definition set_cgraph (g : option ref) : M unit :=
  λ s, Some (Ok tt, mkState (heap s) (graphs s) g (next_ref s)).

Definition allocate : M ref :=
  λ s, Some (Ok (next_ref s), mkState (heap s) (graphs s) (cgraph s) (S (next_ref s))).

(** ** class CGraph: construction *)

(** [CGraph.__init__] *)
Definition CGraph_init : M ref :=
  self <- allocate ;;
  put_graph self (mkCGraph 0 [] [] []) ;;;
  set_cgraph (Some self) ;;;
  ret self.

(** [CGraph.append] *)
Definition CGraph_append (self : ref) (f : ref) : M unit :=
  G <- get_graph self ;;
  put_graph self (mkCGraph (functionCount G + 1) (functionList G)
                           (dependentFunctionList G) (independentFunctionList G)) ;;;
  G <- get_graph self ;;
  put_graph self (mkCGraph (functionCount G) (functionList G ++ [f])
                           (dependentFunctionList G) (independentFunctionList G)).

(** [cg.independentFunctionList = l] and [cg.dependentFunctionList = l] *)
Definition set_independent (g : ref) (l : list ref) : M unit :=
  G <- get_graph g ;;
  put_graph g (mkCGraph (functionCount G) (functionList G) (dependentFunctionList G) l).

Definition set_dependent (g : ref) (l : list ref) : M unit :=
  G <- get_graph g ;;
  put_graph g (mkCGraph (functionCount G) (functionList G) l (independentFunctionList G)).

(** ** class Function *)

(** [Function.Id] *)
Definition Function_Id : callable :=
  mkCallable "Id" (λ vs, match vs with
                         | [v] => Ok v
                         | _ => Raise TypeError
                         end).

(** [Function.get_ID] *)
Definition Function_get_ID : M (option nat) :=
  g <- get_cgraph ;;
  match g with
  | Some g => G <- get_graph g ;; ret (Some (functionCount G))
  | None => ret None
  end.

(** [Function.create]: [f.args = fargs] stores the tuple or the node. *)
Definition Function_create (xv : value) (a : fargs) (fn : callable)
    (f : option ref) (fa : list value) : M ref :=
  f <- match f with
       | None => allocate
       | Some f => ret f
       end ;;
  update_obj f (set_x xv) ;;;
  update_obj f (set_args a) ;;;
  update_obj f (set_func fn) ;;;
  i <- Function_get_ID ;;
  update_obj f (set_ID i) ;;;
  update_obj f (set_funcargs fa) ;;;
  g <- get_cgraph ;;
  match g with
  | Some g => CGraph_append g f
  | None => raise AttributeError
  end ;;;
  ret f.

(** [Function(x)] *)
Definition Function_init (xv : value) : M ref :=
  self <- allocate ;;
  match xv with
  | VNone => ret self
  | _ => Function_create xv (ArgsTuple [self]) Function_Id (Some self) [] ;;; ret self
  end.

(** [Function.push_forward], both branches of [numpy.ndim(Fargs) > 0]: a
    tuple is iterated for [fa.x for fa in Fargs] and [func] gets these
    followed by [funcargs]; of a node, [Fargs.x] is read and [func] gets it
    alone.  Either way [Fargs] itself is what [create] receives. *)
Definition Function_push_forward (fn : callable) (Fargs : fargs)
    (Fout : option ref) (fa : list value) : M ref :=
  out <- match numpy_ndim Fargs, Fargs with
         | S _, ArgsTuple l =>
             vs <- list_comp l (getattr x) ;;
             lift (call fn (vs ++ fa))
         | _, ArgsTuple _ => raise AttributeError
         | _, ArgsNode r =>
             arg <- getattr x r ;;
             lift (call fn [arg])
         end ;;
  match Fout with
  | None => Function_create out Fargs fn None fa
  | Some Fout => update_obj Fout (set_x out) ;;; ret Fout
  end.

(** [Function.__getitem__]:
    [Function.push_forward(self.x.__class__.__getitem__, (self,), funcargs=(sl,))] *)
Definition Function_getitem (self : ref) (sl : value) : M ref :=
  xv <- getattr x self ;;
  fn <- getattr_class xv "__getitem__" ;;
  Function_push_forward fn (ArgsTuple [self]) None [sl].

(** The exceptions that end the iteration of an object through
    [__getitem__]. *)
Definition ends_iteration (e : exn) : bool :=
  match e with
  | IndexError => true
  | OtherError n => String.eqb n "StopIteration"
  | _ => false
  end.

(** [[g(Fa) for Fa in b]] for a node [b]: element [i] is [b[i]], and the
    comprehension evaluates [g] on it before it asks for the next one. *)
Fixpoint comp_node {B} (fuel : nat) (b : ref) (i : nat) (g : ref → M B) : M (list B) :=
  match fuel with
  | O => out_of_fuel
  | S fuel' =>
      λ s, match Function_getitem b (VInt (Z.of_nat i)) s with
           | Some (Ok Fa, s') =>
               (v <- g Fa ;; vs <- comp_node fuel' b (S i) g ;; ret (v :: vs)) s'
           | Some (Raise e, s') =>
               if ends_iteration e then Some (Ok [], s') else Some (Raise e, s')
           | None => None
           end
  end.

(** [[g(Fa) for Fa in F.args]] *)
Definition comp_args {B} (fuel : nat) (a : fargs) (g : ref → M B) : M (list B) :=
  match a with
  | ArgsTuple l => list_comp l g
  | ArgsNode b => comp_node fuel b 0 g
  end.

(** [F.args[n]] *)
Definition args_getitem (a : fargs) (n : nat) : M ref :=
  match a with
  | ArgsTuple l => list_getitem l n
  | ArgsNode b => Function_getitem b (VInt (Z.of_nat n))
  end.

(** [Function.xbar_from_x] *)
Definition Function_xbar_from_x (self : ref) : M unit :=
  xv <- getattr x self ;;
  if isscalar xv then update_obj self (set_xbar (VFloat float_zero))
  else match xv with
       | VTuple vs => zs <- lift (zeros_like_each vs) ;; update_obj self (set_xbar (VTuple zs))
       | _ => z <- lift (call_zeros_like xv) ;; update_obj self (set_xbar z)
       end.

Definition call_pullback (pb : pbfun obj) (pargs : list value)
    (out : list (ref * value)) (kw_funcargs : option (list value)) : M unit :=
  writes <- lift (pb pargs out kw_funcargs) ;;
  for_each writes (λ w, if bool_decide (w.1 ∈ out.*1)
                        then update_obj w.1 (set_xbar w.2) else ret tt).

Definition eval_pb (cls func_name : string) : M (pbfun obj) :=
  match pb_lookup cls func_name with
  | Some pb => ret pb
  | None => raise AttributeError
  end.

(** [Function.pullback]: [F.args] is iterated twice, for the values and for
    the adjoints of the arguments. *)
Definition Function_pullback (fuel : nat) (F : ref) : M ref :=
  fn <- getattr func F ;;
  let func_name := name fn in
  xv <- getattr x F ;;
  match xv with
  | VTuple ys =>
      a <- getattr args F ;;
      args_list <- comp_args fuel a (getattr x) ;;
      a <- getattr args F ;;
      argsbar_list <- comp_args fuel a (λ Fa, xb <- getattr_xbar Fa ;; ret (Fa, xb)) ;;
      ybar <- getattr_xbar F ;;
      ybars <- lift (to_list ybar) ;;
      let pargs := ybars ++ args_list ++ ys in
      fa <- getattr funcargs F ;;
      let kw := if (length fa =? 0)%nat then None else Some fa in
      y0 <- list_getitem ys 0 ;;
      pb <- eval_pb (value_class_name y0) func_name ;;
      call_pullback pb pargs argsbar_list kw ;;;
      ret F
  | _ =>
      a <- getattr args F ;;
      args_list <- comp_args fuel a (getattr x) ;;
      a <- getattr args F ;;
      argsbar_list <- comp_args fuel a (λ Fa, xb <- getattr_xbar Fa ;; ret (Fa, xb)) ;;
      ybar <- getattr_xbar F ;;
      let pargs := [ybar] ++ args_list ++ [xv] in
      fa <- getattr funcargs F ;;
      let kw := if (length fa =? 0)%nat then None else Some fa in
      pb <- eval_pb (value_class_name xv) func_name ;;
      call_pullback pb pargs argsbar_list kw ;;;
      ret F
  end.

(** ** Replay: [CGraph.push_forward] and [CGraph.pullback] *)

(** [f.args[0].x = x_list[nf]], right-hand side first. *)
Definition assign_input (x_list : list value) (nf : nat) (f : ref) : M unit :=
  v <- list_getitem x_list nf ;;
  a <- getattr args f ;;
  a0 <- args_getitem a 0 ;;
  update_obj a0 (set_x v).

Definition push_forward_inputs (self : ref) (x_list : list value) : M unit :=
  G <- get_graph self ;;
  for_enumerate (independentFunctionList G) (assign_input x_list).

Definition replay_node (f : ref) : M unit :=
  fn <- getattr func f ;;
  a <- getattr args f ;;
  fa <- getattr funcargs f ;;
  Function_push_forward fn a (Some f) fa ;;;
  ret tt.

Definition push_forward_traverse (self : ref) : M unit :=
  G <- get_graph self ;;
  for_each (functionList G) replay_node.

(** [CGraph.push_forward] *)
Definition CGraph_push_forward (self : ref) (x_list : list value) : M unit :=
  push_forward_inputs self x_list ;;;
  push_forward_traverse self.

Definition pullback_zero_init (self : ref) : M unit :=
  G <- get_graph self ;;
  for_each (functionList G) Function_xbar_from_x.

Definition seed_output (xbar_list : list value) (nf : nat) (f : ref) : M unit :=
  v <- list_getitem xbar_list nf ;;
  xb <- getattr_xbar f ;;
  xb' <- lift (setitem_ellipsis xb v) ;;
  update_obj f (set_xbar xb').

Definition pullback_seed (self : ref) (xbar_list : list value) : M unit :=
  G <- get_graph self ;;
  for_enumerate (dependentFunctionList G) (seed_output xbar_list).

(** [for f in self.functionList[::-1]: Function.pullback(f)]: the slice is
    a copy, the nodes appended on the way are not visited. *)
Definition pullback_propagate (fuel : nat) (self : ref) : M unit :=
  G <- get_graph self ;;
  for_each (rev (functionList G)) (λ f, Function_pullback fuel f ;;; ret tt).

(** [CGraph.pullback] *)
Definition CGraph_pullback (fuel : nat) (self : ref) (xbar_list : list value) : M unit :=
  G <- get_graph self ;;
  if (length (dependentFunctionList G) =? 0)%nat
  then raise (PyException no_dependent_msg)
  else
    pullback_zero_init self ;;;
    pullback_seed self xbar_list ;;;
    pullback_propagate fuel self.

(** ** Vocabulary of the statements *)

(** No node of the store has a node as its [args]. *)
Definition tuple_store (s : state) : Prop :=
  ∀ r b, args (get_obj s r) ≠ Some (ArgsNode b).

(** The graph objects and the structural fields of every node are the
    same in the two stores. *)
Definition same_structure (s s' : state) : Prop :=
  graphs s' = graphs s ∧ cgraph s' = cgraph s ∧ next_ref s' = next_ref s ∧
  ∀ r, func (get_obj s' r) = func (get_obj s r) ∧
       args (get_obj s' r) = args (get_obj s r) ∧
       funcargs (get_obj s' r) = funcargs (get_obj s r) ∧
       ID (get_obj s' r) = ID (get_obj s r).

Definition same_values (s s' : state) : Prop :=
  ∀ r, x (get_obj s' r) = x (get_obj s r).

(** From a store of tuples the computation has an outcome, within any
    bound, and the store it leaves is related to the one it started from. *)
Definition framed (R : state → state → Prop) {A} (m : M A) : Prop :=
  ∀ s, tuple_store s → ∃ r s', m s = Some (r, s') ∧ R s s'.

End Definitions.

Arguments Function obj : clear implicits.
Arguments state obj : clear implicits.
Arguments M obj A : clear implicits.
Arguments write_obj : simpl never.
Arguments get_obj : simpl never.

End AnyArgs.

(** * The [basecase] decorator of [algopy.nthderiv] *)

Module NthDeriv.

(** Python values at the interface of the derivative functions: [None], an
    integer (the order [n]), a float, an array of floats. *)
Inductive pyval : Type :=
| PNone
| PInt (z : Z)
| PFloat (f : spec_float)
| PArray (a : list spec_float).

Definition DOM_ALL : string := "all real numbers".
Definition DOM_POS : string := "positive real numbers".
Definition DOM_GT_1 : string := "real numbers greater than 1".
Definition DOM_GT_NEG_1 : string := "real numbers greater than -1".
Definition DOM_ABS_LT_1 : string := "real numbers with absolute value less than 1".

Definition _domain_constants : list string :=
  [DOM_ALL; DOM_POS; DOM_GT_1; DOM_GT_NEG_1; DOM_ABS_LT_1].

(** The function called when [n] is zero, on the positional arguments alone
    or with the keyword [out]. *)
Record zeroth_function : Type := mkZeroth {
  zeroth_name : string;
  zeroth_call : list pyval → option pyval → result pyval
}.

(** The decorated definition [f], called on the positional arguments with
    the keywords [out] and [n]. *)
Definition deriv_body : Type := list pyval → pyval → pyval → result pyval.

(** The calls a wrapped function makes. *)
Inductive call_event : Type :=
| CallZeroth (args : list pyval) (out : option pyval)
| CallDeriv (args : list pyval) (out n : pyval).

(** [kwargs.pop(key, default)] *)
Definition dict_pop (key : string) (default_value : pyval) (kwargs : gmap string pyval)
  : pyval * gmap string pyval :=
  (default default_value (kwargs !! key), delete key kwargs).

(** The test [if n < 0:].  Ordering [None] against an integer is a
    [TypeError] (Python 3); the comparison of an array is elementwise and its
    truth value is ambiguous when it has more than one element. *)
Definition lt_zero (n : pyval) : result bool :=
  match n with
  | PInt z => Ok (z <? 0)%Z
  | PFloat f => Ok (SFltb f float_zero)
  | PArray [] => Ok false
  | PArray [f] => Ok (SFltb f float_zero)
  | PArray _ => Raise (ValueError "ambiguous truth value")
  | PNone => Raise TypeError
  end.

(** The truth value of [n] in [if n:]. *)
Definition truth (n : pyval) : result bool :=
  match n with
  | PNone => Ok false
  | PInt z => Ok (negb (z =? 0)%Z)
  | PFloat f => Ok (negb (SFeqb f float_zero))
  | PArray [] => Ok false
  | PArray [f] => Ok (negb (SFeqb f float_zero))
  | PArray _ => Raise (ValueError "ambiguous truth value")
  end.

(** [wrapped_f] on positional arguments [args] and keywords [kwargs], with
    the calls it makes. *)
Definition wrapped_f (fn_zeroth_deriv : zeroth_function) (f : deriv_body)
    (args : list pyval) (kwargs : gmap string pyval) : list call_event * result pyval :=
  let '(out, kwargs) := dict_pop "out" PNone kwargs in
  let '(n, kwargs) := dict_pop "n" (PInt 0) kwargs in
  if negb (bool_decide (dom kwargs = ∅))
  then ([], Raise (ValueError "unexpected keyword args"))
  else
    match lt_zero n with
    | Raise e => ([], Raise e)
    | Ok true => ([], Raise (ValueError "n must be a nonnegative integer"))
    | Ok false =>
        match truth n with
        | Raise e => ([], Raise e)
        | Ok true => ([CallDeriv args out n], f args out n)
        | Ok false =>
            match out with
            | PNone => ([CallZeroth args None], zeroth_call fn_zeroth_deriv args None)
            | _ => ([CallZeroth args (Some out)],
                    zeroth_call fn_zeroth_deriv args (Some out))
            end
        end
    end.

(** What the decorator returns: [wrapped_f] with its attributes. *)
Record derivative_function : Type := mkDerivative {
  __name__ : string;
  domain : string;
  extras : nat;
  apply_derivative : list pyval → gmap string pyval → list call_event * result pyval
}.

(** [basecase(fn_zeroth_deriv, domain, extras)] *)
Definition basecase (fn_zeroth_deriv : zeroth_function) (domain : string) (extras : nat)
  : result (deriv_body → derivative_function) :=
  if bool_decide (domain ∈ _domain_constants)
  then Ok (λ f, mkDerivative (zeroth_name fn_zeroth_deriv) domain extras
                             (wrapped_f fn_zeroth_deriv f))
  else Raise (ValueError "").

(** ** One decorated function: [negative] *)

(** The floats [-1.] and [2.5] in binary64. *)
Definition float_minus_one : spec_float := S754_finite true 4503599627370496 (-52).
Definition float_two_and_a_half : spec_float := S754_finite false 5629499534213120 (-51).

(** [np.negative(x, out)] *)
Definition np_negative : zeroth_function :=
  mkZeroth "negative" (λ args _, match args with
                                 | [PArray a] => Ok (PArray (SFopp <$> a))
                                 | [PFloat f] => Ok (PFloat (SFopp f))
                                 | _ => Raise TypeError
                                 end).

(** [np_filled_like(x, fill_value, out)] *)
Definition np_filled_like (xv : pyval) (fill_value : spec_float) (out : pyval) : result pyval :=
  match (match out with PNone => xv | _ => out end) with
  | PArray a => Ok (PArray ((λ _, fill_value) <$> a))
  | _ => Raise AttributeError
  end.

(** The body of [negative(x, out=None, n=0)] *)
Definition negative_body : deriv_body :=
  λ args out n,
    match args with
    | [xv] =>
        match n with
        | PInt 1 => np_filled_like xv float_minus_one out
        | _ => np_filled_like xv float_zero out
        end
    | _ => Raise TypeError
    end.

(** [@basecase(np.negative) def negative(x, out=None, n=0): ...] *)
Definition negative : result derivative_function :=
  match basecase np_negative DOM_ALL 0 with
  | Ok wrap => Ok (wrap negative_body)
  | Raise e => Raise e
  end.

End NthDeriv.

(** * Decorated functions of [algopy.nthderiv]

    [numpy] and [scipy] functions and the formulas in floating-point
    arithmetic are given from outside; what is embedded is how the
    decorated definitions dispatch on the order [n] and what they pass
    on. *)

Module Derivatives.
Import NthDeriv.

(** The floats [1.] and [2.] in binary64. *)
Definition float_one : spec_float := S754_finite false 4503599627370496 (-52).
Definition float_two : spec_float := S754_finite false 4503599627370496 (-51).

(** The test [if n == k:] against the integer [k], whose float is [kf]. *)
Definition eq_const (n : pyval) (k : Z) (kf : spec_float) : result bool :=
  match n with
  | PInt z => Ok (z =? k)%Z
  | PFloat f => Ok (SFeqb f kf)
  | PArray [] => Ok false
  | PArray [f] => Ok (SFeqb f kf)
  | PArray _ => Raise (ValueError "ambiguous truth value")
  | PNone => Ok false
  end.

(** ** "Functions that are not so differentiable" *)

(** The body of [rint(x, out=None, n=0)] *)
Definition rint_body : deriv_body :=
  λ args out n,
    match args with
    | [xv] => np_filled_like xv float_zero out
    | _ => Raise TypeError
    end.

(** The body of [fix(x, out=None, n=0)] *)
Definition fix_body : deriv_body :=
  λ args out n,
    match args with
    | [xv] => np_filled_like xv float_zero out
    | _ => Raise TypeError
    end.

(** The body of [floor(x, out=None, n=0)] *)
Definition floor_body : deriv_body :=
  λ args out n,
    match args with
    | [xv] => np_filled_like xv float_zero out
    | _ => Raise TypeError
    end.

(** The body of [ceil(x, out=None, n=0)] *)
Definition ceil_body : deriv_body :=
  λ args out n,
    match args with
    | [xv] => np_filled_like xv float_zero out
    | _ => Raise TypeError
    end.

(** The body of [trunc(x, out=None, n=0)] *)
Definition trunc_body : deriv_body :=
  λ args out n,
    match args with
    | [xv] => np_filled_like xv float_zero out
    | _ => Raise TypeError
    end.

(** The body of [sign(x, out=None, n=0)] *)
Definition sign_body : deriv_body :=
  λ args out n,
    match args with
    | [xv] => np_filled_like xv float_zero out
    | _ => Raise TypeError
    end.

Section External.

(** [np.sign], [np.multiply], [np.arcsin] and [np.negative], called on
    positional arguments. *)
Variables (np_sign np_multiply np_arcsin numpy_negative : zeroth_function).

(** The body of [absolute(x, out=None, n=0)] *)
Definition absolute_body : deriv_body :=
  λ args out n,
    match args with
    | [xv] =>
        match eq_const n 1 float_one with
        | Ok true => zeroth_call np_sign [xv; out] None
        | Ok false => np_filled_like xv float_zero out
        | Raise e => Raise e
        end
    | _ => Raise TypeError
    end.

(** The body of [square(x, out=None, n=0)] *)
Definition square_body : deriv_body :=
  λ args out n,
    match args with
    | [xv] =>
        match eq_const n 1 float_one with
        | Ok true => zeroth_call np_multiply [xv; PInt 2; out] None
        | Ok false =>
            match eq_const n 2 float_two with
            | Ok true => np_filled_like xv float_two out
            | Ok false => np_filled_like xv float_zero out
            | Raise e => Raise e
            end
        | Raise e => Raise e
        end
    | _ => Raise TypeError
    end.

(** ** [arcsin] and [arccos] *)

(** The body of [arcsin(x, out=None, n=0)], a formula in complex
    arithmetic. *)
Variable arcsin_body : deriv_body.

(** [@basecase(np.arcsin, domain=DOM_ABS_LT_1) def arcsin ...] *)
Definition arcsin : result derivative_function :=
  match basecase np_arcsin DOM_ABS_LT_1 0 with
  | Ok wrap => Ok (wrap arcsin_body)
  | Raise e => Raise e
  end.

(** The body of [arccos(x, out=None, n=0)]:
    [return np.negative(arcsin(x), out)] *)
Definition arccos_body : deriv_body :=
  λ args out n,
    match args with
    | [xv] =>
        match arcsin with
        | Ok d =>
            match (apply_derivative d [xv] ∅).2 with
            | Ok v => zeroth_call numpy_negative [v; out] None
            | Raise e => Raise e
            end
        | Raise e => Raise e
        end
    | _ => Raise TypeError
    end.

(** ** Generalized hypergeometric functions *)

(** A Python list of values, as [hyp0f1] and the like build for [A] and
    [B]. *)
Variable pylist : list pyval → pyval.

(** What [np_hyp_pfq(A, B, x, out)] computes: a [scipy] function chosen by
    the lengths of [A] and [B]. *)
Variable np_hyp_pfq_body : pyval → pyval → pyval → pyval → result pyval.

(** [def np_hyp_pfq(A, B, x, out=None)]: three or four arguments. *)
Definition np_hyp_pfq : zeroth_function :=
  mkZeroth "np_hyp_pfq"
    (λ args out,
       match args, out with
       | [A; B; xv], None => np_hyp_pfq_body A B xv PNone
       | [A; B; xv], Some o => np_hyp_pfq_body A B xv o
       | [A; B; xv; o], None => np_hyp_pfq_body A B xv o
       | _, _ => Raise TypeError
       end).

(** The body of [hyp_pfq(A, B, x, out=None, n=0)], a formula in
    floating-point arithmetic. *)
Variable hyp_pfq_body : deriv_body.

(** [@basecase(np_hyp_pfq, extras=2) def hyp_pfq ...] *)
Definition hyp_pfq : result derivative_function :=
  match basecase np_hyp_pfq DOM_ALL 2 with
  | Ok wrap => Ok (wrap hyp_pfq_body)
  | Raise e => Raise e
  end.

(** [hyp_pfq(A, B, x, out, n)]: five positional arguments. *)
Definition call_hyp_pfq (A B : list pyval) (xv out n : pyval) : result pyval :=
  match hyp_pfq with
  | Ok d => (apply_derivative d [pylist A; pylist B; xv; out; n] ∅).2
  | Raise e => Raise e
  end.

(** The body of [hyp0f1(b, x, out=None, n=0)] *)
Definition hyp0f1_body : deriv_body :=
  λ args out n,
    match args with
    | [b; xv] => call_hyp_pfq [] [b] xv out n
    | _ => Raise TypeError
    end.

(** The body of [hyp1f1(a, b, x, out=None, n=0)] *)
Definition hyp1f1_body : deriv_body :=
  λ args out n,
    match args with
    | [a; b; xv] => call_hyp_pfq [a] [b] xv out n
    | _ => Raise TypeError
    end.

(** The body of [hyp1f2(a, b1, b2, x, out=None, n=0)] *)
Definition hyp1f2_body : deriv_body :=
  λ args out n,
    match args with
    | [a; b1; b2; xv] => call_hyp_pfq [a] [b1; b2] xv out n
    | _ => Raise TypeError
    end.

(** The body of [hyp2f0(a1, a2, x, out=None, n=0)] *)
Definition hyp2f0_body : deriv_body :=
  λ args out n,
    match args with
    | [a1; a2; xv] => call_hyp_pfq [a1; a2] [] xv out n
    | _ => Raise TypeError
    end.

(** The body of [hyp2f1(a1, a2, b1, x, out=None, n=0)] *)
Definition hyp2f1_body : deriv_body :=
  λ args out n,
    match args with
    | [a1; a2; b1; xv] => call_hyp_pfq [a1; a2] [b1] xv out n
    | _ => Raise TypeError
    end.

(** The body of [hyp3f0(a1, a2, a3, x, out=None, n=0)] *)
Definition hyp3f0_body : deriv_body :=
  λ args out n,
    match args with
    | [a1; a2; a3; xv] => call_hyp_pfq [a1; a2; a3] [] xv out n
    | _ => Raise TypeError
    end.

End External.

End Derivatives.

(** * A small algebra to run the tracer on

    Arrays of integers with elementwise operations stand for the instances
    of the traced class (named [UTPM] as in [algopy.utp.utpm.utpm]). *)

Module Demo.

Abbreviation arr := (list Z) (only parsing).

(** [o[...] = v] copies an array of the same length or broadcasts an integer. *)
Definition arr_setitem (o : arr) (v : value arr) : result arr :=
  match v with
  | VObj o' => if (length o' =? length o)%nat then Ok o'
               else Raise (ValueError "shape mismatch")
  | VInt z => Ok ((λ _, z) <$> o)
  | _ => Raise TypeError
  end.

(** The content of the adjoint object of node [r] after the writes [ws]. *)
Fixpoint latest (r : ref) (cur : arr) (ws : list (ref * value arr)) : arr :=
  match ws with
  | [] => cur
  | (k, VObj c) :: ws' => latest r (if decide (k = r) then c else cur) ws'
  | _ :: ws' => latest r cur ws'
  end.

(** In-place [out[i] += contribs[i]], one slot after the other. *)
Fixpoint accumulate (done : list (ref * value arr)) (out : list (ref * value arr))
    (contribs : list arr) : list (ref * value arr) :=
  match out, contribs with
  | (r, VObj c) :: out', d :: contribs' =>
      accumulate (done ++ [(r, VObj (zip_with Z.add (latest r c done) d))]) out' contribs'
  | _, _ => done
  end.

Definition pb_add : pbfun arr := λ pargs out _,
  match pargs with
  | [VObj zbar; VObj _; VObj _; VObj _] => Ok (accumulate [] out [zbar; zbar])
  | _ => Raise TypeError
  end.

Definition pb_mul : pbfun arr := λ pargs out _,
  match pargs with
  | [VObj zbar; VObj a; VObj b; VObj _] =>
      Ok (accumulate [] out [zip_with Z.mul zbar b; zip_with Z.mul zbar a])
  | _ => Raise TypeError
  end.

Definition pb_Id : pbfun arr := λ _ _ _, Ok [].

#[export] Instance arr_algebra : Algebra arr := {|
  class_name := λ _, "UTPM";
  zeros_like := λ o, (λ _, 0%Z) <$> o;
  obj_setitem := arr_setitem;
  pb_lookup := λ cls fname,
    if String.eqb cls "UTPM" then
      if String.eqb fname "__add__" then Some pb_add
      else if String.eqb fname "__mul__" then Some pb_mul
      else if String.eqb fname "Id" then Some pb_Id
      else None
    else None
|}.

Definition add : callable arr :=
  mkCallable "__add__" (λ vs, match vs with
                              | [VObj a; VObj b] => Ok (VObj (zip_with Z.add a b))
                              | _ => Raise TypeError
                              end).

Definition mul : callable arr :=
  mkCallable "__mul__" (λ vs, match vs with
                              | [VObj a; VObj b] => Ok (VObj (zip_with Z.mul a b))
                              | _ => Raise TypeError
                              end).

(** [cg = CGraph(); x1 = Function([2]); x2 = Function([3]); x3 = Function([4]);
     y = x1 * (x2 + x3); cg.independentFunctionList = [x1, x2, x3];
     cg.dependentFunctionList = [y]].  The graph is object 0, the nodes are
    objects 1 to 5. *)
Definition product_trace : list (api_call arr) :=
  [NewCGraph; NewFunction (VObj [2%Z]); NewFunction (VObj [3%Z]); NewFunction (VObj [4%Z]);
   Apply add [2; 3] []; Apply mul [1; 4] [];
   SetIndependent 0 [1; 2; 3]; SetDependent 0 [5]].

Definition product_graph : state arr := run_calls product_trace init_state.

(** The CGraph object of [product_graph]. *)
Definition product_cgraph : CGraph := mkCGraph 5 [1; 2; 3; 4; 5] [5] [1; 2; 3].

(** The same graph before its dependent node is declared. *)
Definition undeclared_graph : state arr :=
  run_calls (take 7 product_trace) init_state.

(** [cg = CGraph(); x = Function(3.0); cg.dependentFunctionList = [x]]:
    a graph whose output is a Python scalar. *)
Definition scalar_graph : state arr :=
  run_calls [NewCGraph; NewFunction (VFloat (S754_finite false 6755399441055744 (-51)));
             SetIndependent 0 [1]; SetDependent 0 [1]] init_state.

(** [cg = CGraph(); x = Function([2])]: one leaf. *)
Definition leaf_graph : state arr :=
  run_calls [NewCGraph; NewFunction (VObj [2%Z])] init_state.

(** [cg1 = CGraph(); x = Function([2]); y = Function([3]); cg2 = CGraph();
     z = y + y]: the node [z] of the second graph has an argument recorded
    in the first. *)
Definition two_graphs : state arr :=
  run_calls [NewCGraph; NewFunction (VObj [2%Z]); NewFunction (VObj [3%Z]);
             NewCGraph; Apply add [2; 2] []] init_state.

End Demo.

(** The methods of the class of the demo arrays. *)
Module DemoClass.
Import Demo.

Definition utpm_attr (v : value arr) (name : string) : option (callable arr) :=
  match v with
  | VObj _ =>
      if String.eqb name "__add__" then Some add
      else if String.eqb name "__mul__" then Some mul
      else None
  | _ => None
  end.

(** [numpy.ndim] on a ragged tuple of operands, as recent versions answer. *)
Definition ragged_ndim (Fargs : list (operand arr)) : result nat :=
  Raise (ValueError "inhomogeneous shape").

(** Stand-ins for [np.arcsin] and for [np.negative] called with [out]. *)
Definition demo_arcsin : NthDeriv.zeroth_function :=
  NthDeriv.mkZeroth "arcsin"
    (λ args _, match args with
               | [NthDeriv.PFloat f] => Ok (NthDeriv.PFloat f)
               | _ => Raise TypeError
               end).

Definition demo_negative : NthDeriv.zeroth_function :=
  NthDeriv.mkZeroth "negative"
    (λ args _, match args with
               | [NthDeriv.PFloat f; _] => Ok (NthDeriv.PFloat (SFopp f))
               | _ => Raise TypeError
               end).

End DemoClass.

(** A class of arrays with [__getitem__], and a graph one of whose nodes
    was recorded with a node as [Fargs]. *)
Module DemoBare.
Import Demo.

(** [a[i]] for [0 <= i < len(a)] is the array of element [i] alone; any
    other index raises [IndexError]. *)
Definition arr_getitem : callable arr :=
  mkCallable "__getitem__"
    (λ vs, match vs with
           | [VObj a; VInt i] =>
               if (i <? 0)%Z then Raise IndexError
               else match a !! Z.to_nat i with
                    | Some z => Ok (VObj [z])
                    | None => Raise IndexError
                    end
           | _ => Raise TypeError
           end).

Definition arr_attr (v : value arr) (name : string) : option (callable arr) :=
  match v with
  | VObj _ => if String.eqb name "__getitem__" then Some arr_getitem else None
  | _ => None
  end.

(** [cg = CGraph(); x = Function([2]); y = Function.push_forward(Function.Id, x);
     cg.dependentFunctionList = [y]; cg.independentFunctionList = [y]].
    The graph is object 0, [x] is object 1 and [y] is object 2. *)
Definition node_args_program : AnyArgs.M arr unit :=
  AnyArgs.bind AnyArgs.CGraph_init (λ cg,
  AnyArgs.bind (AnyArgs.Function_init (VObj [2%Z])) (λ x,
  AnyArgs.bind (AnyArgs.Function_push_forward AnyArgs.Function_Id (AnyArgs.ArgsNode x) None [])
    (λ y,
  AnyArgs.bind (AnyArgs.set_dependent cg [y]) (λ _,
  AnyArgs.set_independent cg [y])))).

Definition node_args_graph : AnyArgs.state arr :=
  match node_args_program AnyArgs.init_state with
  | Some (_, s) => s
  | None => AnyArgs.init_state
  end.

(** [cg = CGraph(); x = Function([2]); cg.independentFunctionList = [x];
     cg.dependentFunctionList = [x]]: every [args] is a tuple. *)
Definition tuple_args_program : AnyArgs.M arr unit :=
  AnyArgs.bind AnyArgs.CGraph_init (λ cg,
  AnyArgs.bind (AnyArgs.Function_init (VObj [2%Z])) (λ x,
  AnyArgs.bind (AnyArgs.set_dependent cg [x]) (λ _,
  AnyArgs.set_independent cg [x]))).

Definition tuple_args_graph : AnyArgs.state arr :=
  match tuple_args_program AnyArgs.init_state with
  | Some (_, s) => s
  | None => AnyArgs.init_state
  end.

End DemoBare.

(** * Properties of the tracer *)

Section Theory.
Context {obj : Type} {alg : Algebra obj}.

Local Abbreviation value := (value obj).
Local Abbreviation callable := (callable obj).
Local Abbreviation state := (state obj).
Local Abbreviation Function := (Function obj).
Local Abbreviation M := (M obj).
Local Abbreviation same_structure := (@same_structure obj).
Local Abbreviation same_up_to_adjoints := (@same_up_to_adjoints obj).
Local Abbreviation wf := (@wf obj).

Implicit Types (s : state) (r f g : nat) (v xv : value).
Implicit Types (fn : callable) (fa x_list xbar_list : list value).

(** ** Reading the store after a write *)

Lemma get_obj_update f (upd : Function → Function) s r :
  get_obj (write_obj f upd s) r
  = if decide (r = f) then upd (get_obj s f) else get_obj s r.
Proof.
  unfold get_obj, write_obj; simpl.
  destruct (decide (r = f)) as [->|Hne].
  - by rewrite lookup_insert_eq.
  - by rewrite lookup_insert_ne.
Qed.

Lemma get_obj_update_eq f (upd : Function → Function) s :
  get_obj (write_obj f upd s) f = upd (get_obj s f).
Proof. rewrite get_obj_update. by destruct (decide (f = f)). Qed.

Lemma get_obj_update_ne f (upd : Function → Function) s r :
  r ≠ f → get_obj (write_obj f upd s) r = get_obj s r.
Proof. intros Hne. rewrite get_obj_update. by destruct (decide (r = f)). Qed.

Lemma get_obj_update_ne_x f (upd : Function → Function) s r :
  r ≠ f → x (get_obj (write_obj f upd s) r) = x (get_obj s r).
Proof. intros Hne. by rewrite get_obj_update_ne. Qed.

(** ** Computations that keep a relation between the stores *)

Section Preserves.
Variable R : state → state → Prop.
Hypothesis R_refl : ∀ s, R s s.
Hypothesis R_trans : ∀ s1 s2 s3, R s1 s2 → R s2 s3 → R s1 s3.

Lemma preserves_ret {A} (a : A) : preserves R (ret a).
Proof. intros s. apply R_refl. Qed.

Lemma preserves_raise {A} e : preserves R (raise e : M A).
Proof. intros s. apply R_refl. Qed.

Lemma preserves_lift {A} (res : result A) : preserves R (lift res).
Proof. intros s. apply R_refl. Qed.

Lemma preserves_bind {A B} (m : M A) (k : A → M B) :
  preserves R m → (∀ a, preserves R (k a)) → preserves R (bind m k).
Proof.
  intros Hm Hk s. unfold bind.
  specialize (Hm s). destruct (m s) as [[a|e] s']; simpl in *; [|done].
  eapply R_trans; [exact Hm | apply Hk].
Qed.

Lemma preserves_getattr {A} (proj : Function → option A) f :
  preserves R (getattr proj f).
Proof. intros s. unfold getattr. destruct (proj _); apply R_refl. Qed.

Lemma preserves_getattr_xbar f : preserves R (getattr_xbar f).
Proof. intros s. apply R_refl. Qed.

Lemma preserves_get_graph g : preserves R (get_graph g).
Proof. intros s. unfold get_graph. destruct (_ !! _); apply R_refl. Qed.

Lemma preserves_get_cgraph : preserves R get_cgraph.
Proof. intros s. apply R_refl. Qed.

Lemma preserves_list_getitem {A} (l : list A) n : preserves R (list_getitem l n).
Proof. intros s. unfold list_getitem. destruct (_ !! _); apply R_refl. Qed.

Lemma preserves_for_each {A} (l : list A) body :
  (∀ a, preserves R (body a)) → preserves R (for_each l body).
Proof.
  intros Hb. induction l as [|a l IH]; simpl.
  - apply preserves_ret.
  - apply preserves_bind; [apply Hb | intros _; exact IH].
Qed.

Lemma preserves_for_enumerate_from {A} n (l : list A) body :
  (∀ k a, preserves R (body k a)) → preserves R (for_enumerate_from n l body).
Proof.
  intros Hb. revert n. induction l as [|a l IH]; intros n; simpl.
  - apply preserves_ret.
  - apply preserves_bind; [apply Hb | intros _; apply IH].
Qed.

Lemma preserves_list_comp {A B} (l : list A) (k : A → M B) :
  (∀ a, preserves R (k a)) → preserves R (list_comp l k).
Proof.
  intros Hk. induction l as [|a l IH]; simpl.
  - apply preserves_ret.
  - apply preserves_bind; [apply Hk | intros b].
    apply preserves_bind; [exact IH | intros bs; apply preserves_ret].
Qed.

End Preserves.

(** ** The structure relation is an equivalence kept by value and adjoint writes *)

Lemma same_structure_refl s : same_structure s s.
Proof. by repeat split. Qed.

Lemma same_structure_trans s1 s2 s3 :
  same_structure s1 s2 → same_structure s2 s3 → same_structure s1 s3.
Proof.
  intros (Hg & Hc & Hn & Ho) (Hg' & Hc' & Hn' & Ho').
  split; [congruence|]. split; [congruence|]. split; [congruence|].
  intros r. by rewrite Ho', Ho.
Qed.

Lemma same_structure_set_x f v : preserves same_structure (update_obj f (set_x v)).
Proof.
  intros s. repeat split; try done. intros r. simpl.
  rewrite get_obj_update. by destruct (decide (r = f)) as [->|].
Qed.

Lemma same_structure_set_xbar f v : preserves same_structure (update_obj f (set_xbar v)).
Proof.
  intros s. repeat split; try done. intros r. simpl.
  rewrite get_obj_update. by destruct (decide (r = f)) as [->|].
Qed.

Create HintDb frame discriminated.

#[local] Hint Resolve same_structure_refl same_structure_trans : frame.
#[local] Hint Resolve preserves_ret preserves_raise preserves_lift preserves_getattr
  preserves_getattr_xbar preserves_get_graph preserves_get_cgraph preserves_list_getitem
  same_structure_set_x same_structure_set_xbar : frame.

(** Splits a computation along its binds and loops, down to the reads and
    writes. *)
Ltac frame_step :=
  first
    [ solve [eauto with frame]
    | apply preserves_bind; [solve [eauto with frame] .. | | intros ? ]
    | apply preserves_for_each; [solve [eauto with frame] .. | intros ? ]
    | apply preserves_for_enumerate_from; [solve [eauto with frame] .. | intros ? ? ]
    | apply preserves_list_comp; [solve [eauto with frame] .. | intros ? ]
    | match goal with |- preserves _ (if ?c then _ else _) => destruct c end ].

Ltac frame := repeat (frame_step; simpl).

Lemma Function_push_forward_replay_frame fn a f fa :
  preserves same_structure (Function_push_forward fn a (Some f) fa).
Proof. unfold Function_push_forward. frame. Qed.

#[local] Hint Resolve Function_push_forward_replay_frame : frame.

Lemma replay_node_frame f : preserves same_structure (replay_node f).
Proof. unfold replay_node. frame. Qed.

Lemma assign_input_frame x_list nf f : preserves same_structure (assign_input x_list nf f).
Proof. unfold assign_input. frame. Qed.

#[local] Hint Resolve replay_node_frame assign_input_frame : frame.

Lemma push_forward_inputs_frame g x_list :
  preserves same_structure (push_forward_inputs g x_list).
Proof. unfold push_forward_inputs, for_enumerate. frame. Qed.

Lemma push_forward_traverse_frame g : preserves same_structure (push_forward_traverse g).
Proof. unfold push_forward_traverse. frame. Qed.

#[local] Hint Resolve push_forward_inputs_frame push_forward_traverse_frame : frame.

Lemma CGraph_push_forward_frame g x_list :
  preserves same_structure (CGraph_push_forward g x_list).
Proof. unfold CGraph_push_forward. frame. Qed.

Lemma same_up_to_adjoints_refl s : same_up_to_adjoints s s.
Proof. split; [apply same_structure_refl | done]. Qed.

Lemma same_up_to_adjoints_trans s1 s2 s3 :
  same_up_to_adjoints s1 s2 → same_up_to_adjoints s2 s3 → same_up_to_adjoints s1 s3.
Proof.
  intros [H1 Hx1] [H2 Hx2]. split; [by eapply same_structure_trans|].
  intros r. by rewrite Hx2, Hx1.
Qed.

Lemma same_up_to_adjoints_set_xbar f v :
  preserves same_up_to_adjoints (update_obj f (set_xbar v)).
Proof.
  intros s. split; [apply same_structure_set_xbar|]. intros r. simpl.
  rewrite get_obj_update. by destruct (decide (r = f)) as [->|].
Qed.

#[local] Hint Resolve same_up_to_adjoints_refl same_up_to_adjoints_trans
  same_up_to_adjoints_set_xbar : frame.

Lemma Function_xbar_from_x_frame f : preserves same_up_to_adjoints (Function_xbar_from_x f).
Proof.
  unfold Function_xbar_from_x.
  apply preserves_bind; [eauto with frame .. | intros xv].
  destruct (isscalar xv); [frame|]. destruct xv; frame.
Qed.

Lemma call_pullback_frame pb pargs out kw :
  preserves same_up_to_adjoints (call_pullback pb pargs out kw).
Proof. unfold call_pullback. frame. Qed.

Lemma eval_pb_frame cls fname : preserves same_up_to_adjoints (eval_pb cls fname).
Proof. unfold eval_pb. destruct (pb_lookup _ _); frame. Qed.

#[local] Hint Resolve Function_xbar_from_x_frame call_pullback_frame eval_pb_frame : frame.

Lemma Function_pullback_frame F : preserves same_up_to_adjoints (Function_pullback F).
Proof.
  unfold Function_pullback.
  apply preserves_bind; [eauto with frame .. | intros fn].
  apply preserves_bind; [eauto with frame .. | intros xv].
  destruct xv; frame.
Qed.

Lemma seed_output_frame xbar_list nf f :
  preserves same_up_to_adjoints (seed_output xbar_list nf f).
Proof. unfold seed_output. frame. Qed.

#[local] Hint Resolve Function_pullback_frame seed_output_frame : frame.

Lemma pullback_zero_init_frame g : preserves same_up_to_adjoints (pullback_zero_init g).
Proof. unfold pullback_zero_init. frame. Qed.

Lemma pullback_seed_frame g xbar_list :
  preserves same_up_to_adjoints (pullback_seed g xbar_list).
Proof. unfold pullback_seed, for_enumerate. frame. Qed.

Lemma pullback_propagate_frame g : preserves same_up_to_adjoints (pullback_propagate g).
Proof. unfold pullback_propagate. frame. Qed.

#[local] Hint Resolve pullback_zero_init_frame pullback_seed_frame pullback_propagate_frame : frame.

Lemma CGraph_pullback_frame g xbar_list :
  preserves same_up_to_adjoints (CGraph_pullback g xbar_list).
Proof. unfold CGraph_pullback. frame. Qed.

(** ** Running a computation step by step *)

Lemma bind_ok {A B} (m : M A) (k : A → M B) s a s' :
  m s = (Ok a, s') → bind m k s = k a s'.
Proof. intros H. unfold bind. by rewrite H. Qed.

Lemma bind_raise {A B} (m : M A) (k : A → M B) s e s' :
  m s = (Raise e, s') → bind m k s = (Raise e, s').
Proof. intros H. unfold bind. by rewrite H. Qed.

Lemma bind_ok_inv {A B} (m : M A) (k : A → M B) s b s2 :
  bind m k s = (Ok b, s2) → ∃ a s1, m s = (Ok a, s1) ∧ k a s1 = (Ok b, s2).
Proof.
  unfold bind. destruct (m s) as [[a|e] s1]; [|discriminate].
  intros H. by exists a, s1.
Qed.

Lemma getattr_ok_inv {A} (proj : Function → option A) f s a s' :
  getattr proj f s = (Ok a, s') → proj (get_obj s f) = Some a ∧ s' = s.
Proof.
  unfold getattr. destruct (proj _); [|discriminate]. intros [= -> ->]. done.
Qed.

Lemma getattr_some {A} (proj : Function → option A) f s a :
  proj (get_obj s f) = Some a → getattr proj f s = (Ok a, s).
Proof. intros H. unfold getattr. by rewrite H. Qed.

Lemma list_getitem_ok_inv {A} (l : list A) n s a s' :
  list_getitem l n s = (Ok a, s') → l !! n = Some a ∧ s' = s.
Proof.
  unfold list_getitem. destruct (l !! n); [|discriminate]. intros [= -> ->]. done.
Qed.

Lemma lift_ok_inv {A} (res : result A) s a s' :
  lift res s = (Ok a, s') → res = Ok a ∧ s' = s.
Proof. unfold lift. intros [= -> ->]. done. Qed.

Lemma get_graph_some g G s : graphs s !! g = Some G → get_graph g s = (Ok G, s).
Proof. intros H. unfold get_graph. by rewrite H. Qed.

Lemma bind_assoc {A B C} (m : M A) (k : A → M B) (h : B → M C) s :
  bind (bind m k) h s = bind m (λ a, bind (k a) h) s.
Proof. unfold bind. by destruct (m s) as [[a|e] s1]. Qed.

Lemma bind_ext {A B} (m : M A) (k k' : A → M B) s :
  (∀ a s1, k a s1 = k' a s1) → bind m k s = bind m k' s.
Proof. intros H. unfold bind. by destruct (m s) as [[a|e] s1]. Qed.

Lemma for_enumerate_from_app {A} n (l1 l2 : list A) (body : nat → A → M unit) s :
  for_enumerate_from n (l1 ++ l2) body s =
  bind (for_enumerate_from n l1 body)
       (λ _, for_enumerate_from (n + length l1) l2 body) s.
Proof.
  revert n s. induction l1 as [|a l1 IH]; intros n s; simpl.
  - by rewrite Nat.add_0_r.
  - rewrite bind_assoc. apply bind_ext. intros _ s1.
    rewrite IH. by rewrite Nat.add_succ_comm.
Qed.

(** Inverts a successful run of [m >>= k] found in hypothesis [H]. *)
Ltac bind_inv H a s1 Hm :=
  apply bind_ok_inv in H; destruct H as (a & s1 & Hm & H).

(** The comprehension [[fa.x for fa in Fargs]] only reads. *)
Lemma list_comp_read_state {A} (proj : Function → option A) l s :
  (list_comp l (getattr proj) s).2 = s.
Proof.
  induction l as [|k l IH]; simpl; [done|].
  unfold bind at 1. unfold getattr at 1. destruct (proj _); [|done].
  unfold bind. destruct (list_comp l (getattr proj) s) as [[bs|e] s1]; simpl in *; done.
Qed.

Lemma list_comp_read_ok_inv {A} (proj : Function → option A) l s vs s' :
  list_comp l (getattr proj) s = (Ok vs, s') →
  s' = s ∧ Forall2 (λ k w, proj (get_obj s k) = Some w) l vs.
Proof.
  revert vs s'. induction l as [|k l IH]; simpl; intros vs s' H.
  - injection H as <- <-. by split.
  - bind_inv H b s1 Hb. apply getattr_ok_inv in Hb as [Hb ->].
    bind_inv H bs s2 Hbs. apply IH in Hbs as [-> Hall].
    injection H as <- <-. split; [done|]. by constructor.
Qed.

(** ** One step of the forward traversal *)

Lemma replay_node_ok_inv f s s' :
  replay_node f s = (Ok tt, s') →
  ∃ fn a fa vs out,
    func (get_obj s f) = Some fn ∧ args (get_obj s f) = Some a ∧
    funcargs (get_obj s f) = Some fa ∧
    Forall2 (λ k w, x (get_obj s k) = Some w) a vs ∧
    call fn (vs ++ fa) = Ok out ∧
    s' = (write_obj f (set_x out) s).
Proof.
  unfold replay_node, Function_push_forward. intros H.
  bind_inv H fn s1 Hfn. apply getattr_ok_inv in Hfn as [Hfn ->].
  bind_inv H a s1 Ha. apply getattr_ok_inv in Ha as [Ha ->].
  bind_inv H fa s1 Hfa. apply getattr_ok_inv in Hfa as [Hfa ->].
  bind_inv H r s1 Hr.
  bind_inv Hr vs s2 Hvs. apply list_comp_read_ok_inv in Hvs as [-> Hvs].
  bind_inv Hr out s2 Hout. apply lift_ok_inv in Hout as [Hout ->].
  bind_inv Hr u s2 Hu. injection Hr as <- <-. injection H as <-.
  exists fn, a, fa, vs, out. repeat split; try done.
  unfold update_obj in *. by injection Hu as <-.
Qed.

(** Whatever its outcome, the step writes at most the value of the node it
    replays, and only when that node has its arguments recorded. *)
Lemma replay_node_state f s :
  (replay_node f s).2 = s ∨
  ∃ out, is_Some (args (get_obj s f)) ∧ (replay_node f s).2 = (write_obj f (set_x out) s).
Proof.
  destruct (replay_node f s) as [res s'] eqn:H. simpl.
  unfold replay_node, Function_push_forward in H.
  unfold bind at 1 in H. unfold getattr at 1 in H.
  destruct (func _) as [fn|]; [|injection H as <- <-; by left].
  unfold bind at 1 in H. unfold getattr at 1 in H.
  destruct (args _) as [a|]; [|injection H as <- <-; by left].
  unfold bind at 1 in H. unfold getattr at 1 in H.
  destruct (funcargs _) as [fa|]; [|injection H as <- <-; by left].
  unfold bind at 1 in H. unfold bind at 1 in H.
  pose proof (list_comp_read_state x a s) as Hst.
  destruct (list_comp a (getattr x) s) as [[vs|e] s1]; simpl in Hst; subst s1;
    [|injection H as <- <-; by left].
  unfold bind at 1 in H. unfold lift in H.
  destruct (call fn (vs ++ fa)) as [out|e]; [|injection H as <- <-; by left].
  right. exists out. split; [by eexists|].
  unfold bind, ret in H. simpl in H. by injection H as <- <-.
Qed.

(** ** Forward consistency of the traversal *)

Lemma is_leaf_set_x s f r v :
  is_leaf (write_obj r (set_x v) s) f ↔ is_leaf s f.
Proof.
  unfold is_leaf. rewrite get_obj_update.
  destruct (decide (f = r)) as [->|]; done.
Qed.

Lemma args_set_x s f r v :
  args (get_obj (write_obj r (set_x v) s) f) = args (get_obj s f).
Proof. rewrite get_obj_update. by destruct (decide (f = r)) as [->|]. Qed.

(** Consistency at [f] only depends on [f] and on the values of its
    arguments. *)
Lemma forward_consistent_transfer s s' f :
  forward_consistent s f →
  get_obj s' f = get_obj s f →
  (∀ a k, args (get_obj s f) = Some a → k ∈ a → x (get_obj s' k) = x (get_obj s k)) →
  forward_consistent s' f.
Proof.
  intros (fn & a & fa & vs & v & Hfn & Ha & Hfa & Hvs & Hv & Hcall) Hf Hargs.
  exists fn, a, fa, vs, v. rewrite Hf. repeat split; try done.
  specialize (Hargs a). clear -Hvs Hargs Ha.
  assert (Hin : ∀ k, k ∈ a → x (get_obj s' k) = x (get_obj s k)) by eauto.
  clear Hargs Ha. induction Hvs as [|k w a vs Hk _ IH]; constructor.
  - rewrite Hin; [done|]. by left.
  - apply IH. intros k' Hk'. apply Hin. by right.
Qed.

Lemma traverse_consistent l : ∀ done s s',
  StronglySorted lt (done ++ l) →
  (∀ f a, f ∈ done ++ l → args (get_obj s f) = Some a →
     is_leaf s f ∨ Forall (λ k, k < f) a) →
  (∀ f, f ∈ done → forward_consistent s f) →
  for_each l replay_node s = (Ok tt, s') →
  ∀ f, f ∈ done ++ l → forward_consistent s' f.
Proof.
  induction l as [|f l IH]; intros done s s' Hsorted Hshape Hdone Hrun.
  - injection Hrun as <-. intros f. rewrite app_nil_r. apply Hdone.
  - simpl in Hrun. bind_inv Hrun u s1 Hf. destruct u.
    apply replay_node_ok_inv in Hf
      as (fn & a & fa & vs & out & Hfn & Ha & Hfa & Hvs & Hcall & ->).
    assert (Hlt : ∀ d, d ∈ done → d < f).
    { intros d Hd. eapply StronglySorted_app_1_elem_of; [exact Hsorted|done|by left]. }
    replace (done ++ f :: l) with ((done ++ [f]) ++ l) in * by by rewrite <- app_assoc.
    eapply (IH (done ++ [f])); [exact Hsorted| | |exact Hrun].
    + intros f' a' Hin Ha'. rewrite args_set_x in Ha'. rewrite is_leaf_set_x.
      by apply Hshape.
    + intros f' [Hin | ->%list_elem_of_singleton]%elem_of_app.
      * (* a node replayed earlier *)
        pose proof (Hlt _ Hin) as Hf'.
        apply (forward_consistent_transfer s); [by apply Hdone| |].
        { apply get_obj_update_ne. lia. }
        intros a' k Ha' Hk. apply get_obj_update_ne_x.
        destruct (Hshape f' a') as [(Hleaf & _) | Hsmall]; [set_solver|done| |].
        -- rewrite Ha' in Hleaf. injection Hleaf as ->.
           apply list_elem_of_singleton in Hk as ->. lia.
        -- rewrite Forall_forall in Hsmall. specialize (Hsmall _ Hk). lia.
      * (* the node just replayed *)
        destruct (Hshape f a) as [(Hleaf & Hid & Hnil) | Hsmall]; [set_solver|done| |].
        -- rewrite Ha in Hleaf. injection Hleaf as ->.
           rewrite Hfn in Hid. injection Hid as ->.
           rewrite Hfa in Hnil. injection Hnil as ->.
           apply Forall2_cons_inv_l in Hvs as (w & vs' & Hw & Hnil%Forall2_nil_inv_l & ->).
           subst vs'. simpl in Hcall. injection Hcall as ->.
           exists Function_Id, [f], [], [out], out.
           rewrite get_obj_update_eq. simpl. repeat split; try done.
           constructor; [|constructor]. simpl. by rewrite get_obj_update_eq.
        -- exists fn, a, fa, vs, out.
           rewrite get_obj_update_eq. simpl. repeat split; try done.
           clear -Hvs Hsmall. induction Hvs as [|k w a vs Hk _ IH]; constructor.
           ++ apply Forall_cons in Hsmall as [Hk' _]. simpl.
              rewrite get_obj_update_ne by lia. done.
           ++ apply IH. by apply Forall_cons in Hsmall as [_ ?].
Qed.

(** A replayed leaf keeps its value: [Id] gives it back. *)
Lemma replay_node_leaf_x f s s' r :
  replay_node f s = (Ok tt, s') → is_leaf s r →
  x (get_obj s' r) = x (get_obj s r).
Proof.
  intros Hrun (Ha & Hid & Hnil).
  apply replay_node_ok_inv in Hrun
    as (fn & a & fa & vs & out & Hfn & Ha' & Hfa & Hvs & Hcall & ->).
  destruct (decide (r = f)) as [->|Hne]; [|by rewrite get_obj_update_ne].
  rewrite get_obj_update_eq. simpl.
  rewrite Ha in Ha'. injection Ha' as <-.
  rewrite Hid in Hfn. injection Hfn as <-.
  rewrite Hnil in Hfa. injection Hfa as <-.
  apply Forall2_cons_inv_l in Hvs as (w & vs' & Hw & Hvs'%Forall2_nil_inv_l & ->).
  subst vs'. simpl in Hcall. injection Hcall as ->. done.
Qed.

Lemma traverse_leaf_x l : ∀ s s' r,
  for_each l replay_node s = (Ok tt, s') → is_leaf s r →
  x (get_obj s' r) = x (get_obj s r).
Proof.
  induction l as [|f l IH]; intros s s' r Hrun Hleaf.
  - by injection Hrun as <-.
  - simpl in Hrun. bind_inv Hrun u s1 Hf. destruct u.
    rewrite (IH s1 s' r Hrun).
    + by apply (replay_node_leaf_x f).
    + apply replay_node_ok_inv in Hf as (? & ? & ? & ? & out & _ & _ & _ & _ & _ & ->).
      by apply is_leaf_set_x.
Qed.

(** ** The input phase *)

Lemma assign_input_ok_inv x_list nf f s s' :
  assign_input x_list nf f s = (Ok tt, s') →
  ∃ v a a0, x_list !! nf = Some v ∧ args (get_obj s f) = Some a ∧
            a !! 0 = Some a0 ∧ s' = write_obj a0 (set_x v) s.
Proof.
  unfold assign_input. intros H.
  bind_inv H v s1 Hv. apply list_getitem_ok_inv in Hv as [Hv ->].
  bind_inv H a s1 Ha. apply getattr_ok_inv in Ha as [Ha ->].
  bind_inv H a0 s1 Ha0. apply list_getitem_ok_inv in Ha0 as [Ha0 ->].
  exists v, a, a0. repeat split; try done.
  unfold update_obj in H. by injection H as <-.
Qed.

Lemma assign_input_state x_list nf f s :
  (assign_input x_list nf f s).2 = s ∨
  ∃ v a a0, args (get_obj s f) = Some a ∧ a !! 0 = Some a0 ∧
            (assign_input x_list nf f s).2 = write_obj a0 (set_x v) s.
Proof.
  destruct (assign_input x_list nf f s) as [res s'] eqn:H. simpl.
  unfold assign_input in H.
  unfold bind at 1 in H. unfold list_getitem at 1 in H.
  destruct (x_list !! nf) as [v|]; [|injection H as <- <-; by left].
  unfold ret in H. unfold bind at 1 in H. unfold getattr at 1 in H.
  destruct (args _) as [a|]; [|injection H as <- <-; by left].
  unfold bind at 1 in H. unfold list_getitem at 1 in H.
  destruct (a !! 0) as [a0|] eqn:Ha0; [|injection H as <- <-; by left].
  right. exists v, a, a0. repeat split; try done.
  unfold ret, update_obj in H. by injection H as <- <-.
Qed.

(** On a leaf, [f.args[0].x = v] writes the leaf's own value. *)
Lemma assign_input_leaf x_list nf f s v :
  args (get_obj s f) = Some [f] → x_list !! nf = Some v →
  assign_input x_list nf f s = (Ok tt, write_obj f (set_x v) s).
Proof.
  intros Ha Hv. unfold assign_input.
  unfold bind at 1, list_getitem at 1. rewrite Hv. unfold ret at 1.
  erewrite bind_ok by (by apply getattr_some). done.
Qed.

Lemma inputs_leaves x_list l : ∀ n s s',
  NoDup l → (∀ f, f ∈ l → args (get_obj s f) = Some [f]) →
  for_enumerate_from n l (assign_input x_list) s = (Ok tt, s') →
  (∀ i f v, l !! i = Some f → x_list !! (n + i) = Some v →
            x (get_obj s' f) = Some v) ∧
  (∀ r, r ∉ l → get_obj s' r = get_obj s r).
Proof.
  induction l as [|f l IH]; intros n s s' Hnd Hleaves Hrun.
  - injection Hrun as <-. split; [|done]. intros i f v Hi. by rewrite lookup_nil in Hi.
  - simpl in Hrun. bind_inv Hrun u s1 Hf. destruct u.
    apply NoDup_cons in Hnd as [Hfl Hnd].
    pose proof (assign_input_ok_inv _ _ _ _ _ Hf) as (v0 & a & a0 & Hv0 & Ha & Ha0 & _).
    rewrite (assign_input_leaf x_list n f s v0) in Hf by first [apply Hleaves; by left | done].
    injection Hf as <-.
    destruct (IH (S n) (write_obj f (set_x v0) s) s' Hnd) as [Hvals Hframe]; [|exact Hrun|].
    { intros f' Hf'. rewrite args_set_x. apply Hleaves. by right. }
    split.
    + intros [|i] f' v Hi Hv; simpl in Hi.
      * injection Hi as <-. rewrite Hframe by done.
        rewrite get_obj_update_eq. simpl. rewrite Nat.add_0_r in Hv. congruence.
      * apply (Hvals i); [done|]. by rewrite Nat.add_succ_comm.
    + intros r Hr. apply not_elem_of_cons in Hr as [Hne Hr].
      rewrite Hframe by done. by apply get_obj_update_ne.
Qed.

(** ** Invariants along a computation *)

Lemma keeps_bind (P : state → Prop) {A B} (m : M A) (k : A → M B) :
  keeps P m → (∀ a, keeps P (k a)) → keeps P (bind m k).
Proof.
  intros Hm Hk s Hs. unfold bind. specialize (Hm s Hs).
  destruct (m s) as [[a|e] s1]; simpl in *; [by apply Hk | done].
Qed.

Lemma keeps_for_each (P : state → Prop) {A} (l : list A) body :
  (∀ a, keeps P (body a)) → keeps P (for_each l body).
Proof.
  intros Hb. induction l as [|a l IH]; simpl; [by intros s|].
  apply keeps_bind; [apply Hb | intros _; exact IH].
Qed.

Lemma keeps_for_enumerate_from (P : state → Prop) {A} n (l : list A) body :
  (∀ k a, keeps P (body k a)) → keeps P (for_enumerate_from n l body).
Proof.
  intros Hb. revert n. induction l as [|a l IH]; intros n; simpl; [by intros s|].
  apply keeps_bind; [apply Hb | intros _; apply IH].
Qed.

Lemma keeps_get_graph (P : state → Prop) g : keeps P (get_graph g).
Proof. intros s Hs. unfold get_graph. by destruct (_ !! _). Qed.

(** ** The shape of traced stores is kept by every call *)

Lemma structure_eq_inv (o o' : Function) :
  structure o' = structure o →
  args o' = args o ∧ func o' = func o ∧ ID o' = ID o ∧ funcargs o' = funcargs o.
Proof. unfold structure. intros [= -> -> -> ->]. done. Qed.

Lemma wf_ext s s' :
  wf s → same_structure s s' →
  (∀ r, is_Some (x (get_obj s r)) → is_Some (x (get_obj s' r))) →
  (∀ r, next_ref s ≤ r → x (get_obj s' r) = None) →
  wf s'.
Proof.
  intros [Hfresh Hargs Hcg Hgraph] (Hg & Hc & Hn & Hstr) Hx Hxfresh.
  assert (Hfield : ∀ r, args (get_obj s' r) = args (get_obj s r) ∧
                        func (get_obj s' r) = func (get_obj s r) ∧
                        ID (get_obj s' r) = ID (get_obj s r) ∧
                        funcargs (get_obj s' r) = funcargs (get_obj s r)).
  { intros r. apply structure_eq_inv, Hstr. }
  assert (Hleaf : ∀ r, is_leaf s r → is_leaf s' r).
  { intros r (? & ? & ?). unfold is_leaf. destruct (Hfield r) as (-> & -> & _ & ->). done. }
  constructor.
  - intros r Hr. rewrite Hn in Hr. destruct (Hfield r) as (-> & _).
    split; [by apply Hxfresh | by apply Hfresh].
  - intros r a Ha. destruct (Hfield r) as (Ha' & _). rewrite Ha' in Ha.
    destruct (Hargs r a Ha); [left; by apply Hleaf | by right].
  - intros g. rewrite Hc, Hg. apply Hcg.
  - intros g G. rewrite Hg. intros HG.
    destruct (Hgraph g G HG) as (Hcount & Hsorted & Hnodes).
    repeat split; try done; destruct (Hnodes i r H) as (? & ? & ? & ? & ?);
      destruct (Hfield r) as (? & ? & ? & ?); try congruence; by apply Hx.
Qed.

Lemma wf_allocated s r : wf s → is_Some (args (get_obj s r)) → r < next_ref s.
Proof.
  intros Hwf [a Ha]. destruct (decide (r < next_ref s)) as [|Hge]; [done|].
  destruct (wf_fresh s Hwf r) as [_ Hnone]; [lia|]. congruence.
Qed.

Lemma wf_set_x s r v : wf s → r < next_ref s → wf (write_obj r (set_x v) s).
Proof.
  intros Hwf Hr. apply (wf_ext s); [done| | |].
  - apply (same_structure_set_x r v s).
  - intros r' Hx. rewrite get_obj_update.
    destruct (decide (r' = r)); [by eexists | done].
  - intros r' Hr'. rewrite get_obj_update_ne by lia. by apply (wf_fresh s Hwf).
Qed.

Lemma wf_same_up_to_adjoints s s' : wf s → same_up_to_adjoints s s' → wf s'.
Proof.
  intros Hwf [Hstr Hx]. apply (wf_ext s); [done|done| |].
  - intros r. by rewrite Hx.
  - intros r Hr. rewrite Hx. by apply (wf_fresh s Hwf).
Qed.

Lemma replay_node_wf f : keeps wf (replay_node f).
Proof.
  intros s Hwf. destruct (replay_node_state f s) as [-> | (out & Hargs & ->)]; [done|].
  apply wf_set_x; [done|]. by apply wf_allocated.
Qed.

Lemma assign_input_wf x_list nf f : keeps wf (assign_input x_list nf f).
Proof.
  intros s Hwf.
  destruct (assign_input_state x_list nf f s) as [-> | (v & a & a0 & Ha & Ha0 & ->)]; [done|].
  apply wf_set_x; [done|].
  assert (f < next_ref s) by (apply wf_allocated; [done | by eexists]).
  destruct (wf_args s Hwf f a Ha) as [(Hleaf & _) | Hsmall].
  - rewrite Ha in Hleaf. injection Hleaf as ->. by injection Ha0 as <-.
  - rewrite Forall_forall in Hsmall. apply list_elem_of_lookup_2 in Ha0.
    specialize (Hsmall _ Ha0). lia.
Qed.

Lemma CGraph_push_forward_wf g x_list : keeps wf (CGraph_push_forward g x_list).
Proof.
  unfold CGraph_push_forward, push_forward_inputs, push_forward_traverse, for_enumerate.
  apply keeps_bind; [|intros _].
  - apply keeps_bind; [apply keeps_get_graph | intros G].
    apply keeps_for_enumerate_from. intros. apply assign_input_wf.
  - apply keeps_bind; [apply keeps_get_graph | intros G].
    apply keeps_for_each. intros. apply replay_node_wf.
Qed.

Lemma CGraph_pullback_wf g xbar_list : keeps wf (CGraph_pullback g xbar_list).
Proof.
  intros s Hwf. apply (wf_same_up_to_adjoints s); [done|].
  apply CGraph_pullback_frame.
Qed.

(** ** Recording a node *)

(** Unfolds the monad and the store primitives. *)
Ltac run :=
  repeat (unfold bind, ret, raise, lift, update_obj, write_obj, get_cgraph, get_graph,
            put_graph, set_cgraph, allocate, get_obj; simpl).

Lemma Function_create_bound s xv fargs fn f fa g G :
  cgraph s = Some g → graphs s !! g = Some G →
  Function_create xv fargs fn (Some f) fa s =
  (Ok f,
   mkState
     (<[f := mkFunction (Some xv) (Some fargs) (Some fn)
                        (Some (Some (functionCount G))) (Some fa) (xbar (get_obj s f))]>
        (heap s))
     (<[g := mkCGraph (functionCount G + 1) (functionList G ++ [f])
                      (dependentFunctionList G) (independentFunctionList G)]>
        (graphs s))
     (Some g) (next_ref s)).
Proof.
  intros Hc HG. unfold Function_create, Function_get_ID, CGraph_append.
  repeat first [ rewrite Hc | rewrite HG | rewrite lookup_insert_eq
               | rewrite insert_insert_eq | progress run ].
  done.
Qed.

Lemma Function_create_unbound s xv fargs fn f fa :
  cgraph s = None →
  Function_create xv fargs fn (Some f) fa s =
  (Raise AttributeError,
   mkState
     (<[f := mkFunction (Some xv) (Some fargs) (Some fn) (Some None) (Some fa)
                        (xbar (get_obj s f))]>
        (heap s))
     (graphs s) None (next_ref s)).
Proof.
  intros Hc. unfold Function_create, Function_get_ID.
  repeat first [ rewrite Hc | rewrite lookup_insert_eq
               | rewrite insert_insert_eq | progress run ].
  done.
Qed.

Lemma wf_allocate s : wf s → wf (allocate s).2.
Proof.
  intros [Hfresh Hargs Hcg Hgraph]. constructor; simpl; try done.
  intros r Hr. apply Hfresh. lia.
Qed.

(** Members of a node list are allocated and recorded. *)
Lemma wf_member s g G r :
  wf s → graphs s !! g = Some G → r ∈ functionList G →
  r < next_ref s ∧ is_Some (args (get_obj s r)).
Proof.
  intros Hwf HG [i Hi]%list_elem_of_lookup_1.
  destruct (wf_graph s Hwf g G HG) as (_ & _ & Hnodes).
  destruct (Hnodes i r Hi) as (_ & _ & Ha & _). split; [by apply wf_allocated | done].
Qed.

Section Created.
Variables (s : state) (f : nat) (node : Function).
Hypothesis Hwf : wf s.
Hypothesis Hlast : next_ref s = S f.
Hypothesis Hnew : args (get_obj s f) = None.
Hypothesis Hshape :
  ∃ a, args node = Some a ∧
       ((a = [f] ∧ func node = Some Function_Id ∧ funcargs node = Some []) ∨
        Forall (λ k, k < f) a).
Hypothesis Hset : is_Some (x node) ∧ is_Some (func node) ∧ is_Some (funcargs node).

Lemma created_get_ne gs c r :
  r ≠ f → get_obj (mkState (<[f := node]> (heap s)) gs c (next_ref s)) r = get_obj s r.
Proof. intros Hne. unfold get_obj; simpl. by rewrite lookup_insert_ne. Qed.

Lemma created_get_eq gs c :
  get_obj (mkState (<[f := node]> (heap s)) gs c (next_ref s)) f = node.
Proof. unfold get_obj; simpl. by rewrite lookup_insert_eq. Qed.

Lemma created_member_ne g G r :
  graphs s !! g = Some G → r ∈ functionList G → r < f.
Proof.
  intros HG Hr. destruct (wf_member s g G r Hwf HG Hr) as [Hlt [a Ha]].
  assert (r ≠ f) by (intros ->; congruence). lia.
Qed.

Lemma created_fresh gs c r :
  next_ref s ≤ r →
  x (get_obj (mkState (<[f := node]> (heap s)) gs c (next_ref s)) r) = None ∧
  args (get_obj (mkState (<[f := node]> (heap s)) gs c (next_ref s)) r) = None.
Proof. intros Hr. rewrite created_get_ne by lia. by apply (wf_fresh s Hwf). Qed.

Lemma created_args gs c r a :
  let s' := mkState (<[f := node]> (heap s)) gs c (next_ref s) in
  args (get_obj s' r) = Some a → is_leaf s' r ∨ Forall (λ k, k < r) a.
Proof.
  intros s'. unfold is_leaf. subst s'. destruct (decide (r = f)) as [->|Hne].
  - rewrite created_get_eq. intros Ha.
    destruct Hshape as (a' & Ha' & [(-> & Hid & Hnil) | Hsmall]).
    + left. by rewrite Ha'.
    + right. congruence.
  - rewrite created_get_ne by done. intros Ha. by apply (wf_args s Hwf).
Qed.

Lemma created_old_graph gs c g G :
  graphs s !! g = Some G →
  functionCount G = length (functionList G) ∧
  StronglySorted lt (functionList G) ∧
  ∀ i r, functionList G !! i = Some r →
    let o := get_obj (mkState (<[f := node]> (heap s)) gs c (next_ref s)) r in
    ID o = Some (Some i) ∧ is_Some (x o) ∧ is_Some (args o) ∧ is_Some (func o) ∧
    is_Some (funcargs o).
Proof.
  intros HG. destruct (wf_graph s Hwf g G HG) as (Hcount & Hsorted & Hnodes).
  split; [done|]. split; [done|]. intros i r Hi. simpl.
  rewrite created_get_ne
    by (apply Nat.lt_neq, (created_member_ne g G); [done | by eapply list_elem_of_lookup_2]).
  by apply Hnodes.
Qed.

(** The node is recorded while no graph is bound: it joins no node list. *)
Lemma wf_created_unbound :
  cgraph s = None →
  wf (mkState (<[f := node]> (heap s)) (graphs s) None (next_ref s)).
Proof.
  intros Hc. constructor.
  - apply created_fresh.
  - apply created_args.
  - done.
  - intros g G HG. simpl in HG. by apply (created_old_graph _ _ g G).
Qed.

(** The node is recorded in the bound graph [g] and appended to its list. *)
Lemma wf_created_bound g G :
  cgraph s = Some g → graphs s !! g = Some G →
  ID node = Some (Some (functionCount G)) →
  wf (mkState (<[f := node]> (heap s))
        (<[g := mkCGraph (functionCount G + 1) (functionList G ++ [f])
                         (dependentFunctionList G) (independentFunctionList G)]>
           (graphs s))
        (Some g) (next_ref s)).
Proof.
  intros Hc HG HID. constructor.
  - apply created_fresh.
  - apply created_args.
  - simpl. intros g' [= <-]. rewrite lookup_insert_eq. by eexists.
  - intros g' G'. simpl. destruct (decide (g' = g)) as [->|Hne].
    + rewrite lookup_insert_eq. intros [= <-]. simpl.
      destruct (created_old_graph (graphs s) None g G HG) as (Hcount & Hsorted & Hnodes).
      split; [rewrite length_app; simpl; lia|]. split.
      * apply StronglySorted_app_2; [|done|repeat constructor].
        intros x1 x2 Hx1 ->%list_elem_of_singleton. by apply (created_member_ne g G).
      * intros i r [Hi | [Hlen Hi]]%lookup_app_Some.
        -- rewrite created_get_ne
             by (apply Nat.lt_neq, (created_member_ne g G); [done | by eapply list_elem_of_lookup_2]).
           destruct (wf_graph s Hwf g G HG) as (_ & _ & Hn). by apply Hn.
        -- apply list_lookup_singleton_Some in Hi as [Hi <-].
           rewrite created_get_eq. destruct Hshape as (a & Ha & _).
           destruct Hset as (? & ? & ?). rewrite Ha.
           repeat split; try done.
           rewrite HID. do 2 f_equal. lia.
    + rewrite lookup_insert_ne by done. intros HG'. by apply (created_old_graph _ _ g' G').
Qed.

End Created.

(** A change of the graph table that leaves every node list as it was, or
    adds an empty graph. *)
Lemma wf_graphs_ext s s' :
  wf s → heap s' = heap s → next_ref s ≤ next_ref s' →
  (∀ g, cgraph s' = Some g → is_Some (graphs s' !! g)) →
  (∀ g G, graphs s' !! g = Some G →
     (functionCount G = 0 ∧ functionList G = []) ∨
     ∃ G0, graphs s !! g = Some G0 ∧ functionCount G = functionCount G0 ∧
           functionList G = functionList G0) →
  wf s'.
Proof.
  intros [Hfresh Hargs Hcg Hgraph] Hheap Hnext Hcg' Hgraphs.
  assert (Hget : ∀ r, get_obj s' r = get_obj s r).
  { intros r. unfold get_obj. by rewrite Hheap. }
  constructor.
  - intros r Hr. rewrite Hget. apply Hfresh. lia.
  - intros r a. unfold is_leaf. rewrite Hget. apply Hargs.
  - done.
  - intros g G HG. destruct (Hgraphs g G HG) as [[-> ->] | (G0 & HG0 & -> & ->)].
    + split; [done|]. split; [constructor|]. intros i r Hi. by rewrite lookup_nil in Hi.
    + destruct (Hgraph g G0 HG0) as (? & ? & Hnodes).
      split; [done|]. split; [done|]. intros i r Hi. rewrite Hget. by apply Hnodes.
Qed.

Lemma CGraph_init_wf : keeps wf CGraph_init.
Proof.
  intros s Hwf. apply (wf_graphs_ext s); simpl; [done|done|lia| |].
  - intros g [= <-]. rewrite lookup_insert_eq. by eexists.
  - intros g G. destruct (decide (g = next_ref s)) as [->|Hne].
    + rewrite lookup_insert_eq. intros [= <-]. by left.
    + rewrite lookup_insert_ne by done. intros HG. right. by exists G.
Qed.

Lemma set_independent_wf g l : keeps wf (set_independent g l).
Proof.
  intros s Hwf. unfold set_independent, bind, get_graph.
  destruct (graphs s !! g) as [G|] eqn:HG; [|done].
  apply (wf_graphs_ext s); simpl; [done|done|lia| |].
  - intros g' Hg'. destruct (decide (g' = g)) as [->|Hne].
    + rewrite lookup_insert_eq. by eexists.
    + rewrite lookup_insert_ne by done. by apply (wf_cgraph s Hwf).
  - intros g' G'. destruct (decide (g' = g)) as [->|Hne].
    + rewrite lookup_insert_eq. intros [= <-]. right. by exists G.
    + rewrite lookup_insert_ne by done. intros HG'. right. by exists G'.
Qed.

Lemma set_dependent_wf g l : keeps wf (set_dependent g l).
Proof.
  intros s Hwf. unfold set_dependent, bind, get_graph.
  destruct (graphs s !! g) as [G|] eqn:HG; [|done].
  apply (wf_graphs_ext s); simpl; [done|done|lia| |].
  - intros g' Hg'. destruct (decide (g' = g)) as [->|Hne].
    + rewrite lookup_insert_eq. by eexists.
    + rewrite lookup_insert_ne by done. by apply (wf_cgraph s Hwf).
  - intros g' G'. destruct (decide (g' = g)) as [->|Hne].
    + rewrite lookup_insert_eq. intros [= <-]. right. by exists G.
    + rewrite lookup_insert_ne by done. intros HG'. right. by exists G'.
Qed.

(** Recording the node allocated last keeps the shape of the store. *)
Lemma Function_create_wf s f xv fargs fn fa :
  wf s → next_ref s = S f → args (get_obj s f) = None →
  (fargs = [f] ∧ fn = Function_Id ∧ fa = []) ∨ Forall (λ k, k < f) fargs →
  wf (Function_create xv fargs fn (Some f) fa s).2.
Proof.
  intros Hwf Hlast Hnew Hshape.
  assert (Hnode : ∀ i, ∃ a,
    args (mkFunction (Some xv) (Some fargs) (Some fn) i (Some fa) (xbar (get_obj s f))) = Some a ∧
    ((a = [f] ∧ Some fn = Some Function_Id ∧ Some fa = Some []) ∨ Forall (λ k, k < f) a)).
  { intros i. exists fargs. split; [done|].
    destruct Hshape as [(-> & -> & ->) | ?]; [by left | by right]. }
  destruct (cgraph s) as [g|] eqn:Hc.
  - destruct (wf_cgraph s Hwf g Hc) as [G HG].
    rewrite (Function_create_bound s xv fargs fn f fa g G Hc HG). simpl.
    apply wf_created_bound; done.
  - rewrite (Function_create_unbound s xv fargs fn f fa Hc). simpl.
    apply wf_created_unbound; done.
Qed.

Lemma Function_init_recorded xv :
  xv ≠ VNone →
  Function_init xv =
  bind allocate (λ self,
    bind (Function_create xv [self] Function_Id (Some self) []) (λ _, ret self)).
Proof. intros Hxv. unfold Function_init. by destruct xv. Qed.

Lemma bind_ret_state {A B} (m : M A) (b : B) s :
  (bind m (λ _, ret b) s).2 = (m s).2.
Proof. unfold bind. by destruct (m s) as [[a|e] s1]. Qed.

Lemma Function_init_wf xv : keeps wf (Function_init xv).
Proof.
  intros s Hwf.
  assert (xv = VNone ∨ xv ≠ VNone) as [->|Hxv] by (destruct xv; auto).
  - by apply wf_allocate.
  - rewrite Function_init_recorded by done. unfold bind at 1. simpl.
    rewrite bind_ret_state. apply Function_create_wf.
    + by apply wf_allocate.
    + done.
    + by apply (wf_fresh s Hwf).
    + by left.
Qed.

Lemma Function_create_fresh s xv fargs fn fa :
  Function_create xv fargs fn None fa s =
  Function_create xv fargs fn (Some (next_ref s)) fa (allocate s).2.
Proof. done. Qed.

Lemma Function_push_forward_record_wf fn Fargs fa :
  keeps wf (Function_push_forward fn Fargs None fa).
Proof.
  intros s Hwf. unfold Function_push_forward.
  unfold bind at 1.
  destruct (list_comp Fargs (getattr x) s) as [[vs|e] s1] eqn:Hvs.
  - apply list_comp_read_ok_inv in Hvs as [-> Hvs].
    unfold bind at 1, lift. destruct (call fn (vs ++ fa)) as [out|e]; [|done].
    rewrite Function_create_fresh. apply Function_create_wf.
    + by apply wf_allocate.
    + done.
    + by apply (wf_fresh s Hwf).
    + right. clear -Hvs Hwf. induction Hvs as [|k w l vs Hk _ IH]; constructor; [|done].
      destruct (decide (k < next_ref s)) as [|Hge]; [done|].
      destruct (wf_fresh s Hwf k) as [Hnone _]; [lia|]. congruence.
  - pose proof (list_comp_read_state x Fargs s) as Hst. rewrite Hvs in Hst.
    simpl in *. by subst.
Qed.

Lemma wf_init_state : wf init_state.
Proof.
  constructor; done.
Qed.

Lemma run_call_wf c s : wf s → wf (run_call c s).
Proof.
  intros Hwf. destruct c; simpl.
  - by apply CGraph_init_wf.
  - by apply Function_init_wf.
  - by apply Function_push_forward_record_wf.
  - by apply set_independent_wf.
  - by apply set_dependent_wf.
  - by apply CGraph_push_forward_wf.
  - by apply CGraph_pullback_wf.
Qed.

Lemma run_calls_wf cs : ∀ s, wf s → wf (run_calls cs s).
Proof.
  induction cs as [|c cs IH]; intros s Hwf; [done|].
  apply IH. by apply run_call_wf.
Qed.

Lemma traced_wf s : traced s → wf s.
Proof. intros [cs ->]. apply run_calls_wf, wf_init_state. Qed.

(** ** Forward replay *)

Lemma is_leaf_same_structure s s' f : same_structure s s' → is_leaf s f → is_leaf s' f.
Proof.
  intros (_ & _ & _ & Hstr) (Ha & Hid & Hnil). unfold is_leaf.
  destruct (structure_eq_inv _ _ (Hstr f)) as (-> & -> & _ & ->). done.
Qed.

Lemma push_forward_inputs_ok_inv g G x_list s s' :
  graphs s !! g = Some G →
  push_forward_inputs g x_list s = (Ok tt, s') →
  for_enumerate_from 0 (independentFunctionList G) (assign_input x_list) s = (Ok tt, s').
Proof.
  intros HG. unfold push_forward_inputs, for_enumerate.
  by rewrite (bind_ok _ _ _ _ _ (get_graph_some g G s HG)).
Qed.

Lemma push_forward_traverse_ok_inv g G s s' :
  graphs s !! g = Some G →
  push_forward_traverse g s = (Ok tt, s') →
  for_each (functionList G) replay_node s = (Ok tt, s').
Proof.
  intros HG. unfold push_forward_traverse.
  by rewrite (bind_ok _ _ _ _ _ (get_graph_some g G s HG)).
Qed.


(** Frame of the replays over the stores of this model, in which the
    [args] of a node is a tuple of nodes: whatever their outcome,
    [CGraph.push_forward] and [CGraph.pullback] leave every graph object
    (its node list, in length, order and members, its count, its
    independent and dependent lists) and every node's [func], [args],
    [funcargs] and [ID] as they were; [pullback] moreover leaves every
    value [x].  The stores in which the [args] of a node may be a node are
    those of [AnyArgs]. *)
Lemma replay_keeps_structure s g x_list xbar_list :
  let unchanged s' :=
    graphs s' = graphs s ∧ cgraph s' = cgraph s ∧ next_ref s' = next_ref s ∧
    ∀ r, func (get_obj s' r) = func (get_obj s r) ∧
         args (get_obj s' r) = args (get_obj s r) ∧
         funcargs (get_obj s' r) = funcargs (get_obj s r) ∧
         ID (get_obj s' r) = ID (get_obj s r) in
  unchanged (CGraph_push_forward g x_list s).2 ∧
  unchanged (CGraph_pullback g xbar_list s).2 ∧
  ∀ r, x (get_obj (CGraph_pullback g xbar_list s).2 r) = x (get_obj s r).
Proof.
  intros unchanged.
  assert (Hun : ∀ s', same_structure s s' → unchanged s').
  { intros s' (Hg & Hc & Hn & Hstr). repeat split; try done;
      destruct (structure_eq_inv _ _ (Hstr r)) as (? & ? & ? & ?); done. }
  destruct (CGraph_pullback_frame g xbar_list s) as [Hstr Hx].
  split; [|split]; [apply Hun, CGraph_push_forward_frame | by apply Hun | done].
Qed.

(** ** Reverse replay *)

(** C3. With no dependent node declared, [CGraph.pullback] raises
    [Exception] at once: the store, adjoints included, is untouched. *)
Theorem pullback_without_dependents s g G xbar_list :
  graphs s !! g = Some G → dependentFunctionList G = [] →
  CGraph_pullback g xbar_list s = (Raise (PyException no_dependent_msg), s).
Proof.
  intros HG Hdep. unfold CGraph_pullback.
  rewrite (bind_ok _ _ _ _ _ (get_graph_some g G s HG)). by rewrite Hdep.
Qed.

(** *** Zero initialisation of the adjoints *)

Lemma zeros_like_each_ok_inv (vs zs : list value) :
  zeros_like_each vs = Ok zs →
  ∃ os, vs = VObj <$> os ∧ zs = (λ o, VObj (zeros_like o)) <$> os.
Proof.
  revert zs. induction vs as [|v vs IH]; simpl; intros zs H.
  - injection H as <-. by exists [].
  - destruct v as [| | | |o|]; simpl in H; try discriminate.
    destruct (zeros_like_each vs) as [zs'|e]; [|discriminate].
    injection H as <-. destruct (IH zs' eq_refl) as (os & -> & ->).
    by exists (o :: os).
Qed.

Lemma zeros_like_each_objs (os : list obj) :
  zeros_like_each (VObj <$> os) = Ok ((λ o, VObj (zeros_like o)) <$> os).
Proof.
  induction os as [|o os IH]; [done|].
  rewrite !fmap_cons. cbn [zeros_like_each call_zeros_like]. by rewrite IH.
Qed.

Lemma xbar_from_x_ok_inv f s s' :
  Function_xbar_from_x f s = (Ok tt, s') →
  ∃ v z, x (get_obj s f) = Some v ∧ additive_identity_of v z ∧
         s' = write_obj f (set_xbar z) s.
Proof.
  unfold Function_xbar_from_x. intros H.
  bind_inv H v s1 Hv. apply getattr_ok_inv in Hv as [Hv ->]. exists v.
  destruct v as [|n|q|vs|o|]; simpl in H.
  - bind_inv H z s1 Hz. by apply lift_ok_inv in Hz as [? _].
  - exists (VFloat float_zero). repeat split; try done. by injection H as <-.
  - exists (VFloat float_zero). repeat split; try done. by injection H as <-.
  - bind_inv H zs s1 Hz. apply lift_ok_inv in Hz as [Hz ->].
    apply zeros_like_each_ok_inv in Hz as (os & -> & ->).
    eexists. split; [done|]. split; [by exists os|]. by injection H as <-.
  - bind_inv H z s1 Hz. apply lift_ok_inv in Hz as [[= <-] ->].
    eexists. repeat split; try done. by injection H as <-.
  - bind_inv H z s1 Hz. by apply lift_ok_inv in Hz as [? _].
Qed.

Lemma xbar_from_x_ok f s v :
  x (get_obj s f) = Some v → has_additive_identity v →
  ∃ z, Function_xbar_from_x f s = (Ok tt, write_obj f (set_xbar z) s).
Proof.
  intros Hv Hz. unfold Function_xbar_from_x.
  rewrite (bind_ok _ _ _ _ _ (getattr_some x f s v Hv)).
  destruct v as [|n|q|vs|o|]; simpl in *; try done; try by eexists.
  destruct Hz as [os ->]. unfold bind, lift. rewrite zeros_like_each_objs. by eexists.
Qed.

Lemma zero_init_ok_inv l : ∀ s s1,
  for_each l Function_xbar_from_x s = (Ok tt, s1) →
  (∀ f, f ∈ l → ∃ v, x (get_obj s f) = Some v ∧
                     additive_identity_of v (xbar (get_obj s1 f))) ∧
  (∀ r, r ∉ l → get_obj s1 r = get_obj s r).
Proof.
  induction l as [|f l IH]; intros s s1 Hrun.
  - injection Hrun as <-. split; [by intros f ?%elem_of_nil | done].
  - simpl in Hrun. bind_inv Hrun u s2 Hf. destruct u.
    apply xbar_from_x_ok_inv in Hf as (v & z & Hv & Hz & ->).
    destruct (IH _ _ Hrun) as [Hin Hout].
    assert (Hx : ∀ r, x (get_obj (write_obj f (set_xbar z) s) r) = x (get_obj s r)).
    { intros r. rewrite get_obj_update. by destruct (decide (r = f)) as [->|]. }
    split.
    + intros f' Hf'. destruct (decide (f' ∈ l)) as [Hl|Hl].
      * destruct (Hin f' Hl) as (v' & Hv' & Hz'). rewrite Hx in Hv'. by exists v'.
      * apply elem_of_cons in Hf' as [->|?]; [|done].
        exists v. split; [done|]. rewrite Hout by done. by rewrite get_obj_update_eq.
    + intros r [Hne Hr]%not_elem_of_cons. rewrite Hout by done.
      by apply get_obj_update_ne.
Qed.

Lemma zero_init_ok l : ∀ s,
  (∀ f, f ∈ l → ∃ v, x (get_obj s f) = Some v ∧ has_additive_identity v) →
  ∃ s1, for_each l Function_xbar_from_x s = (Ok tt, s1).
Proof.
  induction l as [|f l IH]; intros s Hall; [by eexists|].
  destruct (Hall f) as (v & Hv & Hz); [by left|].
  destruct (xbar_from_x_ok f s v Hv Hz) as [z Hf].
  destruct (IH (write_obj f (set_xbar z) s)) as [s1 Hrun].
  - intros f' Hf'. destruct (Hall f') as (v' & Hv' & Hz'); [by right|].
    exists v'. split; [|done]. rewrite get_obj_update.
    by destruct (decide (f' = f)) as [->|].
  - exists s1. simpl. by rewrite (bind_ok _ _ _ _ _ Hf).
Qed.

Lemma CGraph_pullback_unfold s g G xbar_list :
  graphs s !! g = Some G → dependentFunctionList G ≠ [] →
  CGraph_pullback g xbar_list s =
  bind (pullback_zero_init g)
    (λ _, bind (pullback_seed g xbar_list) (λ _, pullback_propagate g)) s.
Proof.
  intros HG Hdep. unfold CGraph_pullback.
  rewrite (bind_ok _ _ _ _ _ (get_graph_some g G s HG)).
  by destruct (dependentFunctionList G).
Qed.

Lemma pullback_zero_init_unfold s g G :
  graphs s !! g = Some G →
  pullback_zero_init g s = for_each (functionList G) Function_xbar_from_x s.
Proof.
  intros HG. unfold pullback_zero_init.
  by rewrite (bind_ok _ _ _ _ _ (get_graph_some g G s HG)).
Qed.

(** C5. Zero initialisation: with a dependent node declared, [CGraph.pullback]
    first runs [xbar_from_x] over the node list.  When that pass returns,
    seeding starts from its result, in which every node of the graph has
    kept its value and holds as adjoint the additive identity shaped like
    it: [0.] for a scalar, the tuple of [zeros_like()] elements for a tuple,
    [zeros_like()] otherwise.  The pass returns whenever every node's
    value is a scalar, an instance of the algebra or a tuple of instances;
    when it raises, [pullback] raises the same exception there. *)
Theorem pullback_zero_initialisation s g G xbar_list :
  graphs s !! g = Some G → dependentFunctionList G ≠ [] →
  (∀ s1, pullback_zero_init g s = (Ok tt, s1) →
     CGraph_pullback g xbar_list s =
       bind (pullback_seed g xbar_list) (λ _, pullback_propagate g) s1 ∧
     ∀ f, f ∈ functionList G →
       ∃ v, x (get_obj s f) = Some v ∧ x (get_obj s1 f) = Some v ∧
            match v with
            | VInt _ | VFloat _ => xbar (get_obj s1 f) = VFloat float_zero
            | VTuple vs =>
                ∃ os, vs = VObj <$> os ∧
                      xbar (get_obj s1 f) = VTuple ((λ o, VObj (zeros_like o)) <$> os)
            | VObj o => xbar (get_obj s1 f) = VObj (zeros_like o)
            | VNone | VNotSet => False
            end) ∧
  ((∀ f, f ∈ functionList G →
      ∃ v, x (get_obj s f) = Some v ∧
           match v with
           | VInt _ | VFloat _ | VObj _ => True
           | VTuple vs => ∃ os, vs = VObj <$> os
           | VNone | VNotSet => False
           end) →
   ∃ s1, pullback_zero_init g s = (Ok tt, s1)) ∧
  (∀ e s1, pullback_zero_init g s = (Raise e, s1) →
     CGraph_pullback g xbar_list s = (Raise e, s1)).
Proof.
  intros HG Hdep. rewrite (CGraph_pullback_unfold s g G xbar_list HG Hdep).
  split; [|split].
  - intros s1 Hinit. split; [by rewrite (bind_ok _ _ _ _ _ Hinit)|].
    intros f Hf.
    pose proof (pullback_zero_init_frame g s) as [_ Hx]. rewrite Hinit in Hx. simpl in Hx.
    rewrite (pullback_zero_init_unfold s g G HG) in Hinit.
    destruct (zero_init_ok_inv _ _ _ Hinit) as [Hin _].
    destruct (Hin f Hf) as (v & Hv & Hz). exists v. rewrite Hx. by repeat split.
  - intros Hall. rewrite (pullback_zero_init_unfold s g G HG). by apply zero_init_ok.
  - intros e s1 Hinit. by rewrite (bind_raise _ _ _ _ _ Hinit).
Qed.

(** *** Seeding the outputs *)

Lemma seed_output_cases xbar_list n f s :
  (∃ e, seed_output xbar_list n f s = (Raise e, s)) ∨
  (∃ o o', xbar (get_obj s f) = VObj o ∧
           seed_output xbar_list n f s = (Ok tt, write_obj f (set_xbar (VObj o')) s)).
Proof.
  destruct (seed_output xbar_list n f s) as [res s'] eqn:H.
  unfold seed_output in H.
  unfold bind at 1, list_getitem in H.
  destruct (xbar_list !! n) as [w|]; [|left; eexists; by rewrite <- H].
  unfold ret at 1, bind at 1, getattr_xbar, bind at 1, lift, setitem_ellipsis in H.
  destruct (xbar (get_obj s f)) as [| | | |o|]; try (left; eexists; by rewrite <- H).
  destruct (obj_setitem o w) as [o'|e]; [|left; eexists; by rewrite <- H].
  right. exists o, o'. split; [done|]. by rewrite <- H.
Qed.

Lemma seed_output_not_obj xbar_list n f s w :
  xbar_list !! n = Some w → (∀ o, xbar (get_obj s f) ≠ VObj o) →
  seed_output xbar_list n f s = (Raise TypeError, s).
Proof.
  intros Hw Hxb. unfold seed_output, bind at 1, list_getitem. rewrite Hw.
  unfold ret at 1, bind at 1, getattr_xbar, bind, lift, setitem_ellipsis.
  destruct (xbar (get_obj s f)) as [| | | |o|]; try done. by destruct (Hxb o).
Qed.

(** Seeding cannot get past a dependent node whose adjoint is not an
    instance of the algebra. *)
Lemma seed_fails xbar_list deps : ∀ n s d,
  d ∈ deps → (∀ o, xbar (get_obj s d) ≠ VObj o) →
  ∃ e s', for_enumerate_from n deps (seed_output xbar_list) s = (Raise e, s').
Proof.
  induction deps as [|f deps IH]; intros n s d Hd Hxb; [by apply elem_of_nil in Hd|].
  simpl. destruct (seed_output_cases xbar_list n f s) as [[e He] | (o & o' & Ho & Hok)].
  - exists e, s. by rewrite (bind_raise _ _ _ _ _ He).
  - rewrite (bind_ok _ _ _ _ _ Hok).
    assert (d ≠ f) by (intros ->; by destruct (Hxb o)).
    apply elem_of_cons in Hd as [?|Hd]; [done|].
    apply (IH _ _ d); [done|].
    intros o0. rewrite get_obj_update_ne by done. apply Hxb.
Qed.

Lemma pullback_seed_unfold s g G xbar_list :
  graphs s !! g = Some G →
  pullback_seed g xbar_list s =
  for_enumerate_from 0 (dependentFunctionList G) (seed_output xbar_list) s.
Proof.
  intros HG. unfold pullback_seed, for_enumerate.
  by rewrite (bind_ok _ _ _ _ _ (get_graph_some g G s HG)).
Qed.

(** Seeding that got through did not meet an adjoint that is not an
    instance, and leaves such adjoints as they are. *)
Lemma seed_keeps_not_obj xbar_list l : ∀ n s s' d,
  for_enumerate_from n l (seed_output xbar_list) s = (Ok tt, s') →
  (∀ o, xbar (get_obj s d) ≠ VObj o) →
  ∀ o, xbar (get_obj s' d) ≠ VObj o.
Proof.
  induction l as [|f l IH]; intros n s s' d Hrun Hxb.
  - by injection Hrun as <-.
  - simpl in Hrun. bind_inv Hrun u s1 Hf. destruct u.
    destruct (seed_output_cases xbar_list n f s) as [[e He] | (o1 & o' & Ho & Hok)];
      [congruence|].
    rewrite Hok in Hf. injection Hf as <-.
    apply (IH _ _ _ d Hrun).
    assert (d ≠ f) by (intros ->; by destruct (Hxb o1)).
    intros o0. rewrite get_obj_update_ne by done. apply Hxb.
Qed.


(** ** Count of the input values *)

Lemma assign_input_take x_list m nf f s :
  nf < m → assign_input (take m x_list) nf f s = assign_input x_list nf f s.
Proof.
  intros Hlt. unfold assign_input, bind, list_getitem.
  by rewrite lookup_take_lt.
Qed.

Lemma inputs_take x_list m l : ∀ n s,
  n + length l ≤ m →
  for_enumerate_from n l (assign_input (take m x_list)) s =
  for_enumerate_from n l (assign_input x_list) s.
Proof.
  induction l as [|f l IH]; intros n s Hle; simpl in *; [done|].
  unfold bind. rewrite assign_input_take by lia.
  destruct (assign_input x_list n f s) as [[[]|e] s1]; [|done].
  apply IH. lia.
Qed.

Lemma assign_input_missing x_list nf f s :
  length x_list ≤ nf → assign_input x_list nf f s = (Raise IndexError, s).
Proof.
  intros Hle. unfold assign_input, bind at 1, list_getitem at 1.
  by rewrite lookup_ge_None_2.
Qed.

(** C4, as the code has it.  [CGraph.push_forward] does not compare the
    number of values with the number of independent nodes.  Surplus values
    are ignored: the call behaves as on the first [len(independent)] values.
    With too few values the call raises; the nodes that have a value are
    assigned first, and when these assignments go through the exception is
    the [IndexError] of [x_list[nf]] at the first missing value, raised
    in the store they left. *)
Theorem push_forward_count_mismatch s g G x_list :
  graphs s !! g = Some G →
  (length (independentFunctionList G) ≤ length x_list →
     CGraph_push_forward g x_list s =
     CGraph_push_forward g (take (length (independentFunctionList G)) x_list) s) ∧
  (length x_list < length (independentFunctionList G) →
     (∃ e s', CGraph_push_forward g x_list s = (Raise e, s')) ∧
     ∀ s1,
       for_enumerate (take (length x_list) (independentFunctionList G))
                     (assign_input x_list) s = (Ok tt, s1) →
       CGraph_push_forward g x_list s = (Raise IndexError, s1)).
Proof.
  intros HG. unfold CGraph_push_forward.
  assert (Hin : ∀ xs, push_forward_inputs g xs s =
            for_enumerate_from 0 (independentFunctionList G) (assign_input xs) s).
  { intros xs. unfold push_forward_inputs, for_enumerate.
    by rewrite (bind_ok _ _ _ _ _ (get_graph_some g G s HG)). }
  split.
  - intros Hle. unfold bind. rewrite !Hin. by rewrite inputs_take by (simpl; lia).
  - intros Hlt.
    assert (Hsplit : ∃ f rest, independentFunctionList G =
              take (length x_list) (independentFunctionList G) ++ f :: rest).
    { destruct (drop (length x_list) (independentFunctionList G)) as [|f rest] eqn:Hdrop.
      - apply (f_equal length) in Hdrop. rewrite length_drop in Hdrop. simpl in Hdrop. lia.
      - exists f, rest. by rewrite <- Hdrop, take_drop. }
    destruct Hsplit as (f & rest & Hsplit).
    assert (Hlen : length (take (length x_list) (independentFunctionList G)) = length x_list).
    { rewrite length_take. lia. }
    assert (Hrun : ∀ s1,
      for_enumerate_from 0 (take (length x_list) (independentFunctionList G))
                         (assign_input x_list) s = (Ok tt, s1) →
      push_forward_inputs g x_list s = (Raise IndexError, s1)).
    { intros s1 Hpre. rewrite Hin. rewrite Hsplit at 1. rewrite for_enumerate_from_app.
      rewrite (bind_ok _ _ _ _ _ Hpre). simpl.
      apply bind_raise, assign_input_missing. lia. }
    split.
    + destruct (for_enumerate_from 0 (take (length x_list) (independentFunctionList G))
                  (assign_input x_list) s) as [[[]|e] s1] eqn:Hpre.
      * exists IndexError, s1. apply bind_raise. by apply Hrun.
      * exists e, s1. apply bind_raise. rewrite Hin. rewrite Hsplit at 1.
        rewrite for_enumerate_from_app. by apply bind_raise.
    + intros s1 Hpre. apply bind_raise. by apply Hrun.
Qed.

(** ** Order of creation *)

Lemma StronglySorted_lookup_lt (l : list nat) : ∀ i j a b,
  StronglySorted lt l → l !! i = Some a → l !! j = Some b → i < j → a < b.
Proof.
  induction l as [|c l IH]; intros i j a b Hs Hi Hj Hlt; [by rewrite lookup_nil in Hi|].
  apply StronglySorted_cons in Hs as [Hall Hs].
  destruct j as [|j]; [lia|]. simpl in Hj. destruct i as [|i]; simpl in Hi.
  - injection Hi as <-. rewrite Forall_forall in Hall.
    apply Hall. by eapply list_elem_of_lookup_2.
  - apply (IH i j); [done|done|done|lia].
Qed.

(** C2, as the code has it.  In a store produced by tracing, a node at
    position [i] of a graph's node list has id [i], and each of its
    arguments is either the node itself, which then is a leaf recorded by
    [Function(x)], or a node created before it; such an argument, when it
    belongs to the same node list, stands at a smaller position and has that
    strictly smaller id. *)
Theorem argument_ids s g G i n a k :
  traced s → graphs s !! g = Some G →
  functionList G !! i = Some n → args (get_obj s n) = Some a → k ∈ a →
  ID (get_obj s n) = Some (Some i) ∧
  ((k = n ∧ is_leaf s n) ∨
   (k < n ∧ ∀ j, functionList G !! j = Some k →
              j < i ∧ ID (get_obj s k) = Some (Some j))).
Proof.
  intros Htr HG Hn Ha Hk. pose proof (traced_wf s Htr) as Hwf.
  destruct (wf_graph s Hwf g G HG) as (_ & Hsorted & Hnodes).
  destruct (Hnodes i n Hn) as (HID & _). split; [done|].
  destruct (wf_args s Hwf n a Ha) as [Hleaf | Hsmall].
  - left. split; [|done]. destruct Hleaf as (Ha' & _). rewrite Ha in Ha'.
    injection Ha' as ->. by apply list_elem_of_singleton in Hk.
  - right. rewrite Forall_forall in Hsmall. pose proof (Hsmall k Hk) as Hlt.
    split; [done|]. intros j Hj. destruct (Hnodes j k Hj) as (HIDk & _).
    split; [|done]. destruct (decide (j < i)) as [|Hge]; [done|].
    destruct (decide (j = i)) as [->|Hne]; [rewrite Hn in Hj; injection Hj as ->; lia|].
    pose proof (StronglySorted_lookup_lt _ i j n k Hsorted Hn Hj). lia.
Qed.

(** ** Leaves *)

Lemma Function_create_dangling s xv fargs fn f fa g :
  cgraph s = Some g → graphs s !! g = None →
  Function_create xv fargs fn (Some f) fa s =
  (Raise AttributeError,
   mkState
     (<[f := mkFunction (Some xv) (Some fargs) (Some fn) (ID (get_obj s f))
                        (funcargs (get_obj s f)) (xbar (get_obj s f))]>
        (heap s))
     (graphs s) (Some g) (next_ref s)).
Proof.
  intros Hc HG. unfold Function_create, Function_get_ID.
  repeat first [ rewrite Hc | rewrite HG | rewrite lookup_insert_eq
               | rewrite insert_insert_eq | progress run ].
  done.
Qed.

Lemma Function_create_fields s xv fargs fn f fa :
  let s' := (Function_create xv fargs fn (Some f) fa s).2 in
  x (get_obj s' f) = Some xv ∧ args (get_obj s' f) = Some fargs ∧
  func (get_obj s' f) = Some fn.
Proof.
  destruct (cgraph s) as [g|] eqn:Hc; [destruct (graphs s !! g) as [G|] eqn:HG|].
  - rewrite (Function_create_bound s xv fargs fn f fa g G Hc HG). simpl.
    unfold get_obj; simpl. by rewrite lookup_insert_eq.
  - rewrite (Function_create_dangling s xv fargs fn f fa g Hc HG). simpl.
    unfold get_obj; simpl. by rewrite lookup_insert_eq.
  - rewrite (Function_create_unbound s xv fargs fn f fa Hc). simpl.
    unfold get_obj; simpl. by rewrite lookup_insert_eq.
Qed.

Lemma Function_create_other s xv fargs fn f fa r :
  let s' := (Function_create xv fargs fn (Some f) fa s).2 in
  next_ref s' = next_ref s ∧ (r ≠ f → get_obj s' r = get_obj s r).
Proof.
  destruct (cgraph s) as [g|] eqn:Hc; [destruct (graphs s !! g) as [G|] eqn:HG|].
  - rewrite (Function_create_bound s xv fargs fn f fa g G Hc HG). simpl.
    split; [done|]. intros Hne. unfold get_obj; simpl. by rewrite lookup_insert_ne.
  - rewrite (Function_create_dangling s xv fargs fn f fa g Hc HG). simpl.
    split; [done|]. intros Hne. unfold get_obj; simpl. by rewrite lookup_insert_ne.
  - rewrite (Function_create_unbound s xv fargs fn f fa Hc). simpl.
    split; [done|]. intros Hne. unfold get_obj; simpl. by rewrite lookup_insert_ne.
Qed.

Lemma Function_init_state s xv :
  xv ≠ VNone →
  (Function_init xv s).2 =
  (Function_create xv [next_ref s] Function_Id (Some (next_ref s)) [] (allocate s).2).2.
Proof.
  intros Hxv. rewrite Function_init_recorded by done. unfold bind at 1. simpl.
  by rewrite bind_ret_state.
Qed.

(** No call of the tracing interface touches the structural fields of an
    object allocated before it. *)
Lemma run_call_keeps_nodes (c : api_call obj) s r :
  r < next_ref s →
  next_ref s ≤ next_ref (run_call c s) ∧
  structure (get_obj (run_call c s) r) = structure (get_obj s r).
Proof.
  intros Hr. destruct c as [|xv|fn Fargs fa|g l|g l|g x_list|g xbar_list];
    unfold run_call.
  - simpl. split; [lia|done].
  - assert (xv = VNone ∨ xv ≠ VNone) as [->|Hxv] by (destruct xv; auto).
    { simpl. split; [lia|done]. }
    rewrite Function_init_state by done.
    destruct (Function_create_other (allocate s).2 xv [next_ref s] Function_Id
                (next_ref s) [] r) as [Hn Hget].
    rewrite Hn, Hget by lia. simpl. split; [lia|done].
  - assert (Hcases :
      (Function_push_forward fn Fargs None fa s).2 = s ∨
      ∃ out, (Function_push_forward fn Fargs None fa s).2 =
             (Function_create out Fargs fn (Some (next_ref s)) fa (allocate s).2).2).
    { destruct (Function_push_forward fn Fargs None fa s) as [res s'] eqn:H. simpl.
      unfold Function_push_forward, bind at 1 in H.
      pose proof (list_comp_read_state x Fargs s) as Hst.
      destruct (list_comp Fargs (getattr x) s) as [[vs|e] s1]; simpl in Hst; subst s1;
        [|injection H as <- <-; by left].
      unfold bind at 1, lift in H.
      destruct (call fn (vs ++ fa)) as [out|e]; [|injection H as <- <-; by left].
      right. exists out. rewrite Function_create_fresh in H.
      symmetry. exact (f_equal snd H). }
    destruct Hcases as [-> | [out ->]]; [by split|].
    destruct (Function_create_other (allocate s).2 out Fargs fn (next_ref s) fa r)
      as [Hn Hget].
    rewrite Hn, Hget by lia. simpl. split; [lia|done].
  - unfold set_independent, bind, get_graph. by destruct (graphs s !! g).
  - unfold set_dependent, bind, get_graph. by destruct (graphs s !! g).
  - destruct (CGraph_push_forward_frame g x_list s) as (_ & _ & Hn & Hstr).
    rewrite Hn. by split.
  - destruct (CGraph_pullback_frame g xbar_list s) as [(_ & _ & Hn & Hstr) _].
    rewrite Hn. by split.
Qed.

Lemma run_calls_keep_nodes (cs : list (api_call obj)) : ∀ s r,
  r < next_ref s → structure (get_obj (run_calls cs s) r) = structure (get_obj s r).
Proof.
  induction cs as [|c cs IH]; intros s r Hr; [done|].
  destruct (run_call_keeps_nodes c s r Hr) as [Hn Hstr].
  simpl. rewrite <- Hstr. apply IH. lia.
Qed.

(** The input assignments on distinct self-referential nodes: each node
    receives its value, and nothing else changes. *)
Lemma inputs_leaves_objects x_list l : ∀ n s s',
  NoDup l → (∀ f, f ∈ l → args (get_obj s f) = Some [f]) →
  for_enumerate_from n l (assign_input x_list) s = (Ok tt, s') →
  (∀ i f v, l !! i = Some f → x_list !! (n + i) = Some v →
            get_obj s' f = set_x v (get_obj s f)) ∧
  (∀ r, r ∉ l → get_obj s' r = get_obj s r).
Proof.
  induction l as [|f l IH]; intros n s s' Hnd Hleaves Hrun.
  - injection Hrun as <-. split; [|done]. intros i f v Hi. by rewrite lookup_nil in Hi.
  - simpl in Hrun. bind_inv Hrun u s1 Hf. destruct u.
    apply NoDup_cons in Hnd as [Hfl Hnd].
    pose proof (assign_input_ok_inv _ _ _ _ _ Hf) as (v0 & a & a0 & Hv0 & Ha & Ha0 & _).
    rewrite (assign_input_leaf x_list n f s v0) in Hf by first [apply Hleaves; by left | done].
    injection Hf as <-.
    destruct (IH (S n) (write_obj f (set_x v0) s) s' Hnd) as [Hvals Hframe]; [|exact Hrun|].
    { intros f' Hf'. rewrite args_set_x. apply Hleaves. by right. }
    split.
    + intros [|i] f' v Hi Hv; simpl in Hi.
      * injection Hi as <-. rewrite Hframe by done.
        rewrite get_obj_update_eq. rewrite Nat.add_0_r in Hv. congruence.
      * assert (Hne : f' ≠ f).
        { intros ->. apply Hfl. by eapply list_elem_of_lookup_2. }
        rewrite (Hvals i f' v Hi) by (by rewrite Nat.add_succ_comm).
        by rewrite get_obj_update_ne.
    + intros r Hr. apply not_elem_of_cons in Hr as [Hne Hr].
      rewrite Hframe by done. by apply get_obj_update_ne.
Qed.

(** With a value for each of them, the input assignments on
    self-referential nodes go through. *)
Lemma inputs_leaves_ok x_list l : ∀ n s,
  (∀ f, f ∈ l → args (get_obj s f) = Some [f]) →
  n + length l ≤ length x_list →
  ∃ s', for_enumerate_from n l (assign_input x_list) s = (Ok tt, s').
Proof.
  induction l as [|f l IH]; intros n s Hleaves Hlen; [by exists s|].
  simpl in Hlen.
  destruct (lookup_lt_is_Some_2 x_list n) as [v Hv]; [lia|].
  destruct (IH (S n) (write_obj f (set_x v) s)) as [s' Hs']; [|lia|].
  { intros f' Hf'. rewrite args_set_x. apply Hleaves. by right. }
  exists s'. simpl.
  rewrite (bind_ok _ _ _ _ _ (assign_input_leaf x_list n f s v (Hleaves f ltac:(by left)) Hv)).
  exact Hs'.
Qed.

(** C9. [Function(x)] with [x] not [None] yields a node whose argument
    tuple is [(self,)] and whose operation is [Id], holding [x]; with a
    graph bound the constructor returns it as a leaf of that graph.  The
    node keeps this tuple and this operation through every later call of
    the tracing interface.  On any node whose argument tuple is [(self,)],
    the input assignment [f.args[0].x = x_list[nf]] writes the node's own
    value and nothing else.  So [CGraph.push_forward], given a value for
    each of its independent nodes, distinct leaves, first installs value
    [i] as the value of independent node [i] itself, changing nothing
    else, and goes on to the traversal from there; when it returns, each
    independent node still is its own argument and holds its input. *)
Theorem leaf_self_reference s xv :
  xv ≠ VNone →
  (let f := next_ref s in
   let s' := (Function_init xv s).2 in
   args (get_obj s' f) = Some [f] ∧ func (get_obj s' f) = Some Function_Id ∧
   x (get_obj s' f) = Some xv) ∧
  (∀ g G, cgraph s = Some g → graphs s !! g = Some G →
     (Function_init xv s).1 = Ok (next_ref s) ∧
     is_leaf (Function_init xv s).2 (next_ref s)) ∧
  (∀ cs,
     let f := next_ref s in
     let s' := run_calls (NewFunction xv :: cs) s in
     args (get_obj s' f) = Some [f] ∧ func (get_obj s' f) = Some Function_Id) ∧
  (∀ s0 f x_list nf v,
     args (get_obj s0 f) = Some [f] → x_list !! nf = Some v →
     assign_input x_list nf f s0 = (Ok tt, write_obj f (set_x v) s0) ∧
     x (get_obj (write_obj f (set_x v) s0) f) = Some v ∧
     ∀ r, r ≠ f → get_obj (write_obj f (set_x v) s0) r = get_obj s0 r) ∧
  (∀ s0 g G x_list,
     graphs s0 !! g = Some G →
     NoDup (independentFunctionList G) →
     (∀ f, f ∈ independentFunctionList G → is_leaf s0 f) →
     length (independentFunctionList G) ≤ length x_list →
     ∃ s1,
       push_forward_inputs g x_list s0 = (Ok tt, s1) ∧
       CGraph_push_forward g x_list s0 = push_forward_traverse g s1 ∧
       (∀ i f v, independentFunctionList G !! i = Some f → x_list !! i = Some v →
          get_obj s1 f = set_x v (get_obj s0 f)) ∧
       (∀ r, r ∉ independentFunctionList G → get_obj s1 r = get_obj s0 r) ∧
       ∀ s', CGraph_push_forward g x_list s0 = (Ok tt, s') →
         ∀ i f v, independentFunctionList G !! i = Some f → x_list !! i = Some v →
           x (get_obj s' f) = Some v ∧ is_leaf s' f).
Proof.
  intros Hxv. pose proof (Function_init_state s xv Hxv) as Hst.
  assert (Hnew : args (get_obj (Function_init xv s).2 (next_ref s)) = Some [next_ref s] ∧
                 func (get_obj (Function_init xv s).2 (next_ref s)) = Some Function_Id ∧
                 x (get_obj (Function_init xv s).2 (next_ref s)) = Some xv).
  { rewrite Hst.
    destruct (Function_create_fields (allocate s).2 xv [next_ref s] Function_Id
                (next_ref s) []) as (Hx & Ha & Hf).
    done. }
  split; [exact Hnew|]. split; [|split; [|split]].
  - intros g G Hc HG.
    rewrite (Function_init_recorded xv Hxv).
    assert (Ha : allocate s = (Ok (next_ref s), (allocate s).2)) by done.
    assert (Hc1 : cgraph (allocate s).2 = Some g) by done.
    assert (HG1 : graphs (allocate s).2 !! g = Some G) by done.
    rewrite (bind_ok _ _ _ _ _ Ha).
    rewrite (bind_ok _ _ _ _ _ (Function_create_bound _ xv [next_ref s] Function_Id
                                  (next_ref s) [] g G Hc1 HG1)).
    simpl. split; [done|]. unfold is_leaf, get_obj. simpl. by rewrite !lookup_insert_eq.
  - intros cs. simpl.
    assert (Hlt : next_ref s < next_ref (Function_init xv s).2).
    { rewrite Hst.
      destruct (Function_create_other (allocate s).2 xv [next_ref s] Function_Id
                  (next_ref s) [] 0) as [-> _]. simpl. lia. }
    pose proof (run_calls_keep_nodes cs _ _ Hlt) as Hstr.
    apply structure_eq_inv in Hstr as (-> & -> & _).
    by destruct Hnew as (? & ? & _).
  - intros s0 f x_list nf v Ha Hv. split; [by apply assign_input_leaf|].
    split; [by rewrite get_obj_update_eq|]. intros r Hr. by apply get_obj_update_ne.
  - intros s0 g G x_list HG Hnd Hleaves Hlen.
    assert (Hself : ∀ f, f ∈ independentFunctionList G → args (get_obj s0 f) = Some [f]).
    { intros f Hf. by destruct (Hleaves f Hf) as (? & _). }
    destruct (inputs_leaves_ok x_list (independentFunctionList G) 0 s0 Hself)
      as [s1 Hloop]; [simpl; lia|].
    assert (Hin : push_forward_inputs g x_list s0 = (Ok tt, s1)).
    { unfold push_forward_inputs, for_enumerate.
      by rewrite (bind_ok _ _ _ _ _ (get_graph_some g G s0 HG)). }
    destruct (inputs_leaves_objects x_list _ 0 s0 s1 Hnd Hself Hloop) as [Hvals Hframe].
    exists s1. split; [exact Hin|].
    split; [unfold CGraph_push_forward; by rewrite (bind_ok _ _ _ _ _ Hin)|].
    split; [intros i f v Hi Hv; by apply (Hvals i)|]. split; [exact Hframe|].
    intros s' Hrun i f v Hi Hv.
    unfold CGraph_push_forward in Hrun. rewrite (bind_ok _ _ _ _ _ Hin) in Hrun.
    pose proof (push_forward_inputs_frame g x_list s0) as Hfr1. rewrite Hin in Hfr1.
    pose proof (push_forward_traverse_frame g s1) as Hfr2. rewrite Hrun in Hfr2.
    simpl in Hfr1, Hfr2.
    assert (HG1 : graphs s1 !! g = Some G) by (destruct Hfr1 as (-> & _); done).
    apply (push_forward_traverse_ok_inv g G) in Hrun; [|done].
    assert (Hleaf : is_leaf s0 f) by (apply Hleaves; by eapply list_elem_of_lookup_2).
    assert (Hleaf1 : is_leaf s1 f) by by apply (is_leaf_same_structure s0).
    split; [|by apply (is_leaf_same_structure s1)].
    rewrite (traverse_leaf_x _ _ _ _ Hrun Hleaf1).
    rewrite (Hvals i f v Hi Hv). done.
Qed.

(** ** Adjoints are written by the pullback alone *)

Local Abbreviation same_adjoints := (@same_adjoints obj).

Lemma same_adjoints_refl s : same_adjoints s s.
Proof. by intros r. Qed.

Lemma same_adjoints_trans s1 s2 s3 :
  same_adjoints s1 s2 → same_adjoints s2 s3 → same_adjoints s1 s3.
Proof. intros H12 H23 r. by rewrite H23, H12. Qed.

Lemma same_adjoints_write f (upd : Function → Function) :
  (∀ o, xbar (upd o) = xbar o) → preserves same_adjoints (update_obj f upd).
Proof.
  intros Hupd s r. simpl. rewrite get_obj_update.
  destruct (decide (r = f)) as [->|]; [apply Hupd|done].
Qed.

Lemma same_adjoints_set_x f v : preserves same_adjoints (update_obj f (set_x v)).
Proof. by apply same_adjoints_write. Qed.

Lemma same_adjoints_set_args f a : preserves same_adjoints (update_obj f (set_args a)).
Proof. by apply same_adjoints_write. Qed.

Lemma same_adjoints_set_func f fn : preserves same_adjoints (update_obj f (set_func fn)).
Proof. by apply same_adjoints_write. Qed.

Lemma same_adjoints_set_ID f i : preserves same_adjoints (update_obj f (set_ID i)).
Proof. by apply same_adjoints_write. Qed.

Lemma same_adjoints_set_funcargs f fa :
  preserves same_adjoints (update_obj f (set_funcargs fa)).
Proof. by apply same_adjoints_write. Qed.

Lemma same_adjoints_allocate : preserves same_adjoints allocate.
Proof. by intros s r. Qed.

Lemma same_adjoints_put_graph g G : preserves same_adjoints (put_graph g G).
Proof. by intros s r. Qed.

Lemma same_adjoints_set_cgraph (c : option nat) :
  preserves same_adjoints (set_cgraph c).
Proof. by intros s r. Qed.

#[local] Hint Resolve same_adjoints_refl same_adjoints_trans same_adjoints_set_x
  same_adjoints_set_args same_adjoints_set_func same_adjoints_set_ID
  same_adjoints_set_funcargs same_adjoints_allocate same_adjoints_put_graph
  same_adjoints_set_cgraph : frame.

Ltac frame_cases :=
  repeat first
    [ frame_step; simpl
    | match goal with
      | |- preserves _ (match ?c with _ => _ end) => destruct c
      end ].

Lemma Function_create_adjoints xv fargs fn (fo : option nat) fa :
  preserves same_adjoints (Function_create xv fargs fn fo fa).
Proof.
  unfold Function_create, Function_blank, Function_get_ID, CGraph_append. frame_cases.
Qed.

#[local] Hint Resolve Function_create_adjoints : frame.

Lemma Function_push_forward_adjoints fn Fargs Fout fa :
  preserves same_adjoints (Function_push_forward fn Fargs Fout fa).
Proof. unfold Function_push_forward. frame_cases. Qed.

#[local] Hint Resolve Function_push_forward_adjoints : frame.

Lemma Function_init_adjoints xv : preserves same_adjoints (Function_init xv).
Proof. unfold Function_init. frame_cases. Qed.

Lemma CGraph_init_adjoints : preserves same_adjoints CGraph_init.
Proof. unfold CGraph_init. frame_cases. Qed.

Lemma set_independent_adjoints g l : preserves same_adjoints (set_independent g l).
Proof. unfold set_independent. frame_cases. Qed.

Lemma set_dependent_adjoints g l : preserves same_adjoints (set_dependent g l).
Proof. unfold set_dependent. frame_cases. Qed.

Lemma CGraph_push_forward_adjoints g x_list :
  preserves same_adjoints (CGraph_push_forward g x_list).
Proof.
  unfold CGraph_push_forward, push_forward_inputs, push_forward_traverse, for_enumerate,
    assign_input, replay_node.
  frame_cases.
Qed.

Lemma run_call_adjoints (c : api_call obj) s :
  is_pullback c = false → same_adjoints s (run_call c s).
Proof.
  destruct c; simpl; intros Hc; try discriminate.
  - apply CGraph_init_adjoints.
  - apply Function_init_adjoints.
  - apply Function_push_forward_adjoints.
  - apply set_independent_adjoints.
  - apply set_dependent_adjoints.
  - apply CGraph_push_forward_adjoints.
Qed.

(** X1. An adjoint is written by [CGraph.pullback] alone: in a session that
    has not called it yet, the adjoint of every object still reads as the
    class attribute [NotSet()], so [is_set] answers [False]. *)
Theorem adjoints_unset_before_pullback (cs : list (api_call obj)) r :
  forallb (λ c, negb (is_pullback c)) cs = true →
  is_set (xbar (get_obj (run_calls cs init_state) r)) = false.
Proof.
  intros Hcs.
  assert (H : ∀ s, (∀ k, xbar (get_obj s k) = VNotSet) →
                   forallb (λ c, negb (is_pullback c)) cs = true →
                   ∀ k, xbar (get_obj (run_calls cs s) k) = VNotSet).
  { clear Hcs. induction cs as [|c cs IH]; intros s Hs Hcs k; [apply Hs|].
    simpl in Hcs. apply andb_prop in Hcs as [Hc Hcs].
    simpl. apply IH; [|exact Hcs].
    intros k'. rewrite run_call_adjoints; [apply Hs|].
    by destruct (is_pullback c). }
  rewrite H; [done| |exact Hcs].
  intros k. unfold get_obj. simpl. by rewrite lookup_empty.
Qed.

(** ** What [CGraph.push_forward] may assign *)

Lemma keeps_for_each_in (P : state → Prop) {A} (l : list A) body :
  (∀ a, a ∈ l → keeps P (body a)) → keeps P (for_each l body).
Proof.
  induction l as [|a l IH]; intros Hb; simpl; [by intros s|].
  apply keeps_bind; [apply Hb; by left | intros _; apply IH].
  intros b Hin. apply Hb. by right.
Qed.

Lemma keeps_for_enumerate_from_in (P : state → Prop) {A} n (l : list A) body :
  (∀ k a, a ∈ l → keeps P (body k a)) → keeps P (for_enumerate_from n l body).
Proof.
  revert n. induction l as [|a l IH]; intros n Hb; simpl; [by intros s|].
  apply keeps_bind; [apply Hb; by left | intros _; apply IH].
  intros k b Hin. apply Hb. by right.
Qed.

Section Assigned.
Variables (s : state) (G : CGraph).

Local Abbreviation untouched := (@untouched obj s G).

Lemma untouched_start : untouched s.
Proof. split; [apply same_structure_refl | done]. Qed.

Lemma assign_input_untouched x_list nf f :
  f ∈ independentFunctionList G → keeps untouched (assign_input x_list nf f).
Proof.
  intros Hf t [Hst Hun].
  destruct (assign_input_state x_list nf f t) as [->|(v & a & a0 & Ha & Ha0 & ->)];
    [by split|].
  split.
  - eapply same_structure_trans; [exact Hst|]. apply (same_structure_set_x a0 v t).
  - intros r Hr. rewrite get_obj_update_ne; [by apply Hun|].
    intros ->. apply Hr. right. exists f, a. split; [exact Hf|]. split; [|exact Ha0].
    destruct Hst as (_ & _ & _ & Hst). specialize (Hst f).
    apply structure_eq_inv in Hst as (Hargs & _). by rewrite <- Hargs.
Qed.

Lemma replay_node_untouched f :
  f ∈ functionList G → keeps untouched (replay_node f).
Proof.
  intros Hf t [Hst Hun].
  destruct (replay_node_state f t) as [->|(out & _ & ->)]; [by split|].
  split.
  - eapply same_structure_trans; [exact Hst|]. apply (same_structure_set_x f out t).
  - intros r Hr. rewrite get_obj_update_ne; [by apply Hun|].
    intros ->. apply Hr. by left.
Qed.

Lemma CGraph_push_forward_untouched g x_list :
  graphs s !! g = Some G → untouched (CGraph_push_forward g x_list s).2.
Proof.
  intros HG. unfold CGraph_push_forward, push_forward_inputs, push_forward_traverse,
    for_enumerate.
  rewrite bind_assoc. rewrite (bind_ok _ _ _ _ _ (get_graph_some g G s HG)).
  pose proof (keeps_for_enumerate_from_in untouched 0 (independentFunctionList G)
                (assign_input x_list)
                (λ k a Ha, assign_input_untouched x_list k a Ha) s untouched_start) as H1.
  unfold bind at 1.
  destruct (for_enumerate_from 0 (independentFunctionList G) (assign_input x_list) s)
    as [[[]|e] s1]; simpl in H1; [|exact H1].
  assert (HG1 : graphs s1 !! g = Some G).
  { destruct H1 as [(Hg & _) _]. by rewrite Hg. }
  rewrite (bind_ok _ _ _ _ _ (get_graph_some g G s1 HG1)).
  exact (keeps_for_each_in untouched (functionList G) replay_node
           replay_node_untouched s1 H1).
Qed.

End Assigned.

(** X2. [CGraph.push_forward] writes no adjoint, and it assigns a value only
    to the nodes of the graph and to the first arguments of its
    independent nodes: every other object is left as it was, whether the
    call returns or raises. *)
Theorem push_forward_assigns_only s g G x_list r :
  graphs s !! g = Some G →
  xbar (get_obj (CGraph_push_forward g x_list s).2 r) = xbar (get_obj s r) ∧
  (¬ assigned_by_push_forward s G r →
   get_obj (CGraph_push_forward g x_list s).2 r = get_obj s r).
Proof.
  intros HG. split.
  - apply CGraph_push_forward_adjoints.
  - intros Hr. by apply (CGraph_push_forward_untouched s G g x_list HG).
Qed.

(** ** The node lists of a session *)

Local Abbreviation exclusive := (@exclusive obj).

Lemma create_graphs_cases s xv fargs fn fa :
  let s' := (Function_create xv fargs fn (Some (next_ref s)) fa (allocate s).2).2 in
  next_ref s' = S (next_ref s) ∧
  (graphs s' = graphs s ∨
   ∃ g G, cgraph s = Some g ∧ graphs s !! g = Some G ∧
     graphs s' = <[g := mkCGraph (functionCount G + 1) (functionList G ++ [next_ref s])
                           (dependentFunctionList G) (independentFunctionList G)]>
                   (graphs s)).
Proof.
  destruct (cgraph s) as [g|] eqn:Hc.
  - destruct (graphs s !! g) as [G|] eqn:HG.
    + rewrite (Function_create_bound (allocate s).2 xv fargs fn (next_ref s) fa g G Hc HG).
      simpl. split; [done|]. right. by exists g, G.
    + rewrite (Function_create_dangling (allocate s).2 xv fargs fn (next_ref s) fa g Hc HG).
      simpl. split; [done|]. by left.
  - rewrite (Function_create_unbound (allocate s).2 xv fargs fn (next_ref s) fa Hc).
    simpl. split; [done|]. by left.
Qed.

Lemma Function_push_forward_record_state fn Fargs fa s :
  (Function_push_forward fn Fargs None fa s).2 = s ∨
  ∃ out, (Function_push_forward fn Fargs None fa s).2 =
         (Function_create out Fargs fn (Some (next_ref s)) fa (allocate s).2).2.
Proof.
  pose proof (list_comp_read_state x Fargs s) as Hst.
  destruct (list_comp Fargs (getattr x) s) as [[vs|e] s1] eqn:Hl; simpl in Hst; subst s1.
  - destruct (call fn (vs ++ fa)) as [out|e] eqn:Hcall.
    + right. exists out. unfold Function_push_forward.
      rewrite (bind_ok _ _ _ _ _ Hl). unfold bind at 1, lift. rewrite Hcall.
      by rewrite Function_create_fresh.
    + left. unfold Function_push_forward.
      rewrite (bind_ok _ _ _ _ _ Hl). unfold bind, lift. by rewrite Hcall.
  - left. unfold Function_push_forward. by rewrite (bind_raise _ _ _ _ _ Hl).
Qed.

Lemma run_call_graphs (c : api_call obj) s :
  let s' := run_call c s in
  next_ref s ≤ next_ref s' ∧
  (graphs s' = graphs s ∨
   (∃ g G, cgraph s = Some g ∧ graphs s !! g = Some G ∧ next_ref s' = S (next_ref s) ∧
      graphs s' = <[g := mkCGraph (functionCount G + 1) (functionList G ++ [next_ref s])
                            (dependentFunctionList G) (independentFunctionList G)]>
                    (graphs s)) ∨
   (next_ref s' = S (next_ref s) ∧
    graphs s' = <[next_ref s := mkCGraph 0 [] [] []]> (graphs s)) ∨
   (∃ g G G', graphs s !! g = Some G ∧ functionList G' = functionList G ∧
      graphs s' = <[g := G']> (graphs s))).
Proof.
  destruct c as [|xv|fn Fargs fa|g l|g l|g x_list|g xbar_list]; simpl.
  - split; [lia|]. right. right. left. by split.
  - assert (xv = VNone ∨ xv ≠ VNone) as [->|Hxv] by (destruct xv; auto).
    + simpl. split; [lia|]. by left.
    + rewrite (Function_init_state s xv Hxv).
      destruct (create_graphs_cases s xv [next_ref s] Function_Id []) as [Hn Hg].
      cbv zeta in Hn, Hg. split; [lia|].
      destruct Hg as [Hg|(g & G & Hc & HG & Hg)]; [by left|].
      right. left. by exists g, G.
  - destruct (Function_push_forward_record_state fn Fargs fa s) as [->|[out ->]].
    + split; [lia|]. by left.
    + destruct (create_graphs_cases s out Fargs fn fa) as [Hn Hg].
      cbv zeta in Hn, Hg. split; [lia|].
      destruct Hg as [Hg|(g & G & Hc & HG & Hg)]; [by left|].
      right. left. by exists g, G.
  - unfold set_independent, bind, get_graph, put_graph.
    destruct (graphs s !! g) as [G|] eqn:HG; simpl; (split; [lia|]); [|by left].
    right. right. right. eexists g, G, _. split; [exact HG|]. split; [|reflexivity]. done.
  - unfold set_dependent, bind, get_graph, put_graph.
    destruct (graphs s !! g) as [G|] eqn:HG; simpl; (split; [lia|]); [|by left].
    right. right. right. eexists g, G, _. split; [exact HG|]. split; [|reflexivity]. done.
  - destruct (CGraph_push_forward_frame g x_list s) as (Hg & _ & Hn & _).
    split; [lia|]. by left.
  - destruct (CGraph_pullback_frame g xbar_list s) as [(Hg & _ & Hn & _) _].
    split; [lia|]. by left.
Qed.

Lemma run_call_exclusive (c : api_call obj) s :
  wf s → exclusive s → exclusive (run_call c s).
Proof.
  intros Hwf [Hkeys Hex].
  destruct (run_call_graphs c s) as [Hn Hg]. cbv zeta in Hn, Hg.
  assert (Hold : ∀ g1 G1 r, graphs (run_call c s) !! g1 = Some G1 → r ∈ functionList G1 →
            (∃ G0, graphs s !! g1 = Some G0 ∧ r ∈ functionList G0) ∨
            (cgraph s = Some g1 ∧ r = next_ref s)).
  { intros g1 G1 r HG1 Hr.
    destruct Hg as [Hg|[(g & G & Hc & HG & _ & Hg)|[(_ & Hg)|(g & G & G' & HG & Hl & Hg)]]];
      rewrite Hg in HG1.
    - left. by exists G1.
    - destruct (decide (g1 = g)) as [->|Hne].
      + rewrite lookup_insert_eq in HG1. injection HG1 as <-. simpl in Hr.
        apply elem_of_app in Hr as [Hr|Hr]; [left; by exists G|].
        right. by apply list_elem_of_singleton in Hr.
      + rewrite lookup_insert_ne in HG1 by done. left. by exists G1.
    - destruct (decide (g1 = next_ref s)) as [->|Hne].
      + rewrite lookup_insert_eq in HG1. injection HG1 as <-. simpl in Hr.
        by apply elem_of_nil in Hr.
      + rewrite lookup_insert_ne in HG1 by done. left. by exists G1.
    - destruct (decide (g1 = g)) as [->|Hne].
      + rewrite lookup_insert_eq in HG1. injection HG1 as <-. rewrite Hl in Hr.
        left. by exists G.
      + rewrite lookup_insert_ne in HG1 by done. left. by exists G1. }
  split.
  - intros g1 [G1 HG1].
    destruct Hg as [Hg|[(g & G & Hc & HG & _ & Hg)|[(Hn' & Hg)|(g & G & G' & HG & Hl & Hg)]]];
      rewrite Hg in HG1.
    + specialize (Hkeys g1 (mk_is_Some _ _ HG1)). lia.
    + destruct (decide (g1 = g)) as [->|Hne].
      * specialize (Hkeys g (mk_is_Some _ _ HG)). lia.
      * rewrite lookup_insert_ne in HG1 by done.
        specialize (Hkeys g1 (mk_is_Some _ _ HG1)). lia.
    + destruct (decide (g1 = next_ref s)) as [->|Hne]; [lia|].
      rewrite lookup_insert_ne in HG1 by done.
      specialize (Hkeys g1 (mk_is_Some _ _ HG1)). lia.
    + destruct (decide (g1 = g)) as [->|Hne].
      * specialize (Hkeys g (mk_is_Some _ _ HG)). lia.
      * rewrite lookup_insert_ne in HG1 by done.
        specialize (Hkeys g1 (mk_is_Some _ _ HG1)). lia.
  - intros g1 g2 G1 G2 r HG1 HG2 Hr1 Hr2.
    destruct (Hold g1 G1 r HG1 Hr1) as [(G1' & HG1' & Hr1')|[Hc1 Hf1]];
      destruct (Hold g2 G2 r HG2 Hr2) as [(G2' & HG2' & Hr2')|[Hc2 Hf2]].
    + by apply (Hex g1 g2 G1' G2' r).
    + destruct (wf_member s g1 G1' r Hwf HG1' Hr1') as [Hlt _]. lia.
    + destruct (wf_member s g2 G2' r Hwf HG2' Hr2') as [Hlt _]. lia.
    + congruence.
Qed.

Lemma run_calls_exclusive (cs : list (api_call obj)) : ∀ s,
  wf s → exclusive s → exclusive (run_calls cs s).
Proof.
  induction cs as [|c cs IH]; intros s Hwf Hex; [done|].
  simpl. apply IH; [by apply run_call_wf | by apply run_call_exclusive].
Qed.

Lemma traced_exclusive s : traced s → exclusive s.
Proof.
  intros [cs ->]. apply run_calls_exclusive; [apply wf_init_state|].
  split.
  - intros g [G HG]. simpl in HG. by rewrite lookup_empty in HG.
  - intros g1 g2 G1 G2 r HG1. simpl in HG1. by rewrite lookup_empty in HG1.
Qed.

Lemma StronglySorted_lt_NoDup (l : list nat) : StronglySorted lt l → NoDup l.
Proof.
  induction 1 as [|a l Hs IH Hall]; [apply NoDup_nil_2|].
  apply NoDup_cons. split; [|exact IH].
  intros Hin. rewrite Forall_forall in Hall. specialize (Hall a Hin). lia.
Qed.

(** X3. The registry of a tracing session: the counter of a graph is the
    length of its node list, no node is listed twice, the graph and its
    nodes are objects that have been allocated, and a node of the graph is
    listed in no other graph. *)
Theorem node_registry s g G :
  traced s → graphs s !! g = Some G →
  functionCount G = length (functionList G) ∧
  NoDup (functionList G) ∧
  g < next_ref s ∧
  ∀ r, r ∈ functionList G →
    r < next_ref s ∧
    ∀ g' G', graphs s !! g' = Some G' → r ∈ functionList G' → g' = g.
Proof.
  intros Htr HG.
  pose proof (traced_wf s Htr) as Hwf.
  destruct (traced_exclusive s Htr) as [Hkeys Hex].
  destruct (wf_graph s Hwf g G HG) as (Hcount & Hsorted & _).
  split; [exact Hcount|]. split; [by apply StronglySorted_lt_NoDup|].
  split; [apply Hkeys; by exists G|].
  intros r Hr. split; [by destruct (wf_member s g G r Hwf HG Hr)|].
  intros g' G' HG' Hr'. by apply (Hex g' g G' G r).
Qed.

Lemma run_call_append_only (c : api_call obj) s g G :
  exclusive s → graphs s !! g = Some G →
  ∃ G', graphs (run_call c s) !! g = Some G' ∧ functionList G `prefix_of` functionList G'.
Proof.
  intros [Hkeys _] HG.
  destruct (run_call_graphs c s) as [_ Hg]. cbv zeta in Hg.
  destruct Hg as [Hg|[(g0 & G0 & _ & HG0 & _ & Hg)|[(_ & Hg)|(g0 & G0 & G' & HG0 & Hl & Hg)]]];
    rewrite Hg.
  - by exists G.
  - destruct (decide (g = g0)) as [->|Hne].
    + rewrite lookup_insert_eq. eexists. split; [done|]. simpl.
      assert (G0 = G) as -> by congruence. by apply prefix_app_r.
    + rewrite lookup_insert_ne by done. by exists G.
  - specialize (Hkeys g (mk_is_Some _ _ HG)).
    rewrite lookup_insert_ne by lia. by exists G.
  - destruct (decide (g = g0)) as [->|Hne].
    + rewrite lookup_insert_eq. exists G'. split; [done|].
      assert (G0 = G) as -> by congruence. by rewrite Hl.
    + rewrite lookup_insert_ne by done. by exists G.
Qed.

(** X4. Node lists only grow at the end: whatever a session goes on to
    call, a graph stays in the store and the node list it had is a prefix
    of the one it has afterwards. *)
Theorem node_lists_append_only s (cs : list (api_call obj)) g G :
  traced s → graphs s !! g = Some G →
  ∃ G', graphs (run_calls cs s) !! g = Some G' ∧
        functionList G `prefix_of` functionList G'.
Proof.
  intros Htr. pose proof (traced_wf s Htr) as Hwf.
  pose proof (traced_exclusive s Htr) as Hex. clear Htr.
  revert s G Hwf Hex. induction cs as [|c cs IH]; intros s G Hwf Hex HG.
  - by exists G.
  - destruct (run_call_append_only c s g G Hex HG) as (G1 & HG1 & Hpre).
    destruct (IH (run_call c s) G1 (run_call_wf c s Hwf) (run_call_exclusive c s Hwf Hex) HG1)
      as (G' & HG' & Hpre').
    exists G'. split; [exact HG'|]. by etrans.
Qed.

(** ** Recording an operation *)

Lemma list_comp_read_ok {A} (proj : Function → option A) l s vs :
  Forall2 (λ k w, proj (get_obj s k) = Some w) l vs →
  list_comp l (getattr proj) s = (Ok vs, s).
Proof.
  induction 1 as [|k w l vs Hk _ IH]; [done|].
  simpl. rewrite (bind_ok _ _ _ _ _ (getattr_some proj k s w Hk)).
  by rewrite (bind_ok _ _ _ _ _ IH).
Qed.

Lemma Function_push_forward_record s fn Fargs fa g G vs out :
  cgraph s = Some g → graphs s !! g = Some G →
  Forall2 (λ k w, x (get_obj s k) = Some w) Fargs vs →
  call fn (vs ++ fa) = Ok out →
  Function_push_forward fn Fargs None fa s =
  (Ok (next_ref s),
   mkState
     (<[next_ref s := mkFunction (Some out) (Some Fargs) (Some fn)
                        (Some (Some (functionCount G))) (Some fa)
                        (xbar (get_obj s (next_ref s)))]>
        (heap s))
     (<[g := mkCGraph (functionCount G + 1) (functionList G ++ [next_ref s])
                      (dependentFunctionList G) (independentFunctionList G)]>
        (graphs s))
     (Some g) (S (next_ref s))).
Proof.
  intros Hc HG Hvs Hcall. unfold Function_push_forward.
  rewrite (bind_ok _ _ _ _ _ (list_comp_read_ok x Fargs s vs Hvs)).
  unfold bind at 1, lift. rewrite Hcall. rewrite Function_create_fresh.
  by rewrite (Function_create_bound (allocate s).2 out Fargs fn (next_ref s) fa g G Hc HG).
Qed.

Lemma Function_push_forward_record_facts s fn Fargs fa g G vs out :
  traced s → cgraph s = Some g → graphs s !! g = Some G →
  Forall2 (λ k w, x (get_obj s k) = Some w) Fargs vs →
  call fn (vs ++ fa) = Ok out →
  ∃ s', Function_push_forward fn Fargs None fa s = (Ok (next_ref s), s') ∧
    x (get_obj s' (next_ref s)) = Some out ∧
    args (get_obj s' (next_ref s)) = Some Fargs ∧
    func (get_obj s' (next_ref s)) = Some fn ∧
    funcargs (get_obj s' (next_ref s)) = Some fa ∧
    ID (get_obj s' (next_ref s)) = Some (Some (length (functionList G))) ∧
    forward_consistent s' (next_ref s) ∧
    (next_ref s ∉ functionList G) ∧
    graphs s' !! g = Some (mkCGraph (S (length (functionList G)))
                             (functionList G ++ [next_ref s])
                             (dependentFunctionList G) (independentFunctionList G)) ∧
    (∀ g', g' ≠ g → graphs s' !! g' = graphs s !! g') ∧
    (∀ r, r ≠ next_ref s → get_obj s' r = get_obj s r) ∧
    cgraph s' = Some g ∧ next_ref s' = S (next_ref s).
Proof.
  intros Htr Hc HG Hvs Hcall. pose proof (traced_wf s Htr) as Hwf.
  destruct (wf_graph s Hwf g G HG) as (Hcount & _ & _).
  set (node := mkFunction (Some out) (Some Fargs) (Some fn)
                 (Some (Some (functionCount G))) (Some fa) (xbar (get_obj s (next_ref s)))).
  set (s1 := mkState (<[next_ref s := node]> (heap s))
               (<[g := mkCGraph (functionCount G + 1) (functionList G ++ [next_ref s])
                         (dependentFunctionList G) (independentFunctionList G)]> (graphs s))
               (Some g) (S (next_ref s))).
  exists s1.
  split; [exact (Function_push_forward_record s fn Fargs fa g G vs out Hc HG Hvs Hcall)|].
  assert (Hnew : get_obj s1 (next_ref s) = node).
  { unfold get_obj, s1. simpl. by rewrite lookup_insert_eq. }
  assert (Hother : ∀ r, r ≠ next_ref s → get_obj s1 r = get_obj s r).
  { intros r Hr. unfold get_obj, s1. simpl. by rewrite lookup_insert_ne. }
  rewrite !Hnew. simpl.
  split; [done|]. split; [done|]. split; [done|]. split; [done|].
  split; [by rewrite Hcount|]. split.
  { exists fn, Fargs, fa, vs, out. rewrite !Hnew. simpl.
    split; [done|]. split; [done|]. split; [done|]. split; [|done].
    eapply Forall2_impl; [exact Hvs|]. intros k w Hk. simpl in Hk.
    rewrite Hother; [exact Hk|]. intros ->.
    destruct (wf_fresh s Hwf (next_ref s) (le_n _)) as [Hx _]. congruence. }
  split.
  { intros Hin. destruct (wf_member s g G (next_ref s) Hwf HG Hin) as [Hlt _]. lia. }
  split; [by rewrite lookup_insert_eq, Hcount, Nat.add_1_r|].
  split; [intros g' Hg'; by rewrite lookup_insert_ne|].
  split; [exact Hother|done].
Qed.

(** ** The overloaded operators *)

Section OperatorTheory.
Variable numpy_ndim_nested : list (operand obj) → result nat.
Variable class_attr : value → string → option callable.

Lemma list_comp_nodes (l : list nat) : ∀ s,
  list_comp (Node <$> l) (operand_x (obj := obj)) s = list_comp l (getattr x) s.
Proof.
  induction l as [|k l IH]; intros s; [done|].
  rewrite fmap_cons. cbn [list_comp operand_x].
  apply bind_ext. intros w s1. unfold bind. by rewrite IH.
Qed.

Lemma nodes_fmap (l : list nat) : nodes (obj := obj) (Node <$> l) = l.
Proof.
  induction l as [|k l IH]; [done|].
  rewrite fmap_cons. unfold nodes in *. cbn [omap list_omap]. by rewrite IH.
Qed.

Lemma numpy_ndim_nodes (l : list nat) :
  numpy_ndim numpy_ndim_nested (Node <$> l) = Ok 1.
Proof.
  unfold numpy_ndim.
  assert (existsb (is_tuple_operand (obj := obj)) (Node <$> l) = false) as ->; [|done].
  induction l as [|k l IH]; [done|]. rewrite fmap_cons. simpl. exact IH.
Qed.

Lemma Function_push_forward_operands_nodes fn (l : list nat) fa s :
  Function_push_forward_operands numpy_ndim_nested fn (Node <$> l) fa s =
  Function_push_forward fn l None fa s.
Proof.
  unfold Function_push_forward_operands, Function_push_forward.
  unfold bind at 1, lift. rewrite numpy_ndim_nodes. unfold bind.
  rewrite list_comp_nodes, nodes_fmap. done.
Qed.

Lemma Function_push_forward_operands_plain fn self (p : plain obj) fa s :
  ∃ e, Function_push_forward_operands numpy_ndim_nested fn [Node self; Plain p] fa s
       = (Raise e, s) ∧
    (e = AttributeError ∨
     ∃ vs, p = PlainTuple vs ∧ numpy_ndim_nested [Node self; Plain p] = Raise e).
Proof.
  assert (Hread : ∀ (k : list value → M nat),
    bind (list_comp [Node self; Plain p] operand_x) k s = (Raise AttributeError, s)).
  { intros k. apply bind_raise. simpl.
    unfold bind, getattr, raise. by destruct (x (get_obj s self)). }
  unfold Function_push_forward_operands, bind at 1, lift, numpy_ndim.
  destruct p as [| | |vs]; simpl.
  1-3: exists AttributeError; split; [apply Hread | by left].
  destruct (numpy_ndim_nested [Node self; Plain (PlainTuple vs)]) as [[|d]|e] eqn:Hd.
  - exists AttributeError. split; [done | by left].
  - exists AttributeError. split; [apply Hread | by left].
  - exists e. split; [done|]. right. by exists vs.
Qed.

Lemma Function_binary_plain name self (p : plain obj) s :
  ∃ e, Function_binary numpy_ndim_nested class_attr name self (Plain p) s = (Raise e, s) ∧
    (e = AttributeError ∨
     ∃ vs, p = PlainTuple vs ∧ numpy_ndim_nested [Node self; Plain p] = Raise e).
Proof.
  unfold Function_binary, bind at 1, getattr.
  destruct (x (get_obj s self)) as [xv|]; [|exists AttributeError; split; [done | by left]].
  unfold bind at 1, getattr_class.
  destruct (class_attr xv name) as [fn|]; [|exists AttributeError; split; [done | by left]].
  apply Function_push_forward_operands_plain.
Qed.

(** X5. An operator of [Function] accepts Function nodes only: with
    [None], a number or a tuple as the other operand, each of [__add__],
    [__sub__], [__mul__], [__div__], [dot], [solve] and the reflected
    [__radd__], [__rmul__] and [__rdiv__] raises, and the store is the one
    before the call: nothing is recorded.  The exception is
    [AttributeError], except that with a tuple operand it is the one
    [numpy.ndim] raises on the ragged [Fargs] when it raises one. *)
Theorem operators_reject_plain_operands self (p : plain obj) s :
  let rejects (m : M nat) : Prop :=
    ∃ e, m s = (Raise e, s) ∧
      (e = AttributeError ∨
       ∃ vs, p = PlainTuple vs ∧ numpy_ndim_nested [Node self; Plain p] = Raise e) in
  (∀ name, rejects (Function_binary numpy_ndim_nested class_attr name self (Plain p))) ∧
  rejects (Function_add numpy_ndim_nested class_attr self (Plain p)) ∧
  rejects (Function_sub numpy_ndim_nested class_attr self (Plain p)) ∧
  rejects (Function_mul numpy_ndim_nested class_attr self (Plain p)) ∧
  rejects (Function_div numpy_ndim_nested class_attr self (Plain p)) ∧
  rejects (Function_dot numpy_ndim_nested class_attr self (Plain p)) ∧
  rejects (Function_solve numpy_ndim_nested class_attr self (Plain p)) ∧
  rejects (Function_radd numpy_ndim_nested class_attr self (Plain p)) ∧
  rejects (Function_rmul numpy_ndim_nested class_attr self (Plain p)) ∧
  Function_rdiv numpy_ndim_nested class_attr self (Plain p) s = (Raise AttributeError, s).
Proof.
  intros rejects.
  split; [intros name; apply Function_binary_plain|].
  repeat (split; [apply Function_binary_plain|]). done.
Qed.


(** X6. Recording an operation in the bound graph.  When every argument
    node has a value and the operation returns, [Function.push_forward]
    (with no output node) returns a new object that holds the result, the
    arguments, the operation and the auxiliary arguments, whose [ID] is the
    length of the node list, and which is appended to that list; the new
    node is forward-consistent, and no other object or graph changes.  A
    binary operator records in this way the method of that name of the
    class of its left operand's value, with both operands as arguments; a
    unary one has the node as its only argument; [__getitem__] passes the
    index as auxiliary argument. *)
Theorem operations_record_node s g G self v :
  traced s → cgraph s = Some g → graphs s !! g = Some G →
  x (get_obj s self) = Some v →
  let recorded (m : M nat) fn (Fargs : list nat) fa out : Prop :=
    ∃ s', m s = (Ok (next_ref s), s') ∧
      x (get_obj s' (next_ref s)) = Some out ∧
      args (get_obj s' (next_ref s)) = Some Fargs ∧
      func (get_obj s' (next_ref s)) = Some fn ∧
      funcargs (get_obj s' (next_ref s)) = Some fa ∧
      ID (get_obj s' (next_ref s)) = Some (Some (length (functionList G))) ∧
      forward_consistent s' (next_ref s) ∧
      (next_ref s ∉ functionList G) ∧
      graphs s' !! g = Some (mkCGraph (S (length (functionList G)))
                               (functionList G ++ [next_ref s])
                               (dependentFunctionList G) (independentFunctionList G)) ∧
      (∀ g', g' ≠ g → graphs s' !! g' = graphs s !! g') ∧
      (∀ r, r ≠ next_ref s → get_obj s' r = get_obj s r) ∧
      cgraph s' = Some g ∧ next_ref s' = S (next_ref s) in
  (∀ fn Fargs fa vs out,
     Forall2 (λ k w, x (get_obj s k) = Some w) Fargs vs →
     call fn (vs ++ fa) = Ok out →
     recorded (Function_push_forward fn Fargs None fa) fn Fargs fa out) ∧
  (∀ name rhs w fn out,
     x (get_obj s rhs) = Some w → class_attr v name = Some fn →
     call fn [v; w] = Ok out →
     recorded (Function_binary numpy_ndim_nested class_attr name self (Node rhs)) fn [self; rhs] [] out) ∧
  (∀ name fn out,
     class_attr v name = Some fn → call fn [v] = Ok out →
     recorded (Function_unary numpy_ndim_nested class_attr name self) fn [self] [] out) ∧
  (∀ sl fn out,
     class_attr v "__getitem__" = Some fn → call fn [v; sl] = Ok out →
     recorded (Function_getitem numpy_ndim_nested class_attr self sl) fn [self] [sl] out).
Proof.
  intros Htr Hc HG Hself recorded.
  assert (Hop : ∀ name fn (l : list nat) fa,
    class_attr v name = Some fn →
    bind (getattr x self) (λ xv, bind (getattr_class class_attr xv name)
      (λ fn, Function_push_forward_operands numpy_ndim_nested fn (Node <$> l) fa)) s =
    Function_push_forward fn l None fa s).
  { intros name fn l fa Hfn.
    rewrite (bind_ok _ _ _ _ _ (getattr_some x self s v Hself)).
    unfold bind at 1, getattr_class. rewrite Hfn. simpl.
    apply Function_push_forward_operands_nodes. }
  split; [|split; [|split]].
  - intros fn Fargs fa vs out Hvs Hcall.
    exact (Function_push_forward_record_facts s fn Fargs fa g G vs out Htr Hc HG Hvs Hcall).
  - intros name rhs w fn out Hrhs Hfn Hcall. unfold recorded, Function_binary.
    change [Node self; Node rhs] with (Node (obj := obj) <$> [self; rhs]).
    rewrite (Hop name fn [self; rhs] [] Hfn).
    apply (Function_push_forward_record_facts s fn [self; rhs] [] g G [v; w] out Htr Hc HG);
      [|done].
    by repeat constructor.
  - intros name fn out Hfn Hcall. unfold recorded, Function_unary.
    change [Node self] with (Node (obj := obj) <$> [self]).
    rewrite (Hop name fn [self] [] Hfn).
    apply (Function_push_forward_record_facts s fn [self] [] g G [v] out Htr Hc HG);
      [|done].
    by repeat constructor.
  - intros sl fn out Hfn Hcall. unfold recorded, Function_getitem.
    change [Node self] with (Node (obj := obj) <$> [self]).
    rewrite (Hop "__getitem__" fn [self] [sl] Hfn).
    apply (Function_push_forward_record_facts s fn [self] [sl] g G [v] out Htr Hc HG);
      [|done].
    by repeat constructor.
Qed.

End OperatorTheory.

(** X7. With a graph bound, [Function.push_forward] (with no output node)
    records all or nothing: if it raises, then an argument had no value
    (an [AttributeError]) or the operation itself raised, and the store is
    the one before the call. *)
Theorem push_forward_raises_without_trace s fn Fargs fa g G e s' :
  cgraph s = Some g → graphs s !! g = Some G →
  Function_push_forward fn Fargs None fa s = (Raise e, s') →
  s' = s ∧
  ((e = AttributeError ∧ ∃ k, k ∈ Fargs ∧ x (get_obj s k) = None) ∨
   ∃ vs, Forall2 (λ k w, x (get_obj s k) = Some w) Fargs vs ∧ call fn (vs ++ fa) = Raise e).
Proof.
  intros Hc HG Hrun.
  assert (Hread : ∀ l,
    (∃ vs, Forall2 (λ k w, x (get_obj s k) = Some w) l vs) ∨
    (list_comp l (getattr x) s = (Raise AttributeError, s) ∧
     ∃ k, k ∈ l ∧ x (get_obj s k) = None)).
  { induction l as [|k l IH]; [left; by exists []|].
    destruct (x (get_obj s k)) as [w|] eqn:Hk.
    - destruct IH as [[vs Hvs]|(Hl & k' & Hk' & Hnone)].
      + left. exists (w :: vs). by constructor.
      + right. split.
        * simpl. rewrite (bind_ok _ _ _ _ _ (getattr_some x k s w Hk)).
          by rewrite (bind_raise _ _ _ _ _ Hl).
        * exists k'. split; [by right|done].
    - right. split.
      + simpl. apply bind_raise. unfold getattr. by rewrite Hk.
      + exists k. split; [by left|done]. }
  destruct (Hread Fargs) as [[vs Hvs]|(Hl & k & Hk & Hnone)].
  - destruct (call fn (vs ++ fa)) as [out|e'] eqn:Hcall.
    + rewrite (Function_push_forward_record s fn Fargs fa g G vs out Hc HG Hvs Hcall) in Hrun.
      discriminate.
    + unfold Function_push_forward in Hrun.
      rewrite (bind_ok _ _ _ _ _ (list_comp_read_ok x Fargs s vs Hvs)) in Hrun.
      unfold bind, lift in Hrun. rewrite Hcall in Hrun.
      injection Hrun as <- <-. split; [done|]. right. by exists vs.
  - unfold Function_push_forward in Hrun.
    rewrite (bind_raise _ _ _ _ _ Hl) in Hrun. injection Hrun as <- <-.
    split; [done|]. left. split; [done|]. by exists k.
Qed.

(** X8. While no graph is bound ([Function.cgraph] is [None]),
    [Function(x)] and every operation whose evaluation succeeds raise
    [AttributeError]: the new object has received [x], [args] and [func],
    with [ID = None], but no graph has changed. *)
Theorem tracing_without_graph s :
  cgraph s = None →
  (∀ xv, xv ≠ VNone →
     ∃ s', Function_init xv s = (Raise AttributeError, s') ∧
       graphs s' = graphs s ∧
       x (get_obj s' (next_ref s)) = Some xv ∧
       args (get_obj s' (next_ref s)) = Some [next_ref s] ∧
       func (get_obj s' (next_ref s)) = Some Function_Id ∧
       ID (get_obj s' (next_ref s)) = Some None) ∧
  (∀ fn Fargs fa vs out,
     Forall2 (λ k w, x (get_obj s k) = Some w) Fargs vs →
     call fn (vs ++ fa) = Ok out →
     ∃ s', Function_push_forward fn Fargs None fa s = (Raise AttributeError, s') ∧
       graphs s' = graphs s ∧
       x (get_obj s' (next_ref s)) = Some out ∧
       args (get_obj s' (next_ref s)) = Some Fargs ∧
       func (get_obj s' (next_ref s)) = Some fn ∧
       ID (get_obj s' (next_ref s)) = Some None).
Proof.
  intros Hc. split.
  - intros xv Hxv. rewrite (Function_init_recorded xv Hxv).
    unfold bind at 1. simpl.
    pose proof (Function_create_unbound (allocate s).2 xv [next_ref s] Function_Id
                  (next_ref s) [] Hc) as Hcr.
    simpl in Hcr. eexists. split; [by apply bind_raise|].
    unfold get_obj. simpl. by rewrite !lookup_insert_eq.
  - intros fn Fargs fa vs out Hvs Hcall. unfold Function_push_forward.
    rewrite (bind_ok _ _ _ _ _ (list_comp_read_ok x Fargs s vs Hvs)).
    unfold bind at 1, lift. rewrite Hcall. rewrite Function_create_fresh.
    rewrite (Function_create_unbound (allocate s).2 out Fargs fn (next_ref s) fa Hc).
    eexists. split; [done|].
    unfold get_obj. simpl. by rewrite !lookup_insert_eq.
Qed.

(** ** Replaying twice *)

Lemma Function_eq (o o' : Function) :
  structure o' = structure o → xbar o' = xbar o → x o' = x o → o' = o.
Proof.
  destruct o, o'. unfold structure. simpl. intros [= -> -> -> ->] -> ->. done.
Qed.

Lemma Forall2_impl_in {A B} (P Q : A → B → Prop) (l : list A) (vs : list B) :
  Forall2 P l vs → (∀ k w, k ∈ l → P k w → Q k w) → Forall2 Q l vs.
Proof.
  induction 1 as [|k w l vs Hk _ IH]; intros HPQ; constructor.
  - apply HPQ; [by left | done].
  - apply IH. intros k' w' Hin. apply HPQ. by right.
Qed.

Lemma replay_node_ok f s fn a fa vs out :
  func (get_obj s f) = Some fn → args (get_obj s f) = Some a →
  funcargs (get_obj s f) = Some fa →
  Forall2 (λ k w, x (get_obj s k) = Some w) a vs →
  call fn (vs ++ fa) = Ok out →
  replay_node f s = (Ok tt, write_obj f (set_x out) s).
Proof.
  intros Hfn Ha Hfa Hvs Hcall. unfold replay_node.
  rewrite (bind_ok _ _ _ _ _ (getattr_some func f s fn Hfn)).
  rewrite (bind_ok _ _ _ _ _ (getattr_some args f s a Ha)).
  rewrite (bind_ok _ _ _ _ _ (getattr_some funcargs f s fa Hfa)).
  unfold Function_push_forward. rewrite !bind_assoc.
  rewrite (bind_ok _ _ _ _ _ (list_comp_read_ok x a s vs Hvs)).
  unfold bind, lift. by rewrite Hcall.
Qed.

Lemma assign_input_ok x_list nf f s v a a0 :
  x_list !! nf = Some v → args (get_obj s f) = Some a → a !! 0 = Some a0 →
  assign_input x_list nf f s = (Ok tt, write_obj a0 (set_x v) s).
Proof.
  intros Hv Ha Ha0. unfold assign_input, list_getitem. rewrite Hv.
  unfold bind at 1, ret.
  rewrite (bind_ok _ _ _ _ _ (getattr_some args f s a Ha)).
  by rewrite Ha0.
Qed.

Lemma traverse_effect l : ∀ s s',
  for_each l replay_node s = (Ok tt, s') →
  ∀ r, structure (get_obj s' r) = structure (get_obj s r) ∧
       xbar (get_obj s' r) = xbar (get_obj s r) ∧
       (r ∉ l → get_obj s' r = get_obj s r).
Proof.
  induction l as [|f l IH]; intros s s' Hrun r.
  - injection Hrun as <-. done.
  - simpl in Hrun. bind_inv Hrun u s1 Hf.
    destruct u. apply replay_node_ok_inv in Hf as (fn & a & fa & vs & out & _ & _ & _ & _ & _ & ->).
    destruct (IH _ _ Hrun r) as (Hst & Hxb & Hout).
    rewrite Hst, Hxb. rewrite get_obj_update.
    destruct (decide (r = f)) as [->|Hne].
    + split; [done|]. split; [done|]. intros Hnot. exfalso. apply Hnot. by left.
    + split; [done|]. split; [done|]. intros Hnot. rewrite Hout.
      * by rewrite get_obj_update_ne.
      * intros Hin. apply Hnot. by right.
Qed.

Lemma traverse_two_runs l : ∀ (a b a' : state),
  StronglySorted lt l →
  (∀ f af, f ∈ l → args (get_obj a f) = Some af → af = [f] ∨ Forall (λ k, k < f) af) →
  (∀ r, structure (get_obj b r) = structure (get_obj a r) ∧
        xbar (get_obj b r) = xbar (get_obj a r)) →
  (∀ r, x (get_obj b r) = x (get_obj a r) ∨
        (r ∈ l ∧ ∃ ar, args (get_obj a r) = Some ar ∧ Forall (λ k, k < r) ar)) →
  for_each l replay_node a = (Ok tt, a') →
  ∃ b', for_each l replay_node b = (Ok tt, b') ∧ ∀ r, get_obj b' r = get_obj a' r.
Proof.
  induction l as [|f l IH]; intros a b a' Hsorted Hshape Hsame Hx Hrun.
  - injection Hrun as <-. exists b. split; [done|]. intros r.
    destruct (Hsame r) as [Hst Hxb]. apply Function_eq; [done|done|].
    destruct (Hx r) as [Hr|[Hr _]]; [done|]. by apply elem_of_nil in Hr.
  - simpl in Hrun. bind_inv Hrun u a1 Hf. destruct u.
    apply replay_node_ok_inv in Hf
      as (fn & af & fa & vs & out & Hfn & Haf & Hfa & Hvs & Hcall & ->).
    apply StronglySorted_inv in Hsorted as [Hsorted Hlt].
    destruct (Hsame f) as [Hstf _].
    apply structure_eq_inv in Hstf as (Hbargs & Hbfunc & _ & Hbfa).
    assert (Hvs' : Forall2 (λ k w, x (get_obj b k) = Some w) af vs).
    { eapply Forall2_impl_in; [exact Hvs|]. intros k w Hk Hkw. simpl in Hkw.
      destruct (Hx k) as [Hxk|(Hkl & ak & Hak & Hsmall)]; [by rewrite Hxk|].
      exfalso.
      destruct (Hshape f af (ltac:(by left)) Haf) as [->|Hsm].
      - apply list_elem_of_singleton in Hk as ->.
        assert (ak = [f]) as -> by congruence.
        apply Forall_cons in Hsmall as [Hff _]. lia.
      - rewrite Forall_forall in Hsm. specialize (Hsm k Hk).
        apply elem_of_cons in Hkl as [->|Hkl]; [lia|].
        rewrite Forall_forall in Hlt. specialize (Hlt k Hkl). lia. }
    assert (Hb : replay_node f b = (Ok tt, write_obj f (set_x out) b)).
    { apply (replay_node_ok f b fn af fa vs out); [congruence|congruence|congruence|done|done]. }
    destruct (IH (write_obj f (set_x out) a) (write_obj f (set_x out) b) a') as (b' & Hb' & Heq).
    + exact Hsorted.
    + intros f' af' Hf' Haf'. rewrite args_set_x in Haf'.
      apply Hshape; [by right | done].
    + intros r. rewrite !get_obj_update. destruct (decide (r = f)) as [->|Hne].
      * destruct (Hsame f) as [Hst Hxb]. apply structure_eq_inv in Hst as (? & ? & ? & ?).
        unfold structure. simpl. split; [congruence|done].
      * apply Hsame.
    + intros r. rewrite !get_obj_update. destruct (decide (r = f)) as [->|Hne]; [by left|].
      destruct (Hx r) as [Hr|(Hrl & ar & Har & Hsmall)]; [by left|].
      right. split.
      * apply elem_of_cons in Hrl as [->|Hrl]; [done|exact Hrl].
      * by exists ar.
    + exact Hrun.
    + exists b'. split; [|exact Heq]. simpl. by rewrite (bind_ok _ _ _ _ _ Hb).
Qed.

Lemma inputs_two_runs x_list l : ∀ n (u t u' : state),
  (∀ r, args (get_obj t r) = args (get_obj u r)) →
  for_enumerate_from n l (assign_input x_list) u = (Ok tt, u') →
  ∃ t', for_enumerate_from n l (assign_input x_list) t = (Ok tt, t') ∧
    ∀ r, (get_obj u' r = get_obj u r ∧ get_obj t' r = get_obj t r) ∨
         (∃ v, get_obj u' r = set_x v (get_obj u r) ∧ get_obj t' r = set_x v (get_obj t r)).
Proof.
  induction l as [|f l IH]; intros n u t u' Hargs Hrun.
  - injection Hrun as <-. exists t. split; [done|]. intros r. by left.
  - simpl in Hrun. bind_inv Hrun w u1 Hf. destruct w.
    apply assign_input_ok_inv in Hf as (v & a & a0 & Hv & Ha & Ha0 & ->).
    assert (Ht : assign_input x_list n f t = (Ok tt, write_obj a0 (set_x v) t)).
    { apply (assign_input_ok x_list n f t v a a0); [done| |done]. by rewrite Hargs. }
    destruct (IH (S n) (write_obj a0 (set_x v) u) (write_obj a0 (set_x v) t) u')
      as (t' & Ht' & Hrel).
    + intros r. by rewrite !args_set_x.
    + exact Hrun.
    + exists t'. split; [simpl; by rewrite (bind_ok _ _ _ _ _ Ht)|].
      intros r. destruct (Hrel r) as [[Hu Htr]|(v' & Hu & Htr)];
        rewrite Hu, Htr, !get_obj_update; destruct (decide (r = a0)) as [->|Hne].
      * right. by exists v.
      * by left.
      * right. by exists v'.
      * right. by exists v'.
Qed.


(** ** The number of seeds *)

Lemma seed_output_take xbar_list m nf f s :
  nf < m → seed_output (take m xbar_list) nf f s = seed_output xbar_list nf f s.
Proof.
  intros Hlt. unfold seed_output, bind, list_getitem.
  by rewrite lookup_take_lt.
Qed.

Lemma seeds_take xbar_list m l : ∀ n s,
  n + length l ≤ m →
  for_enumerate_from n l (seed_output (take m xbar_list)) s =
  for_enumerate_from n l (seed_output xbar_list) s.
Proof.
  induction l as [|f l IH]; intros n s Hle; simpl in *; [done|].
  unfold bind. rewrite seed_output_take by lia.
  destruct (seed_output xbar_list n f s) as [[[]|e] s1]; [|done].
  apply IH. lia.
Qed.

Lemma seed_output_missing xbar_list nf f s :
  length xbar_list ≤ nf → seed_output xbar_list nf f s = (Raise IndexError, s).
Proof.
  intros Hle. unfold seed_output, bind at 1, list_getitem at 1.
  by rewrite lookup_ge_None_2.
Qed.

Lemma pullback_zero_init_graphs g s : graphs (pullback_zero_init g s).2 = graphs s.
Proof. by destruct (pullback_zero_init_frame g s) as [(Hg & _) _]. Qed.

(** X10. [CGraph.pullback] does not compare the number of seeds with the
    number of dependent nodes.  Surplus seeds are ignored: the call behaves
    as on the first [len(dependent)] seeds.  With too few seeds the call
    raises before any node is pulled back: its outcome is that of the zero
    initialisation followed by the seeding.  When the zero initialisation
    and the seeds that are there go through, the exception is the
    [IndexError] of [xbar_list[nf]] at the first missing seed. *)
Theorem pullback_seed_count s g G xbar_list :
  graphs s !! g = Some G →
  (length (dependentFunctionList G) ≤ length xbar_list →
     CGraph_pullback g xbar_list s =
     CGraph_pullback g (take (length (dependentFunctionList G)) xbar_list) s) ∧
  (length xbar_list < length (dependentFunctionList G) →
     (∃ e s', CGraph_pullback g xbar_list s = (Raise e, s') ∧
        bind (pullback_zero_init g) (λ _, pullback_seed g xbar_list) s = (Raise e, s')) ∧
     ∀ s1 s2,
       pullback_zero_init g s = (Ok tt, s1) →
       for_enumerate (take (length xbar_list) (dependentFunctionList G))
                     (seed_output xbar_list) s1 = (Ok tt, s2) →
       CGraph_pullback g xbar_list s = (Raise IndexError, s2)).
Proof.
  intros HG.
  assert (Hseed : ∀ xs s1, graphs s1 = graphs s →
            pullback_seed g xs s1 =
            for_enumerate_from 0 (dependentFunctionList G) (seed_output xs) s1).
  { intros xs s1 Hg. apply pullback_seed_unfold. by rewrite Hg. }
  split.
  - intros Hle. unfold CGraph_pullback.
    rewrite !(bind_ok _ _ _ _ _ (get_graph_some g G s HG)).
    destruct (length (dependentFunctionList G) =? 0)%nat; [done|].
    pose proof (pullback_zero_init_graphs g s) as Hg.
    destruct (pullback_zero_init g s) as [[[]|e] s1] eqn:Hz; simpl in Hg.
    + rewrite !(bind_ok _ _ _ _ _ Hz). unfold bind.
      rewrite !Hseed by done. by rewrite seeds_take by (simpl; lia).
    + by rewrite !(bind_raise _ _ _ _ _ Hz).
  - intros Hlt.
    assert (Hdep : dependentFunctionList G ≠ []).
    { intros Hnil. rewrite Hnil in Hlt. simpl in Hlt. lia. }
    rewrite (CGraph_pullback_unfold s g G xbar_list HG Hdep).
    assert (Hsplit : ∃ f rest, dependentFunctionList G =
              take (length xbar_list) (dependentFunctionList G) ++ f :: rest).
    { destruct (drop (length xbar_list) (dependentFunctionList G)) as [|f rest] eqn:Hdrop.
      - apply (f_equal length) in Hdrop. rewrite length_drop in Hdrop. simpl in Hdrop. lia.
      - exists f, rest. by rewrite <- Hdrop, take_drop. }
    destruct Hsplit as (f & rest & Hsplit).
    assert (Hlen : length (take (length xbar_list) (dependentFunctionList G))
                   = length xbar_list).
    { rewrite length_take. lia. }
    assert (Hrun : ∀ s1 s2, graphs s1 = graphs s →
      for_enumerate_from 0 (take (length xbar_list) (dependentFunctionList G))
                         (seed_output xbar_list) s1 = (Ok tt, s2) →
      pullback_seed g xbar_list s1 = (Raise IndexError, s2)).
    { intros s1 s2 Hg Hpre. rewrite Hseed by done. rewrite Hsplit at 1.
      rewrite for_enumerate_from_app. rewrite (bind_ok _ _ _ _ _ Hpre). simpl.
      apply bind_raise, seed_output_missing. lia. }
    pose proof (pullback_zero_init_graphs g s) as Hg.
    split.
    + destruct (pullback_zero_init g s) as [[[]|e] s1] eqn:Hz; simpl in Hg.
      * rewrite !(bind_ok _ _ _ _ _ Hz).
        destruct (for_enumerate_from 0 (take (length xbar_list) (dependentFunctionList G))
                    (seed_output xbar_list) s1) as [[[]|e] s2] eqn:Hpre.
        -- exists IndexError, s2.
           pose proof (Hrun s1 s2 Hg Hpre) as Hs.
           rewrite (bind_raise _ _ _ _ _ Hs). by split.
        -- exists e, s2.
           assert (Hs : pullback_seed g xbar_list s1 = (Raise e, s2)).
           { rewrite Hseed by done. rewrite Hsplit at 1.
             rewrite for_enumerate_from_app. by apply bind_raise. }
           rewrite (bind_raise _ _ _ _ _ Hs). by split.
      * exists e, s1. by rewrite !(bind_raise _ _ _ _ _ Hz).
    + intros s1 s2 Hz Hpre. rewrite Hz in Hg. simpl in Hg.
      rewrite (bind_ok _ _ _ _ _ Hz). apply bind_raise. by apply Hrun.
Qed.

(** ** A pullback starts afresh *)

Section Restart.
Variables (s0 : state) (L : list nat).
Hypothesis Hclosed : ∀ f a k, f ∈ L → args (get_obj s0 f) = Some a → k ∈ a → k ∈ L.

Local Abbreviation agree := (agree_on s0 L).
Local Abbreviation lockstep := (@lockstep obj s0 L).

Lemma lockstep_ret {A} (Q : A → Prop) a : Q a → lockstep Q (ret a).
Proof. intros Ha s t Hst. split; [done|]. split; [done|]. by intros ? [= <-]. Qed.

Lemma lockstep_raise {A} (Q : A → Prop) e : lockstep Q (raise e).
Proof. intros s t Hst. split; [done|]. split; [done|]. intros ? [=]. Qed.

Lemma lockstep_lift {A} (Q : A → Prop) (res : result A) :
  (∀ a, res = Ok a → Q a) → lockstep Q (lift res).
Proof. intros Hres s t Hst. split; [done|]. split; [done|]. exact Hres. Qed.

Lemma lockstep_bind {A B} (Q : A → Prop) (Q' : B → Prop) (m : M A) (k : A → M B) :
  lockstep Q m → (∀ a, Q a → lockstep Q' (k a)) → lockstep Q' (bind m k).
Proof.
  intros Hm Hk s t Hst. destruct (Hm s t Hst) as (Hres & Hag & HQ). unfold bind.
  destruct (m s) as [[a|e] s1], (m t) as [[a'|e'] t1]; simpl in *; try discriminate.
  - injection Hres as ->. apply Hk; [by apply HQ | done].
  - injection Hres as ->. split; [done|]. split; [done|]. intros ? [=].
Qed.

Lemma lockstep_getattr {A} (proj : Function → option A) f :
  (∀ s, same_up_to_adjoints s0 s → proj (get_obj s f) = proj (get_obj s0 f)) →
  lockstep (λ a, proj (get_obj s0 f) = Some a) (getattr proj f).
Proof.
  intros Hproj s t (Hs & Ht & Hx). unfold getattr.
  rewrite (Hproj s Hs), (Hproj t Ht).
  destruct (proj (get_obj s0 f)) as [a|]; simpl.
  - split; [done|]. split; [done|]. by intros ? [= <-].
  - split; [done|]. split; [done|]. intros ? [=].
Qed.

Lemma lockstep_getattr_x f :
  lockstep (λ a, x (get_obj s0 f) = Some a) (getattr x f).
Proof. apply lockstep_getattr. intros s [_ Hx]. apply Hx. Qed.

Lemma lockstep_getattr_args f :
  lockstep (λ a, args (get_obj s0 f) = Some a) (getattr args f).
Proof.
  apply lockstep_getattr. intros s [(_ & _ & _ & Hst) _].
  by destruct (structure_eq_inv _ _ (Hst f)) as (? & ? & ? & ?).
Qed.

Lemma lockstep_getattr_func f :
  lockstep (λ a, func (get_obj s0 f) = Some a) (getattr func f).
Proof.
  apply lockstep_getattr. intros s [(_ & _ & _ & Hst) _].
  by destruct (structure_eq_inv _ _ (Hst f)) as (? & ? & ? & ?).
Qed.

Lemma lockstep_getattr_funcargs f :
  lockstep (λ a, funcargs (get_obj s0 f) = Some a) (getattr funcargs f).
Proof.
  apply lockstep_getattr. intros s [(_ & _ & _ & Hst) _].
  by destruct (structure_eq_inv _ _ (Hst f)) as (? & ? & ? & ?).
Qed.

Lemma lockstep_getattr_xbar f : f ∈ L → lockstep (λ _, True) (getattr_xbar f).
Proof.
  intros Hf s t Hst. unfold getattr_xbar. simpl.
  destruct Hst as (Hs & Ht & Hx). rewrite (Hx f Hf).
  split; [done|]. split; [done|]. done.
Qed.

Lemma lockstep_set_xbar f v : lockstep (λ _, True) (update_obj f (set_xbar v)).
Proof.
  intros s t (Hs & Ht & Hx). simpl. split; [done|]. split; [|done].
  split; [|split].
  - eapply same_up_to_adjoints_trans; [exact Hs|]. apply (same_up_to_adjoints_set_xbar f v s).
  - eapply same_up_to_adjoints_trans; [exact Ht|]. apply (same_up_to_adjoints_set_xbar f v t).
  - intros r Hr. rewrite !get_obj_update. destruct (decide (r = f)); [done|by apply Hx].
Qed.

Lemma lockstep_list_getitem {A} (l : list A) n :
  lockstep (λ a, a ∈ l) (list_getitem l n).
Proof.
  intros s t Hst. unfold list_getitem. destruct (l !! n) as [a|] eqn:Hl; simpl.
  - split; [done|]. split; [done|]. intros ? [= <-]. by eapply list_elem_of_lookup_2.
  - split; [done|]. split; [done|]. intros ? [=].
Qed.

Lemma lockstep_eval_pb cls fname : lockstep (λ _, True) (eval_pb cls fname).
Proof.
  unfold eval_pb. destruct (pb_lookup cls fname); [by apply lockstep_ret|apply lockstep_raise].
Qed.

Lemma lockstep_true {A} (Q : A → Prop) (m : M A) :
  lockstep Q m → lockstep (λ _, True) m.
Proof.
  intros Hm s t Hst. destruct (Hm s t Hst) as (Hres & Hag & _). split; [done|]. by split.
Qed.

Lemma lockstep_for_each {A} (l : list A) body :
  (∀ a, a ∈ l → lockstep (λ _, True) (body a)) →
  lockstep (λ _, True) (for_each l body).
Proof.
  induction l as [|a l IH]; intros Hb; simpl; [by apply lockstep_ret|].
  eapply lockstep_bind; [apply Hb; by left|]. intros _ _. apply IH.
  intros b Hin. apply Hb. by right.
Qed.

Lemma lockstep_for_enumerate_from {A} n (l : list A) body :
  (∀ k a, a ∈ l → lockstep (λ _, True) (body k a)) →
  lockstep (λ _, True) (for_enumerate_from n l body).
Proof.
  revert n. induction l as [|a l IH]; intros n Hb; simpl; [by apply lockstep_ret|].
  eapply lockstep_bind; [apply Hb; by left|]. intros _ _. apply IH.
  intros k b Hin. apply Hb. by right.
Qed.

Lemma lockstep_list_comp {A B} (l : list A) (body : A → M B) :
  (∀ a, a ∈ l → lockstep (λ _, True) (body a)) →
  lockstep (λ _, True) (list_comp l body).
Proof.
  induction l as [|a l IH]; intros Hb; simpl; [by apply lockstep_ret|].
  eapply lockstep_bind; [apply Hb; by left|]. intros b _.
  eapply lockstep_bind; [apply IH; intros c Hin; apply Hb; by right|].
  intros bs _. by apply lockstep_ret.
Qed.

Lemma lockstep_call_pullback pb pargs out kw :
  lockstep (λ _, True) (call_pullback pb pargs out kw).
Proof.
  unfold call_pullback. eapply lockstep_bind; [by apply (lockstep_lift (λ _, True))|].
  intros writes _. apply lockstep_for_each. intros w _.
  destruct (bool_decide _); [apply lockstep_set_xbar | by apply lockstep_ret].
Qed.

Lemma lockstep_read_args (a : list nat) :
  (∀ k, k ∈ a → k ∈ L) →
  lockstep (λ _, True) (list_comp a (getattr x)) ∧
  lockstep (λ _, True)
    (list_comp a (λ Fa, bind (getattr_xbar Fa) (λ xb, ret (Fa, xb)))).
Proof.
  intros Ha. split.
  - apply lockstep_list_comp. intros k _. eapply lockstep_true, lockstep_getattr_x.
  - apply lockstep_list_comp. intros k Hk.
    eapply lockstep_bind; [apply lockstep_getattr_xbar; by apply Ha|].
    intros xb _. by apply lockstep_ret.
Qed.

Lemma lockstep_Function_pullback F :
  F ∈ L → lockstep (λ _, True) (Function_pullback F).
Proof.
  intros HF. unfold Function_pullback.
  eapply lockstep_bind; [apply lockstep_getattr_func|]. intros fn _.
  eapply lockstep_bind; [apply lockstep_getattr_x|]. intros xv _.
  assert (Hargs : ∀ B (k : list nat → M B),
    (∀ a, (∀ j, j ∈ a → j ∈ L) → lockstep (λ _, True) (k a)) →
    lockstep (λ _, True) (bind (getattr args F) k)).
  { intros B k Hk. eapply lockstep_bind; [apply lockstep_getattr_args|].
    intros a Ha. apply Hk. intros j Hj. by apply (Hclosed F a j). }
  destruct xv.
  all: apply Hargs; intros a Ha; destruct (lockstep_read_args a Ha) as [Hvals Hbars].
  all: eapply lockstep_bind; [exact Hvals|]; intros args_list _.
  all: apply Hargs; intros a' Ha'; destruct (lockstep_read_args a' Ha') as [_ Hbars'].
  all: eapply lockstep_bind; [exact Hbars'|]; intros argsbar_list _.
  all: eapply lockstep_bind; [by apply lockstep_getattr_xbar|]; intros ybar _.
  all: try (eapply lockstep_bind; [by apply (lockstep_lift (λ _, True))|]; intros ybars _).
  all: eapply lockstep_bind; [apply lockstep_getattr_funcargs|]; intros fa _.
  all: try (eapply lockstep_bind; [apply lockstep_list_getitem|]; intros y0 _).
  all: eapply lockstep_bind; [apply lockstep_eval_pb|]; intros pb _.
  all: eapply lockstep_bind; [apply lockstep_call_pullback|]; intros _ _.
  all: by apply lockstep_ret.
Qed.

Lemma lockstep_seed_output xbar_list nf f :
  f ∈ L → lockstep (λ _, True) (seed_output xbar_list nf f).
Proof.
  intros Hf. unfold seed_output.
  eapply lockstep_bind; [apply lockstep_list_getitem|]. intros v _.
  eapply lockstep_bind; [by apply lockstep_getattr_xbar|]. intros xb _.
  eapply lockstep_bind; [by apply (lockstep_lift (λ _, True))|]. intros xb' _.
  apply lockstep_set_xbar.
Qed.

End Restart.

Lemma lockstep_get_graph (s0 : state) (L : list nat) g :
  lockstep s0 L (λ G, graphs s0 !! g = Some G) (get_graph g).
Proof.
  intros s t Hst. pose proof Hst as ([(Hgs & _) _] & [(Hgt & _) _] & _).
  unfold get_graph. rewrite Hgs, Hgt.
  destruct (graphs s0 !! g) as [G|]; simpl.
  - split; [done|]. split; [done|]. by intros ? [= <-].
  - split; [done|]. split; [done|]. intros ? [=].
Qed.

Lemma agree_on_subseteq (s0 : state) (D D' : list nat) s t :
  (∀ r, r ∈ D' → r ∈ D) → agree_on s0 D s t → agree_on s0 D' s t.
Proof.
  intros Hsub (Hs & Ht & Hx). split; [done|]. split; [done|].
  intros r Hr. by apply Hx, Hsub.
Qed.

Lemma xbar_from_x_shape f xv :
  ∃ res : result value, ∀ s, x (get_obj s f) = Some xv →
    Function_xbar_from_x f s =
    match res with
    | Ok z => (Ok tt, write_obj f (set_xbar z) s)
    | Raise e => (Raise e, s)
    end.
Proof.
  destruct (isscalar xv) eqn:Hsc.
  - exists (Ok (VFloat float_zero)). intros s Hx. unfold Function_xbar_from_x.
    rewrite (bind_ok _ _ _ _ _ (getattr_some x f s xv Hx)). by rewrite Hsc.
  - destruct xv as [| | |vs| |]; try discriminate.
    + exists (Raise AttributeError). intros s Hx. unfold Function_xbar_from_x.
      by rewrite (bind_ok _ _ _ _ _ (getattr_some x f s VNone Hx)).
    + exists (match zeros_like_each vs with Ok zs => Ok (VTuple zs) | Raise e => Raise e end).
      intros s Hx. unfold Function_xbar_from_x.
      rewrite (bind_ok _ _ _ _ _ (getattr_some x f s (VTuple vs) Hx)). simpl.
      unfold bind, lift. by destruct (zeros_like_each vs).
    + exists (Ok (VObj (zeros_like o))). intros s Hx. unfold Function_xbar_from_x.
      by rewrite (bind_ok _ _ _ _ _ (getattr_some x f s (VObj o) Hx)).
    + exists (Raise AttributeError). intros s Hx. unfold Function_xbar_from_x.
      by rewrite (bind_ok _ _ _ _ _ (getattr_some x f s VNotSet Hx)).
Qed.

Lemma xbar_from_x_agree (s0 : state) (D : list nat) f s t :
  agree_on s0 D s t →
  (Function_xbar_from_x f t).1 = (Function_xbar_from_x f s).1 ∧
  ((Function_xbar_from_x f s).1 = Ok tt →
   agree_on s0 (f :: D) (Function_xbar_from_x f s).2 (Function_xbar_from_x f t).2).
Proof.
  intros (Hs & Ht & Hx).
  pose proof (proj2 Hs f) as Hxs. pose proof (proj2 Ht f) as Hxt.
  destruct (x (get_obj s0 f)) as [xv|] eqn:Hx0.
  - destruct (xbar_from_x_shape f xv) as [res Hres].
    rewrite (Hres s Hxs), (Hres t Hxt). destruct res as [z|e]; simpl; [|done].
    split; [done|]. intros _. split; [|split].
    + eapply same_up_to_adjoints_trans; [exact Hs|].
      apply (same_up_to_adjoints_set_xbar f z s).
    + eapply same_up_to_adjoints_trans; [exact Ht|].
      apply (same_up_to_adjoints_set_xbar f z t).
    + intros r Hr. rewrite !get_obj_update. destruct (decide (r = f)); [done|].
      apply Hx. apply elem_of_cons in Hr as [?|?]; done.
  - unfold Function_xbar_from_x, bind, getattr. rewrite Hxs, Hxt. done.
Qed.

Lemma zero_init_agree (s0 : state) l : ∀ (D : list nat) s t,
  agree_on s0 D s t →
  (for_each l Function_xbar_from_x t).1 = (for_each l Function_xbar_from_x s).1 ∧
  ((for_each l Function_xbar_from_x s).1 = Ok tt →
   agree_on s0 (l ++ D) (for_each l Function_xbar_from_x s).2
                        (for_each l Function_xbar_from_x t).2).
Proof.
  induction l as [|f l IH]; intros D s t Hst; [by split|].
  destruct (xbar_from_x_agree s0 D f s t Hst) as [Hres Hag].
  simpl. unfold bind.
  destruct (Function_xbar_from_x f s) as [[[]|e] s1], (Function_xbar_from_x f t) as [[[]|e'] t1];
    simpl in *; try discriminate; [|done].
  destruct (IH (f :: D) s1 t1 (Hag eq_refl)) as [Hres' Hag'].
  split; [done|]. intros Hok. eapply agree_on_subseteq; [|exact (Hag' Hok)].
  intros r Hr. rewrite elem_of_app, elem_of_cons in *. rewrite elem_of_app in Hr. tauto.
Qed.

(** X11. A pullback starts afresh.  In a graph whose dependent nodes
    and whose nodes' arguments are nodes of the graph, what
    [CGraph.pullback] returns or raises depends on the structure, the
    values and the seeds, not on the adjoints the store held before; and
    once the zero initialisation has gone through, neither do the
    adjoints it leaves at the nodes of the graph.  So calling it again on
    the same seeds gives the same adjoints: nothing accumulates from one
    call to the next. *)
Theorem pullback_starts_afresh s t g G xbar_list :
  graphs s !! g = Some G →
  (∀ d, d ∈ dependentFunctionList G → d ∈ functionList G) →
  (∀ f a k, f ∈ functionList G → args (get_obj s f) = Some a → k ∈ a →
            k ∈ functionList G) →
  same_up_to_adjoints s t →
  (CGraph_pullback g xbar_list t).1 = (CGraph_pullback g xbar_list s).1 ∧
  (dependentFunctionList G ≠ [] → (pullback_zero_init g s).1 = Ok tt →
   ∀ r, r ∈ functionList G →
     xbar (get_obj (CGraph_pullback g xbar_list t).2 r) =
     xbar (get_obj (CGraph_pullback g xbar_list s).2 r)) ∧
  (let s' := (CGraph_pullback g xbar_list s).2 in
   (CGraph_pullback g xbar_list s').1 = (CGraph_pullback g xbar_list s).1 ∧
   (dependentFunctionList G ≠ [] → (pullback_zero_init g s).1 = Ok tt →
    ∀ r, r ∈ functionList G →
      xbar (get_obj (CGraph_pullback g xbar_list s').2 r) = xbar (get_obj s' r))).
Proof.
  intros HG Hdeps Hclosed Hst.
  assert (Hcore : ∀ u, same_up_to_adjoints s u → dependentFunctionList G ≠ [] →
    (CGraph_pullback g xbar_list u).1 = (CGraph_pullback g xbar_list s).1 ∧
    ((pullback_zero_init g s).1 = Ok tt →
     agree_on s (functionList G) (CGraph_pullback g xbar_list s).2
                                 (CGraph_pullback g xbar_list u).2)).
  { clear t Hst. intros t Hst Hdep.
    assert (HGt : graphs t !! g = Some G) by (destruct Hst as [(-> & _) _]; done).
    rewrite (CGraph_pullback_unfold s g G xbar_list HG Hdep),
      (CGraph_pullback_unfold t g G xbar_list HGt Hdep).
    assert (Hrest : lockstep s (functionList G) (λ _, True)
              (bind (pullback_seed g xbar_list) (λ _, pullback_propagate g))).
    { eapply lockstep_bind.
      - unfold pullback_seed, for_enumerate.
        eapply lockstep_bind; [apply lockstep_get_graph|]. intros G' HG'.
        assert (G' = G) as -> by congruence.
        apply lockstep_for_enumerate_from. intros k d Hd.
        apply lockstep_seed_output. by apply Hdeps.
      - intros _ _. unfold pullback_propagate.
        eapply lockstep_bind; [apply lockstep_get_graph|]. intros G' HG'.
        assert (G' = G) as -> by congruence.
        apply lockstep_for_each. intros f Hf.
        apply list_elem_of_In, in_rev, list_elem_of_In in Hf.
        eapply lockstep_bind; [by apply lockstep_Function_pullback|].
        intros _ _. by apply lockstep_ret. }
    destruct (zero_init_agree s (functionList G) [] s t) as [Hres Hag].
    { split; [apply same_up_to_adjoints_refl|]. split; [exact Hst|].
      intros r Hr. by apply elem_of_nil in Hr. }
    rewrite <- (pullback_zero_init_unfold s g G HG),
      <- (pullback_zero_init_unfold t g G HGt) in Hres, Hag.
    destruct (pullback_zero_init g s) as [[[]|e] s1] eqn:Hzs;
      destruct (pullback_zero_init g t) as [[[]|e'] t1] eqn:Hzt;
      simpl in Hres, Hag; try discriminate.
    - rewrite !(bind_ok _ _ _ _ _ Hzs), !(bind_ok _ _ _ _ _ Hzt).
      destruct (Hrest s1 t1) as (Hr1 & Hr2 & _).
      { eapply agree_on_subseteq; [|exact (Hag eq_refl)].
        intros r Hr. apply elem_of_app. by left. }
      split; [exact Hr1|]. intros _. exact Hr2.
    - rewrite !(bind_raise _ _ _ _ _ Hzs), !(bind_raise _ _ _ _ _ Hzt).
      split; [exact Hres|]. simpl. intros [=]. }
  assert (Hresult : ∀ u, same_up_to_adjoints s u →
    (CGraph_pullback g xbar_list u).1 = (CGraph_pullback g xbar_list s).1).
  { intros u Hu.
    assert (HGu : graphs u !! g = Some G) by (destruct Hu as [(-> & _) _]; done).
    destruct (decide (dependentFunctionList G = [])) as [Hnil|Hdep].
    - unfold CGraph_pullback.
      rewrite (bind_ok _ _ _ _ _ (get_graph_some g G s HG)),
        (bind_ok _ _ _ _ _ (get_graph_some g G u HGu)).
      by rewrite Hnil.
    - by destruct (Hcore u Hu Hdep). }
  assert (Hadj : ∀ u, same_up_to_adjoints s u →
    dependentFunctionList G ≠ [] → (pullback_zero_init g s).1 = Ok tt →
    ∀ r, r ∈ functionList G →
      xbar (get_obj (CGraph_pullback g xbar_list u).2 r) =
      xbar (get_obj (CGraph_pullback g xbar_list s).2 r)).
  { intros u Hu Hdep Hz r Hr. destruct (Hcore u Hu Hdep) as [_ Hag].
    destruct (Hag Hz) as (_ & _ & Hx). by apply Hx. }
  pose proof (CGraph_pullback_frame g xbar_list s) as Hframe.
  split; [by apply Hresult|]. split; [by apply Hadj|].
  split; [by apply Hresult|]. by apply Hadj.
Qed.


(** ** Tracing evaluates what it records *)

Lemma forward_consistent_fields s s' f :
  forward_consistent s f →
  structure (get_obj s' f) = structure (get_obj s f) →
  x (get_obj s' f) = x (get_obj s f) →
  (∀ k w, x (get_obj s k) = Some w → x (get_obj s' k) = Some w) →
  forward_consistent s' f.
Proof.
  intros (fn & a & fa & vs & v & Hfn & Ha & Hfa & Hvs & Hv & Hcall) Hst Hx Hargs.
  apply structure_eq_inv in Hst as (Hsa & Hsf & _ & Hsfa).
  exists fn, a, fa, vs, v.
  split; [congruence|]. split; [congruence|]. split; [congruence|].
  split; [|split; [congruence|done]].
  eapply Forall2_impl; [exact Hvs|]. intros k w Hk. by apply Hargs.
Qed.

Lemma Function_push_forward_record_cases fn Fargs fa s :
  (Function_push_forward fn Fargs None fa s).2 = s ∨
  ∃ vs out, Forall2 (λ k w, x (get_obj s k) = Some w) Fargs vs ∧
    call fn (vs ++ fa) = Ok out ∧
    (Function_push_forward fn Fargs None fa s).2 =
    (Function_create out Fargs fn (Some (next_ref s)) fa (allocate s).2).2.
Proof.
  destruct (list_comp Fargs (getattr x) s) as [[vs|e] s1] eqn:Hl.
  - apply list_comp_read_ok_inv in Hl as Hl'. destruct Hl' as [-> Hvs].
    destruct (call fn (vs ++ fa)) as [out|e] eqn:Hcall.
    + right. exists vs, out. split; [done|]. split; [done|].
      unfold Function_push_forward.
      rewrite (bind_ok _ _ _ _ _ Hl). unfold bind at 1, lift. rewrite Hcall.
      by rewrite Function_create_fresh.
    + left. unfold Function_push_forward.
      rewrite (bind_ok _ _ _ _ _ Hl). unfold bind, lift. by rewrite Hcall.
  - pose proof (list_comp_read_state x Fargs s) as Hst. rewrite Hl in Hst. simpl in Hst.
    subst s1. left. unfold Function_push_forward. by rewrite (bind_raise _ _ _ _ _ Hl).
Qed.

Section Evaluated.

Local Abbreviation evaluated := (@evaluated obj).

Lemma evaluated_same_objects s s' :
  (∀ r, get_obj s' r = get_obj s r) → evaluated s → evaluated s'.
Proof.
  intros Hget Hs f Hf. rewrite Hget in Hf.
  apply (forward_consistent_fields s s' f (Hs f Hf)); [by rewrite Hget..|].
  intros k w. by rewrite Hget.
Qed.

Lemma evaluated_create s xv fargs fn fa :
  wf s → evaluated s →
  (∃ vs, Forall2 (λ k w, x (get_obj s k) = Some w) fargs vs ∧ call fn (vs ++ fa) = Ok xv) ∨
  (fargs = [next_ref s] ∧ fn = Function_Id ∧ fa = []) →
  evaluated (Function_create xv fargs fn (Some (next_ref s)) fa (allocate s).2).2.
Proof.
  intros Hwf Hs Hnew.
  destruct (wf_fresh s Hwf (next_ref s) (le_n _)) as [Hxn Han].
  assert (Hother : ∀ r, r ≠ next_ref s →
    get_obj (Function_create xv fargs fn (Some (next_ref s)) fa (allocate s).2).2 r
    = get_obj s r).
  { intros r Hr.
    destruct (Function_create_other (allocate s).2 xv fargs fn (next_ref s) fa r) as [_ Hget].
    by rewrite Hget. }
  assert (Hvals : ∀ k w, x (get_obj s k) = Some w →
    x (get_obj (Function_create xv fargs fn (Some (next_ref s)) fa (allocate s).2).2 k)
    = Some w).
  { intros k w Hk. rewrite Hother; [done|]. intros ->. congruence. }
  intros f Hf. destruct (decide (f = next_ref s)) as [->|Hne].
  - destruct (Function_create_fields (allocate s).2 xv fargs fn (next_ref s) fa)
      as (Hx & Ha & Hfn).
    assert (Hfa : funcargs
      (get_obj (Function_create xv fargs fn (Some (next_ref s)) fa (allocate s).2).2
         (next_ref s)) = Some fa).
    { revert Hf. clear Hx Ha Hfn Hother Hvals.
      destruct (cgraph s) as [g|] eqn:Hc; [destruct (graphs s !! g) as [G|] eqn:HG|].
      - rewrite (Function_create_bound (allocate s).2 xv fargs fn (next_ref s) fa g G Hc HG).
        simpl. unfold get_obj; simpl. by rewrite lookup_insert_eq.
      - rewrite (Function_create_dangling (allocate s).2 xv fargs fn (next_ref s) fa g Hc HG).
        simpl. unfold get_obj at 1 3; simpl. rewrite !lookup_insert_eq. simpl.
        intros Hf. specialize (Hs (next_ref s) Hf).
        destruct Hs as (? & a & ? & ? & ? & _ & Ha & _). congruence.
      - rewrite (Function_create_unbound (allocate s).2 xv fargs fn (next_ref s) fa Hc).
        simpl. unfold get_obj; simpl. by rewrite lookup_insert_eq. }
    destruct Hnew as [(vs & Hvs & Hcall)|(-> & -> & ->)].
    + exists fn, fargs, fa, vs, xv.
      split; [done|]. split; [done|]. split; [done|]. split; [|done].
      eapply Forall2_impl; [exact Hvs|]. intros k w Hk. by apply Hvals.
    + exists Function_Id, [next_ref s], [], [xv], xv.
      split; [done|]. split; [done|]. split; [done|]. split; [|done].
      by repeat constructor.
  - rewrite Hother in Hf by done.
    apply (forward_consistent_fields s _ f (Hs f Hf)); [by rewrite Hother..|exact Hvals].
Qed.

Lemma run_call_evaluated (c : api_call obj) s :
  wf s → is_push_forward c = false → evaluated s → evaluated (run_call c s).
Proof.
  intros Hwf Hc Hs. destruct c as [|xv|fn Fargs fa|g l|g l|g x_list|g xbar_list];
    unfold run_call; try discriminate.
  - by apply (evaluated_same_objects s).
  - assert (xv = VNone ∨ xv ≠ VNone) as [->|Hxv] by (destruct xv; auto).
    { by apply (evaluated_same_objects s). }
    rewrite Function_init_state by done. apply evaluated_create; [done|done|by right].
  - destruct (Function_push_forward_record_cases fn Fargs fa s)
      as [->|(vs & out & Hvs & Hcall & ->)]; [done|].
    apply evaluated_create; [done|done|]. left. by exists vs.
  - apply (evaluated_same_objects s); [|done]. intros r.
    unfold set_independent, bind, get_graph. by destruct (graphs s !! g).
  - apply (evaluated_same_objects s); [|done]. intros r.
    unfold set_dependent, bind, get_graph. by destruct (graphs s !! g).
  - destruct (CGraph_pullback_frame g xbar_list s) as [(_ & _ & _ & Hstr) Hx].
    intros f Hf. specialize (Hstr f) as Hstrf.
    apply structure_eq_inv in Hstrf as (_ & _ & _ & Hfa). rewrite Hfa in Hf.
    apply (forward_consistent_fields s _ f (Hs f Hf)); [apply Hstr|apply Hx|].
    intros k w Hk. by rewrite Hx.
Qed.

Lemma run_calls_evaluated (cs : list (api_call obj)) : ∀ s,
  wf s → forallb (λ c, negb (is_push_forward c)) cs = true →
  evaluated s → evaluated (run_calls cs s).
Proof.
  induction cs as [|c cs IH]; intros s Hwf Hcs Hs; [done|].
  simpl in Hcs. apply andb_prop in Hcs as [Hc Hcs]. simpl.
  apply IH; [by apply run_call_wf | done |].
  apply run_call_evaluated; [done| |done]. by destruct (is_push_forward c).
Qed.

End Evaluated.


End Theory.

(** * Properties of the tracer with a node as [Fargs] *)

Section NodeArgs.
Context {obj : Type} {alg : Algebra obj}.
Import AnyArgs.

Local Abbreviation value := (value obj).
Local Abbreviation callable := (callable obj).
Local Abbreviation state := (AnyArgs.state obj).
Local Abbreviation M := (AnyArgs.M obj).

Variable class_attr : value → string → option callable.

Lemma node_get_obj_write (s : state) f upd r :
  get_obj (write_obj f upd s) r = if decide (r = f) then upd (get_obj s f) else get_obj s r.
Proof.
  unfold get_obj, write_obj. simpl. destruct (decide (r = f)) as [->|Hne].
  - by rewrite lookup_insert_eq.
  - by rewrite lookup_insert_ne.
Qed.

Section Framed.
Variable R : state → state → Prop.
Hypothesis R_refl : ∀ s, R s s.
Hypothesis R_trans : ∀ s1 s2 s3, R s1 s2 → R s2 s3 → R s1 s3.
Hypothesis R_args : ∀ s s', R s s' → ∀ r, args (get_obj s' r) = args (get_obj s r).
Hypothesis R_xbar : ∀ s f v, R s (write_obj f (set_xbar v) s).

Lemma R_tuple_store s s' : R s s' → tuple_store s → tuple_store s'.
Proof. intros HR Ht r b. rewrite (R_args _ _ HR). apply Ht. Qed.

Lemma framed_read {A} (m : M A) : (∀ s, ∃ r, m s = Some (r, s)) → framed R m.
Proof. intros Hm s _. destruct (Hm s) as [r Hr]. by exists r, s. Qed.

Lemma framed_ret {A} (a : A) : framed R (ret a).
Proof. apply framed_read. intros s. by eexists. Qed.

Lemma framed_raise {A} e : framed R (@raise obj A e).
Proof. apply framed_read. intros s. by eexists. Qed.

Lemma framed_lift {A} (r : result A) : framed R (lift r).
Proof. apply framed_read. intros s. by eexists. Qed.

Lemma framed_getattr {A} (proj : Function obj → option A) f : framed R (getattr proj f).
Proof.
  apply framed_read. intros s. unfold getattr. destruct (proj (get_obj s f)); by eexists.
Qed.

Lemma framed_getattr_xbar f : framed R (getattr_xbar f).
Proof. apply framed_read. intros s. by eexists. Qed.

Lemma framed_get_graph g : framed R (get_graph g).
Proof.
  apply framed_read. intros s. unfold get_graph. destruct (graphs s !! g); by eexists.
Qed.

Lemma framed_list_getitem {A} (l : list A) n : framed R (list_getitem l n).
Proof. unfold list_getitem. destruct (l !! n); [apply framed_ret | apply framed_raise]. Qed.

Lemma framed_eval_pb cls fname : framed R (eval_pb cls fname).
Proof. unfold eval_pb. destruct (pb_lookup cls fname); [apply framed_ret | apply framed_raise]. Qed.

Lemma framed_update_xbar f v : framed R (update_obj f (set_xbar v)).
Proof. intros s _. by exists (Ok tt), (write_obj f (set_xbar v) s). Qed.

Lemma framed_bind {A B} (m : M A) (k : A → M B) :
  framed R m → (∀ a, framed R (k a)) → framed R (bind m k).
Proof.
  intros Hm Hk s Ht. destruct (Hm s Ht) as ([a|e] & s1 & Hs1 & HR1); unfold bind; rewrite Hs1.
  - destruct (Hk a s1 (R_tuple_store _ _ HR1 Ht)) as (r & s2 & Hs2 & HR2).
    exists r, s2. split; [done|]. by apply (R_trans _ s1).
  - by exists (Raise e), s1.
Qed.

(** In a store of tuples the attribute [args], when it reads, is a tuple. *)
Lemma framed_bind_args {B} f (k : fargs → M B) :
  (∀ l, framed R (k (ArgsTuple l))) → framed R (bind (getattr args f) k).
Proof.
  intros Hk s Ht. unfold bind, getattr.
  destruct (args (get_obj s f)) as [[l|b]|] eqn:Ha.
  - by apply Hk.
  - by destruct (Ht f b).
  - by exists (Raise AttributeError), s.
Qed.

Lemma framed_for_each {A} (l : list A) (body : A → M unit) :
  (∀ a, framed R (body a)) → framed R (for_each l body).
Proof.
  intros Hb. induction l as [|a l IH]; simpl; [apply framed_ret|].
  apply framed_bind; [apply Hb|]. intros _. apply IH.
Qed.

Lemma framed_for_enumerate_from {A} (l : list A) (body : nat → A → M unit) : ∀ n,
  (∀ n a, framed R (body n a)) → framed R (for_enumerate_from n l body).
Proof.
  induction l as [|a l IH]; intros n Hb; simpl; [apply framed_ret|].
  apply framed_bind; [apply Hb|]. intros _. by apply IH.
Qed.

Lemma framed_list_comp {A B} (l : list A) (g : A → M B) :
  (∀ a, framed R (g a)) → framed R (list_comp l g).
Proof.
  intros Hg. induction l as [|a l IH]; simpl; [apply framed_ret|].
  apply framed_bind; [apply Hg|]. intros b.
  apply framed_bind; [apply IH|]. intros bs. apply framed_ret.
Qed.

Lemma framed_xbar_from_x f : framed R (Function_xbar_from_x f).
Proof.
  unfold Function_xbar_from_x. apply framed_bind; [apply framed_getattr|]. intros xv.
  destruct (isscalar xv); [apply framed_update_xbar|].
  destruct xv;
    (apply framed_bind; [apply framed_lift|]; intros ?; apply framed_update_xbar).
Qed.

Lemma framed_seed_output xbar_list nf f : framed R (seed_output xbar_list nf f).
Proof.
  unfold seed_output.
  apply framed_bind; [apply framed_list_getitem|]. intros v.
  apply framed_bind; [apply framed_getattr_xbar|]. intros xb.
  apply framed_bind; [apply framed_lift|]. intros xb'.
  apply framed_update_xbar.
Qed.

Lemma framed_call_pullback pb pargs out kw : framed R (call_pullback pb pargs out kw).
Proof.
  unfold call_pullback. apply framed_bind; [apply framed_lift|]. intros writes.
  apply framed_for_each. intros w.
  destruct (bool_decide _); [apply framed_update_xbar | apply framed_ret].
Qed.

(** The comprehensions of [Function.pullback] over a tuple only read. *)
Lemma framed_comp_tuple {B} fuel l (g : ref → M B) :
  (∀ a, framed R (g a)) → framed R (comp_args class_attr fuel (ArgsTuple l) g).
Proof. intros Hg. simpl. by apply framed_list_comp. Qed.

Lemma framed_Function_pullback fuel F : framed R (Function_pullback class_attr fuel F).
Proof.
  assert (Hx : ∀ l, framed R (comp_args class_attr fuel (ArgsTuple l) (getattr x))).
  { intros l. apply framed_comp_tuple. intros a. apply framed_getattr. }
  assert (Hxbar : ∀ l, framed R (comp_args class_attr fuel (ArgsTuple l)
                          (λ Fa, bind (getattr_xbar Fa) (λ xb, ret (Fa, xb))))).
  { intros l. apply framed_comp_tuple. intros a.
    apply framed_bind; [apply framed_getattr_xbar|]. intros xb. apply framed_ret. }
  unfold Function_pullback.
  apply framed_bind; [apply framed_getattr|]. intros fn.
  apply framed_bind; [apply framed_getattr|]. intros xv.
  destruct xv;
    (apply framed_bind_args; intros l1;
     apply framed_bind; [apply Hx|]; intros args_list;
     apply framed_bind_args; intros l2;
     apply framed_bind; [apply Hxbar|]; intros argsbar_list;
     apply framed_bind; [apply framed_getattr_xbar|]; intros ybar;
     repeat first
       [ apply framed_ret
       | apply framed_call_pullback
       | apply framed_bind;
         [first [ apply framed_lift | apply framed_getattr | apply framed_list_getitem
                | apply framed_eval_pb | apply framed_call_pullback ]
         | intros ? ] ]).
Qed.

Lemma framed_CGraph_pullback fuel g xbar_list :
  framed R (CGraph_pullback class_attr fuel g xbar_list).
Proof.
  unfold CGraph_pullback. apply framed_bind; [apply framed_get_graph|]. intros G.
  destruct (length (dependentFunctionList G) =? 0)%nat; [apply framed_raise|].
  apply framed_bind.
  { unfold pullback_zero_init. apply framed_bind; [apply framed_get_graph|]. intros G1.
    apply framed_for_each. intros f. apply framed_xbar_from_x. }
  intros _. apply framed_bind.
  { unfold pullback_seed. apply framed_bind; [apply framed_get_graph|]. intros G1.
    apply framed_for_enumerate_from. intros n f. apply framed_seed_output. }
  intros _. unfold pullback_propagate.
  apply framed_bind; [apply framed_get_graph|]. intros G1.
  apply framed_for_each. intros f.
  apply framed_bind; [apply framed_Function_pullback|]. intros _. apply framed_ret.
Qed.

Section Forward.
Hypothesis R_x : ∀ s f v, R s (write_obj f (set_x v) s).

Lemma framed_update_x f v : framed R (update_obj f (set_x v)).
Proof. intros s _. by exists (Ok tt), (write_obj f (set_x v) s). Qed.

Lemma framed_assign_input x_list nf f : framed R (assign_input class_attr x_list nf f).
Proof.
  unfold assign_input. apply framed_bind; [apply framed_list_getitem|]. intros v.
  apply framed_bind_args. intros l. simpl.
  apply framed_bind; [apply framed_list_getitem|]. intros a0. apply framed_update_x.
Qed.

Lemma framed_replay_node f : framed R (replay_node f).
Proof.
  unfold replay_node. apply framed_bind; [apply framed_getattr|]. intros fn.
  apply framed_bind_args. intros l.
  apply framed_bind; [apply framed_getattr|]. intros fa.
  apply framed_bind; [|intros _; apply framed_ret].
  unfold Function_push_forward. simpl.
  apply framed_bind.
  { apply framed_bind; [|intros vs; apply framed_lift].
    apply framed_list_comp. intros a. apply framed_getattr. }
  intros out. apply framed_bind; [apply framed_update_x|]. intros _. apply framed_ret.
Qed.

Lemma framed_CGraph_push_forward g x_list :
  framed R (CGraph_push_forward class_attr g x_list).
Proof.
  unfold CGraph_push_forward. apply framed_bind.
  { unfold push_forward_inputs. apply framed_bind; [apply framed_get_graph|]. intros G.
    apply framed_for_enumerate_from. intros n f. apply framed_assign_input. }
  intros _. unfold push_forward_traverse.
  apply framed_bind; [apply framed_get_graph|]. intros G.
  apply framed_for_each. intros f. apply framed_replay_node.
Qed.

End Forward.
End Framed.

Lemma node_same_structure_refl (s : state) : same_structure s s.
Proof. done. Qed.

Lemma node_same_structure_trans (s1 s2 s3 : state) :
  same_structure s1 s2 → same_structure s2 s3 → same_structure s1 s3.
Proof.
  intros (Hg1 & Hc1 & Hn1 & H1) (Hg2 & Hc2 & Hn2 & H2).
  split; [congruence|]. split; [congruence|]. split; [congruence|].
  intros r. destruct (H1 r) as (? & ? & ? & ?), (H2 r) as (? & ? & ? & ?).
  repeat split; congruence.
Qed.

Lemma node_same_structure_write (s : state) f upd :
  (∀ o, func (upd o) = func o ∧ args (upd o) = args o ∧
        funcargs (upd o) = funcargs o ∧ ID (upd o) = ID o) →
  same_structure s (write_obj f upd s).
Proof.
  intros Hupd. split; [done|]. split; [done|]. split; [done|].
  intros r. rewrite node_get_obj_write. destruct (decide (r = f)) as [->|]; [apply Hupd|done].
Qed.

(** X18. In a store none of whose nodes has a node as [args], the two
    replays have an outcome within any bound on the iterations, and
    whatever the outcome every graph object (node list, count, independent
    and dependent lists) and every node's [func], [args], [funcargs] and
    [ID] are as they were; [pullback] moreover leaves every value. *)
Theorem replays_keep_structure_of_tuples s fuel g x_list xbar_list :
  tuple_store s →
  (∃ r s', CGraph_push_forward class_attr g x_list s = Some (r, s') ∧
           same_structure s s') ∧
  (∃ r s', CGraph_pullback class_attr fuel g xbar_list s = Some (r, s') ∧
           same_structure s s' ∧ same_values s s').
Proof.
  intros Ht.
  assert (Hargs : ∀ s1 s2 : state, same_structure s1 s2 →
            ∀ r, args (get_obj s2 r) = args (get_obj s1 r)).
  { intros s1 s2 (_ & _ & _ & H) r. by destruct (H r) as (_ & ? & _). }
  assert (Hxbar : ∀ (s1 : state) f v, same_structure s1 (write_obj f (set_xbar v) s1)).
  { intros s1 f v. by apply node_same_structure_write. }
  assert (Hx : ∀ (s1 : state) f v, same_structure s1 (write_obj f (set_x v) s1)).
  { intros s1 f v. by apply node_same_structure_write. }
  split.
  - exact (framed_CGraph_push_forward same_structure node_same_structure_refl
             node_same_structure_trans Hargs Hx g x_list s Ht).
  - set (R := λ s1 s2 : state, same_structure s1 s2 ∧ same_values s1 s2).
    assert (Hrefl : ∀ s1, R s1 s1) by done.
    assert (Htrans : ∀ s1 s2 s3, R s1 s2 → R s2 s3 → R s1 s3).
    { intros s1 s2 s3 [H1 Hx1] [H2 Hx2].
      split; [by apply (node_same_structure_trans _ s2)|].
      intros r. by rewrite Hx2. }
    assert (HRargs : ∀ s1 s2, R s1 s2 → ∀ r, args (get_obj s2 r) = args (get_obj s1 r)).
    { intros s1 s2 [H _]. by apply Hargs. }
    assert (HRxbar : ∀ s1 f v, R s1 (write_obj f (set_xbar v) s1)).
    { intros s1 f v. split; [apply Hxbar|].
      intros r. rewrite node_get_obj_write. by destruct (decide (r = f)) as [->|]. }
    destruct (framed_CGraph_pullback R Hrefl Htrans HRargs HRxbar fuel g xbar_list s Ht)
      as (r & s' & Hrun & Hstr & Hval).
    by exists r, s'.
Qed.

End NodeArgs.

(** * Properties of the decorator *)

Section Basecase.
Import NthDeriv.

Lemma basecase_ok_inv fz dom ex wrap :
  basecase fz dom ex = Ok wrap →
  ∀ f, apply_derivative (wrap f) = wrapped_f fz f.
Proof.
  unfold basecase. destruct (bool_decide _); [|discriminate].
  intros [= <-] f. done.
Qed.

(** C7. A function made by [basecase], called with a negative integer
    order [n], raises [ValueError] without calling the zeroth-derivative
    function or the decorated derivative. *)
Theorem basecase_negative_order fz dom ex wrap f args (kwargs : gmap string pyval) z :
  basecase fz dom ex = Ok wrap →
  kwargs !! "n" = Some (PInt z) → (z < 0)%Z →
  ∃ msg, apply_derivative (wrap f) args kwargs = ([], Raise (ValueError msg)).
Proof.
  intros Hwrap Hn Hz. rewrite (basecase_ok_inv fz dom ex wrap Hwrap).
  unfold wrapped_f, dict_pop. rewrite lookup_delete_ne by done. rewrite Hn. simpl.
  destruct (bool_decide _); simpl; [|by eexists].
  assert (Hneg : (z <? 0)%Z = true) by by apply Z.ltb_lt.
  rewrite Hneg. by eexists.
Qed.

(** C8. A function made by [basecase], called with [n = 0] or without
    [n] (and no keyword other than [out] and [n]), makes exactly one call,
    to the zeroth-derivative function on the same positional arguments,
    passing [out] when one is given, and returns what that call returns. *)
Theorem basecase_order_zero fz dom ex wrap f args (kwargs : gmap string pyval) :
  basecase fz dom ex = Ok wrap →
  kwargs !! "n" = None ∨ kwargs !! "n" = Some (PInt 0) →
  (∀ key, is_Some (kwargs !! key) → key = "out" ∨ key = "n") →
  apply_derivative (wrap f) args kwargs =
  match kwargs !! "out" with
  | None | Some PNone => ([CallZeroth args None], zeroth_call fz args None)
  | Some out => ([CallZeroth args (Some out)], zeroth_call fz args (Some out))
  end.
Proof.
  intros Hwrap Hn Hkeys. rewrite (basecase_ok_inv fz dom ex wrap Hwrap).
  unfold wrapped_f, dict_pop. rewrite lookup_delete_ne by done.
  assert (Hrest : delete "n" (delete "out" kwargs) = ∅).
  { apply map_eq. intros key. rewrite lookup_empty.
    destruct (decide (key = "n")) as [->|Hne]; [by rewrite lookup_delete_eq|].
    rewrite lookup_delete_ne by done.
    destruct (decide (key = "out")) as [->|Hne']; [by rewrite lookup_delete_eq|].
    rewrite lookup_delete_ne by done.
    destruct (kwargs !! key) eqn:Hk; [|done].
    destruct (Hkeys key) as [?|?]; [by eexists|done|done]. }
  rewrite Hrest, dom_empty_L. rewrite bool_decide_eq_true_2 by done. simpl.
  assert (Hzero : default (PInt 0) (kwargs !! "n") = PInt 0)
    by (destruct Hn as [-> | ->]; done).
  rewrite Hzero. simpl.
  destruct (kwargs !! "out") as [[| | |]|]; done.
Qed.

(** ** The other branches of [wrapped_f] *)

Lemma only_out_and_n (kwargs : gmap string pyval) :
  (∀ key, is_Some (kwargs !! key) → key = "out" ∨ key = "n") →
  delete "n" (delete "out" kwargs) = ∅.
Proof.
  intros Hkeys. apply map_eq. intros key. rewrite lookup_empty.
  destruct (decide (key = "n")) as [->|Hne]; [by rewrite lookup_delete_eq|].
  rewrite lookup_delete_ne by done.
  destruct (decide (key = "out")) as [->|Hne']; [by rewrite lookup_delete_eq|].
  rewrite lookup_delete_ne by done.
  destruct (kwargs !! key) eqn:Hk; [|done].
  destruct (Hkeys key) as [?|?]; [by eexists|done|done].
Qed.

Lemma wrapped_f_positive_order fz f args (kwargs : gmap string pyval) z :
  kwargs !! "n" = Some (PInt z) → (0 < z)%Z →
  (∀ key, is_Some (kwargs !! key) → key = "out" ∨ key = "n") →
  wrapped_f fz f args kwargs =
  ([CallDeriv args (default PNone (kwargs !! "out")) (PInt z)],
   f args (default PNone (kwargs !! "out")) (PInt z)).
Proof.
  intros Hn Hz Hkeys. unfold wrapped_f, dict_pop. rewrite lookup_delete_ne by done.
  rewrite (only_out_and_n kwargs Hkeys), dom_empty_L.
  rewrite bool_decide_eq_true_2 by done. rewrite Hn. simpl.
  assert (Hlt : (z <? 0)%Z = false) by (apply Z.ltb_ge; lia).
  assert (Hne : (z =? 0)%Z = false) by (apply Z.eqb_neq; lia).
  by rewrite Hlt, Hne.
Qed.

(** X12. A function made by [basecase] accepts the keywords [out] and [n]
    only: with any other keyword it raises [ValueError] before it looks at
    [n] and without calling the zeroth-derivative function or the decorated
    derivative. *)
Theorem basecase_unexpected_keyword fz dom ex wrap f args (kwargs : gmap string pyval) key :
  basecase fz dom ex = Ok wrap →
  is_Some (kwargs !! key) → key ≠ "out" → key ≠ "n" →
  apply_derivative (wrap f) args kwargs =
  ([], Raise (ValueError "unexpected keyword args")).
Proof.
  intros Hwrap [v Hv] Hout Hn. rewrite (basecase_ok_inv fz dom ex wrap Hwrap).
  unfold wrapped_f, dict_pop.
  rewrite bool_decide_eq_false_2; [done|].
  intros Hdom. apply dom_empty_iff_L in Hdom.
  apply (f_equal (λ m : gmap string pyval, m !! key)) in Hdom. simpl in Hdom.
  rewrite !lookup_delete_ne, lookup_empty in Hdom by done. congruence.
Qed.

(** X13. A function made by [basecase], called with a positive integer
    order [n] (and no keyword other than [out] and [n]), makes exactly one
    call, to the decorated derivative on the same positional arguments
    with the keywords [out] ([None] when it was not given) and [n], and
    returns what that call returns; the zeroth-derivative function is not
    called. *)
Theorem basecase_positive_order fz dom ex wrap f args (kwargs : gmap string pyval) z :
  basecase fz dom ex = Ok wrap →
  kwargs !! "n" = Some (PInt z) → (0 < z)%Z →
  (∀ key, is_Some (kwargs !! key) → key = "out" ∨ key = "n") →
  apply_derivative (wrap f) args kwargs =
  match kwargs !! "out" with
  | None => ([CallDeriv args PNone (PInt z)], f args PNone (PInt z))
  | Some out => ([CallDeriv args out (PInt z)], f args out (PInt z))
  end.
Proof.
  intros Hwrap Hn Hz Hkeys. rewrite (basecase_ok_inv fz dom ex wrap Hwrap).
  rewrite (wrapped_f_positive_order fz f args kwargs z Hn Hz Hkeys).
  by destruct (kwargs !! "out").
Qed.

(** ** Decorated functions *)

Import Derivatives.

Lemma np_filled_like_shape (a : list spec_float) c (out : option pyval) :
  out = None ∨ out = Some PNone ∨ (∃ b, out = Some (PArray b)) →
  np_filled_like (PArray a) c (default PNone out) =
  Ok (PArray ((λ _, c) <$> match out with Some (PArray b) => b | _ => a end)).
Proof. intros [->|[->|[b ->]]]; done. Qed.

Lemma negative_body_order (xv out : pyval) z :
  negative_body [xv] out (PInt z) =
  np_filled_like xv (if (z =? 1)%Z then float_minus_one else float_zero) out.
Proof. unfold negative_body. by destruct z as [|[p|p|]|p]. Qed.

(** X14. Derivatives of the piecewise constant and the polynomial
    functions, on an array [x].  For [rint], [fix], [floor], [ceil],
    [trunc] and [sign] every derivative of order at least 1 is zero; so
    are those of [absolute] and [negative] from order 2 and those of
    [square] from order 3.  The first derivative of [negative] is the
    constant [-1.] and the second derivative of [square] the constant
    [2.].  The result has the shape of [x], or is the array [out] filled
    in place when one is given. *)
Theorem derivatives_above_degree fz dom ex wrap (np_sign np_multiply : zeroth_function)
    (a : list spec_float) (kwargs : gmap string pyval) z :
  basecase fz dom ex = Ok wrap →
  kwargs !! "n" = Some (PInt z) →
  (∀ key, is_Some (kwargs !! key) → key = "out" ∨ key = "n") →
  kwargs !! "out" = None ∨ kwargs !! "out" = Some PNone ∨
    (∃ b, kwargs !! "out" = Some (PArray b)) →
  let shape := match kwargs !! "out" with Some (PArray b) => b | _ => a end in
  let filled c body :=
    (apply_derivative (wrap body) [PArray a] kwargs).2 = Ok (PArray ((λ _, c) <$> shape)) in
  ((1 ≤ z)%Z →
     filled float_zero rint_body ∧ filled float_zero fix_body ∧
     filled float_zero floor_body ∧ filled float_zero ceil_body ∧
     filled float_zero trunc_body ∧ filled float_zero sign_body) ∧
  ((2 ≤ z)%Z →
     filled float_zero (absolute_body np_sign) ∧ filled float_zero negative_body) ∧
  ((3 ≤ z)%Z → filled float_zero (square_body np_multiply)) ∧
  (z = 1%Z → filled float_minus_one negative_body) ∧
  (z = 2%Z → filled float_two (square_body np_multiply)).
Proof.
  intros Hwrap Hn Hkeys Hout shape filled.
  assert (Hrun : ∀ body, (0 < z)%Z →
            (apply_derivative (wrap body) [PArray a] kwargs).2 =
            body [PArray a] (default PNone (kwargs !! "out")) (PInt z)).
  { intros body Hz. rewrite (basecase_ok_inv fz dom ex wrap Hwrap).
    by rewrite (wrapped_f_positive_order fz body [PArray a] kwargs z Hn Hz Hkeys). }
  assert (Hfill : ∀ c, np_filled_like (PArray a) c (default PNone (kwargs !! "out")) =
                       Ok (PArray ((λ _, c) <$> shape))).
  { intros c. by apply np_filled_like_shape. }
  split; [|split; [|split; [|split]]].
  - intros Hz. unfold filled.
    rewrite !Hrun by lia. unfold rint_body, fix_body, floor_body, ceil_body, trunc_body,
      sign_body. by rewrite Hfill.
  - intros Hz. unfold filled. rewrite !Hrun by lia. split.
    + unfold absolute_body, eq_const.
      assert ((z =? 1)%Z = false) as -> by (apply Z.eqb_neq; lia). apply Hfill.
    + rewrite negative_body_order.
      assert ((z =? 1)%Z = false) as -> by (apply Z.eqb_neq; lia). apply Hfill.
  - intros Hz. unfold filled. rewrite Hrun by lia. unfold square_body, eq_const.
    assert ((z =? 1)%Z = false) as -> by (apply Z.eqb_neq; lia).
    assert ((z =? 2)%Z = false) as -> by (apply Z.eqb_neq; lia). apply Hfill.
  - intros Hz. unfold filled. rewrite Hrun by lia. rewrite negative_body_order.
    assert ((z =? 1)%Z = true) as -> by (apply Z.eqb_eq; lia). apply Hfill.
  - intros Hz. unfold filled. rewrite Hrun by lia. unfold square_body, eq_const.
    assert ((z =? 1)%Z = false) as -> by (apply Z.eqb_neq; lia).
    assert ((z =? 2)%Z = true) as -> by (apply Z.eqb_eq; lia). apply Hfill.
Qed.

Lemma wrapped_f_no_keywords fz f args :
  wrapped_f fz f args ∅ = ([CallZeroth args None], zeroth_call fz args None).
Proof.
  unfold wrapped_f, dict_pop. rewrite !delete_empty, !lookup_empty, dom_empty_L.
  by rewrite bool_decide_eq_true_2.
Qed.

(** X15. The order does not enter [arccos]: for every positive integer
    order [n], [arccos(x, n=n)] calls [arcsin(x)] without an order, that
    is [np.arcsin(x)], and returns [np.negative] of that value (written to
    [out]); the derivative formula of [arcsin] is not evaluated. *)
Theorem arccos_order (np_arcsin numpy_negative fz : zeroth_function)
    (arcsin_body : deriv_body) dom ex wrap xv (kwargs : gmap string pyval) z :
  basecase fz dom ex = Ok wrap →
  kwargs !! "n" = Some (PInt z) → (0 < z)%Z →
  (∀ key, is_Some (kwargs !! key) → key = "out" ∨ key = "n") →
  apply_derivative (wrap (arccos_body np_arcsin numpy_negative arcsin_body)) [xv] kwargs =
  ([CallDeriv [xv] (default PNone (kwargs !! "out")) (PInt z)],
   match zeroth_call np_arcsin [xv] None with
   | Ok v => zeroth_call numpy_negative [v; default PNone (kwargs !! "out")] None
   | Raise e => Raise e
   end).
Proof.
  intros Hwrap Hn Hz Hkeys. rewrite (basecase_ok_inv fz dom ex wrap Hwrap).
  rewrite (wrapped_f_positive_order fz _ [xv] kwargs z Hn Hz Hkeys).
  reflexivity.
Qed.

Lemma call_hyp_pfq_arity pylist np_hyp_pfq_body hyp_pfq_body A B xv out n :
  call_hyp_pfq pylist np_hyp_pfq_body hyp_pfq_body A B xv out n = Raise TypeError.
Proof.
  unfold call_hyp_pfq, hyp_pfq, basecase.
  rewrite bool_decide_eq_true_2 by (unfold _domain_constants; set_solver).
  simpl. by rewrite wrapped_f_no_keywords.
Qed.

(** X16. [hyp0f1], [hyp1f1], [hyp1f2], [hyp2f0], [hyp2f1] and [hyp3f0]
    hand [out] and [n] to [hyp_pfq] as positional arguments.  The
    wrapper of [hyp_pfq] reads both from the keywords only, so it takes
    the order to be zero and calls [np_hyp_pfq] on all five positional
    arguments, one more than it accepts: for every positive integer
    order the six functions raise [TypeError]. *)
Theorem hypergeometric_orders (pylist : list pyval → pyval)
    (np_hyp_pfq_body : pyval → pyval → pyval → pyval → result pyval)
    (hyp_pfq_body : deriv_body) fz dom ex wrap args (kwargs : gmap string pyval) z body :
  basecase fz dom ex = Ok wrap →
  kwargs !! "n" = Some (PInt z) → (0 < z)%Z →
  (∀ key, is_Some (kwargs !! key) → key = "out" ∨ key = "n") →
  body ∈ [hyp0f1_body pylist np_hyp_pfq_body hyp_pfq_body;
          hyp1f1_body pylist np_hyp_pfq_body hyp_pfq_body;
          hyp1f2_body pylist np_hyp_pfq_body hyp_pfq_body;
          hyp2f0_body pylist np_hyp_pfq_body hyp_pfq_body;
          hyp2f1_body pylist np_hyp_pfq_body hyp_pfq_body;
          hyp3f0_body pylist np_hyp_pfq_body hyp_pfq_body] →
  apply_derivative (wrap body) args kwargs =
  ([CallDeriv args (default PNone (kwargs !! "out")) (PInt z)], Raise TypeError).
Proof.
  intros Hwrap Hn Hz Hkeys Hbody. rewrite (basecase_ok_inv fz dom ex wrap Hwrap).
  rewrite (wrapped_f_positive_order fz _ args kwargs z Hn Hz Hkeys).
  f_equal.
  repeat (apply elem_of_cons in Hbody as [->|Hbody];
          [ unfold hyp0f1_body, hyp1f1_body, hyp1f2_body, hyp2f0_body, hyp2f1_body,
              hyp3f0_body;
            destruct args as [|? [|? [|? [|? [|? ?]]]]];
            try reflexivity; apply call_hyp_pfq_arity | ]).
  by apply elem_of_nil in Hbody.
Qed.

End Basecase.

(** * The statements at work on concrete graphs *)

Section Examples.
Import Demo.


(** C2 as stated fails: the only node of [leaf_graph] is its own argument,
    so the argument's id is not smaller; and in [two_graphs] the node
    recorded in the second graph has id 0 while its argument, recorded in
    the first, has id 1. *)
Lemma argument_id_not_smaller :
  traced leaf_graph ∧
  ¬ (∀ G n a k i j,
       graphs leaf_graph !! 0 = Some G → n ∈ functionList G →
       args (get_obj leaf_graph n) = Some a → k ∈ a →
       ID (get_obj leaf_graph n) = Some (Some i) →
       ID (get_obj leaf_graph k) = Some (Some j) → j < i) ∧
  traced two_graphs ∧
  ¬ (∀ G n a k i j,
       graphs two_graphs !! 3 = Some G → n ∈ functionList G →
       args (get_obj two_graphs n) = Some a → k ∈ a →
       ID (get_obj two_graphs n) = Some (Some i) →
       ID (get_obj two_graphs k) = Some (Some j) → j < i).
Proof.
  split; [by eexists|]. split.
  - intros H.
    specialize (H (mkCGraph 1 [1] [] []) 1 [1] 1 0 0).
    assert (0 < 0); [|lia].
    apply H; try (vm_compute; reflexivity); by apply list_elem_of_singleton.
  - split; [by eexists|]. intros H.
    specialize (H (mkCGraph 1 [4] [] []) 4 [2; 2] 2 0 1).
    assert (1 < 0); [|lia].
    apply H; try (vm_compute; reflexivity); [by apply list_elem_of_singleton | by left].
Qed.

Lemma argument_ids_witness :
  traced product_graph ∧
  graphs product_graph !! 0 = Some product_cgraph ∧
  functionList product_cgraph !! 4 = Some 5 ∧
  args (get_obj product_graph 5) = Some [1; 4] ∧
  4 ∈ [1; 4] ∧
  ID (get_obj product_graph 5) = Some (Some 4) ∧
  ((4 = 5 ∧ is_leaf product_graph 5) ∨
   (4 < 5 ∧ ∀ j, functionList product_cgraph !! j = Some 4 →
               j < 4 ∧ ID (get_obj product_graph 4) = Some (Some j))).
Proof.
  assert (Htr : traced product_graph) by (exists product_trace; reflexivity).
  assert (HG : graphs product_graph !! 0 = Some product_cgraph) by (vm_compute; reflexivity).
  assert (Hn : functionList product_cgraph !! 4 = Some 5) by reflexivity.
  assert (Ha : args (get_obj product_graph 5) = Some [1; 4]) by (vm_compute; reflexivity).
  assert (Hk : 4 ∈ [1; 4]) by (right; left).
  repeat (split; [assumption|]).
  exact (argument_ids product_graph 0 product_cgraph 4 5 [1; 4] 4 Htr HG Hn Ha Hk).
Defined.

Lemma pullback_without_dependents_witness :
  let G := mkCGraph 5 [1; 2; 3; 4; 5] [] [1; 2; 3] in
  let xbar_list : list (value (list Z)) := [VObj [1%Z]] in
  graphs undeclared_graph !! 0 = Some G ∧
  dependentFunctionList G = [] ∧
  CGraph_pullback 0 xbar_list undeclared_graph
  = (Raise (PyException no_dependent_msg), undeclared_graph).
Proof.
  intros G xbar_list.
  assert (HG : graphs undeclared_graph !! 0 = Some G) by (vm_compute; reflexivity).
  split; [exact HG|]. split; [reflexivity|].
  exact (pullback_without_dependents undeclared_graph 0 G xbar_list HG eq_refl).
Defined.

(** C4 as stated fails: with four values for three independent nodes
    [push_forward] returns normally; with one value it raises
    [IndexError] after it has overwritten the first independent node. *)
Lemma push_forward_accepts_count_mismatch :
  (let x_list : list (value (list Z)) := [VObj [5%Z]; VObj [6%Z]; VObj [7%Z]; VObj [8%Z]] in
   graphs product_graph !! 0 = Some product_cgraph ∧
   length x_list ≠ length (independentFunctionList product_cgraph) ∧
   (CGraph_push_forward 0 x_list product_graph).1 = Ok tt) ∧
  (let x_list : list (value (list Z)) := [VObj [5%Z]] in
   length x_list ≠ length (independentFunctionList product_cgraph) ∧
   (CGraph_push_forward 0 x_list product_graph).1 = Raise IndexError ∧
   x (get_obj product_graph 1) = Some (VObj [2%Z]) ∧
   x (get_obj (CGraph_push_forward 0 x_list product_graph).2 1) = Some (VObj [5%Z])).
Proof.
  split.
  - split; [vm_compute; reflexivity|]. split; [simpl; lia|]. vm_compute; reflexivity.
  - split; [simpl; lia|]. repeat split; vm_compute; reflexivity.
Qed.

Lemma push_forward_count_mismatch_witness :
  let four : list (value (list Z)) := [VObj [5%Z]; VObj [6%Z]; VObj [7%Z]; VObj [8%Z]] in
  let one : list (value (list Z)) := [VObj [5%Z]] in
  graphs product_graph !! 0 = Some product_cgraph ∧
  CGraph_push_forward 0 four product_graph =
    CGraph_push_forward 0 (take 3 four) product_graph ∧
  CGraph_push_forward 0 one product_graph =
    (Raise IndexError, write_obj 1 (set_x (VObj [5%Z])) product_graph).
Proof.
  intros four one.
  assert (HG : graphs product_graph !! 0 = Some product_cgraph) by (vm_compute; reflexivity).
  split; [exact HG|]. split.
  - apply (proj1 (push_forward_count_mismatch product_graph 0 product_cgraph four HG)).
    simpl. lia.
  - apply (proj2 (push_forward_count_mismatch product_graph 0 product_cgraph one HG)).
    + simpl. lia.
    + vm_compute. reflexivity.
Defined.

Lemma pullback_zero_initialisation_witness :
  let xbar_list : list (value (list Z)) := [VObj [1%Z]] in
  graphs product_graph !! 0 = Some product_cgraph ∧
  dependentFunctionList product_cgraph ≠ [] ∧
  (∃ s1, pullback_zero_init 0 product_graph = (Ok tt, s1) ∧
         xbar (get_obj s1 5) = VObj [0%Z]) ∧
  (∀ s1, pullback_zero_init 0 product_graph = (Ok tt, s1) →
     CGraph_pullback 0 xbar_list product_graph =
       bind (pullback_seed 0 xbar_list) (λ _, pullback_propagate 0) s1 ∧
     ∀ f, f ∈ functionList product_cgraph →
       ∃ v, x (get_obj product_graph f) = Some v ∧ x (get_obj s1 f) = Some v ∧
            match v with
            | VInt _ | VFloat _ => xbar (get_obj s1 f) = VFloat float_zero
            | VTuple vs =>
                ∃ os, vs = VObj <$> os ∧
                      xbar (get_obj s1 f) = VTuple ((λ o, VObj (zeros_like o)) <$> os)
            | VObj o => xbar (get_obj s1 f) = VObj (zeros_like o)
            | VNone | VNotSet => False
            end) ∧
  ((∀ f, f ∈ functionList product_cgraph →
      ∃ v, x (get_obj product_graph f) = Some v ∧
           match v with
           | VInt _ | VFloat _ | VObj _ => True
           | VTuple vs => ∃ os, vs = VObj <$> os
           | VNone | VNotSet => False
           end) →
   ∃ s1, pullback_zero_init 0 product_graph = (Ok tt, s1)) ∧
  (∀ e s1, pullback_zero_init 0 product_graph = (Raise e, s1) →
     CGraph_pullback 0 xbar_list product_graph = (Raise e, s1)).
Proof.
  intros xbar_list.
  assert (HG : graphs product_graph !! 0 = Some product_cgraph) by (vm_compute; reflexivity).
  assert (Hdep : dependentFunctionList product_cgraph ≠ []) by discriminate.
  split; [exact HG|]. split; [exact Hdep|]. split.
  - eexists. split; vm_compute; reflexivity.
  - exact (pullback_zero_initialisation product_graph 0 product_cgraph xbar_list HG Hdep).
Defined.


Lemma leaf_self_reference_witness :
  let xv : value (list Z) := VObj [2%Z] in
  let s := run_calls [NewCGraph] init_state in
  let x_list : list (value (list Z)) := [VObj [5%Z]; VObj [6%Z]; VObj [7%Z]] in
  xv ≠ VNone ∧
  (Function_init xv s).1 = Ok 1 ∧ is_leaf (Function_init xv s).2 1 ∧
  (let f := next_ref s in
   let s' := (Function_init xv s).2 in
   args (get_obj s' f) = Some [f] ∧ func (get_obj s' f) = Some Function_Id ∧
   x (get_obj s' f) = Some xv) ∧
  (∀ cs,
     let f := next_ref s in
     let s' := run_calls (NewFunction xv :: cs) s in
     args (get_obj s' f) = Some [f] ∧ func (get_obj s' f) = Some Function_Id) ∧
  (∀ (s0 : state (list Z)) f x_list nf v,
     args (get_obj s0 f) = Some [f] → x_list !! nf = Some v →
     assign_input x_list nf f s0 = (Ok tt, write_obj f (set_x v) s0) ∧
     x (get_obj (write_obj f (set_x v) s0) f) = Some v ∧
     ∀ r, r ≠ f → get_obj (write_obj f (set_x v) s0) r = get_obj s0 r) ∧
  graphs product_graph !! 0 = Some product_cgraph ∧
  (∃ s1,
     push_forward_inputs 0 x_list product_graph = (Ok tt, s1) ∧
     CGraph_push_forward 0 x_list product_graph = push_forward_traverse 0 s1 ∧
     get_obj s1 1 = set_x (VObj [5%Z]) (get_obj product_graph 1) ∧
     get_obj s1 2 = set_x (VObj [6%Z]) (get_obj product_graph 2) ∧
     get_obj s1 3 = set_x (VObj [7%Z]) (get_obj product_graph 3) ∧
     get_obj s1 4 = get_obj product_graph 4 ∧
     get_obj s1 5 = get_obj product_graph 5) ∧
  x (get_obj (CGraph_push_forward 0 x_list product_graph).2 1) = Some (VObj [5%Z]) ∧
  is_leaf (CGraph_push_forward 0 x_list product_graph).2 1.
Proof.
  intros xv s x_list.
  assert (Hxv : xv ≠ VNone) by discriminate.
  destruct (leaf_self_reference s xv Hxv) as (Hnew & Hinit & Hkeep & Hassign & Hpush).
  assert (Hc : cgraph s = Some 0) by (vm_compute; reflexivity).
  assert (Hg : graphs s !! 0 = Some (mkCGraph 0 [] [] [])) by (vm_compute; reflexivity).
  destruct (Hinit 0 _ Hc Hg) as [Hret Hleaf].
  split; [exact Hxv|]. split; [exact Hret|]. split; [exact Hleaf|].
  split; [exact Hnew|]. split; [exact Hkeep|]. split; [exact Hassign|].
  assert (HG : graphs product_graph !! 0 = Some product_cgraph) by (vm_compute; reflexivity).
  assert (Hnd : NoDup (independentFunctionList product_cgraph)).
  { apply (bool_decide_unpack _). vm_compute. exact I. }
  assert (Hleaves : ∀ f, f ∈ independentFunctionList product_cgraph → is_leaf product_graph f).
  { intros f Hf. apply list_elem_of_In in Hf. simpl in Hf.
    destruct Hf as [<-|[<-|[<-|[]]]]; vm_compute; repeat split. }
  assert (Hlen : length (independentFunctionList product_cgraph) ≤ length x_list)
    by (simpl; lia).
  destruct (Hpush product_graph 0 product_cgraph x_list HG Hnd Hleaves Hlen)
    as (s1 & Hin & Hrun & Hvals & Hframe & Hout).
  split; [exact HG|]. split.
  - exists s1. split; [exact Hin|]. split; [exact Hrun|].
    split; [exact (Hvals 0 1 _ eq_refl eq_refl)|].
    split; [exact (Hvals 1 2 _ eq_refl eq_refl)|].
    split; [exact (Hvals 2 3 _ eq_refl eq_refl)|].
    split; apply Hframe; apply (bool_decide_unpack _); vm_compute; exact I.
  - assert (Hok : CGraph_push_forward 0 x_list product_graph =
                  (Ok tt, (CGraph_push_forward 0 x_list product_graph).2))
      by (vm_compute; reflexivity).
    exact (Hout _ Hok 0 1 _ eq_refl eq_refl).
Defined.

Lemma basecase_negative_order_witness :
  let kwargs : gmap string NthDeriv.pyval := {["n" := NthDeriv.PInt (-1)]} in
  let args := [NthDeriv.PArray [NthDeriv.float_two_and_a_half]] in
  ∃ wrap,
    NthDeriv.basecase NthDeriv.np_negative NthDeriv.DOM_ALL 0 = Ok wrap ∧
    kwargs !! "n" = Some (NthDeriv.PInt (-1)) ∧ (-1 < 0)%Z ∧
    ∃ msg, NthDeriv.apply_derivative (wrap NthDeriv.negative_body) args kwargs
           = ([], Raise (ValueError msg)).
Proof.
  intros kwargs args. eexists.
  assert (Hwrap : NthDeriv.basecase NthDeriv.np_negative NthDeriv.DOM_ALL 0 = Ok _)
    by reflexivity.
  assert (Hn : kwargs !! "n" = Some (NthDeriv.PInt (-1))) by (vm_compute; reflexivity).
  assert (Hz : (-1 < 0)%Z) by lia.
  split; [exact Hwrap|]. split; [exact Hn|]. split; [exact Hz|].
  exact (basecase_negative_order NthDeriv.np_negative NthDeriv.DOM_ALL 0 _
           NthDeriv.negative_body args kwargs (-1) Hwrap Hn Hz).
Defined.

Lemma basecase_order_zero_witness :
  let kwargs : gmap string NthDeriv.pyval := {["n" := NthDeriv.PInt 0]} in
  let args := [NthDeriv.PArray [NthDeriv.float_two_and_a_half]] in
  ∃ wrap,
    NthDeriv.basecase NthDeriv.np_negative NthDeriv.DOM_ALL 0 = Ok wrap ∧
    NthDeriv.apply_derivative (wrap NthDeriv.negative_body) args kwargs
    = ([NthDeriv.CallZeroth args None],
       Ok (NthDeriv.PArray [SFopp NthDeriv.float_two_and_a_half])).
Proof.
  intros kwargs args. eexists.
  assert (Hwrap : NthDeriv.basecase NthDeriv.np_negative NthDeriv.DOM_ALL 0 = Ok _)
    by reflexivity.
  assert (Hn : kwargs !! "n" = None ∨ kwargs !! "n" = Some (NthDeriv.PInt 0))
    by (right; vm_compute; reflexivity).
  assert (Hkeys : ∀ key, is_Some (kwargs !! key) → key = "out" ∨ key = "n").
  { intros key [v Hv]. apply lookup_singleton_Some in Hv as [<- _]. by right. }
  split; [exact Hwrap|].
  exact (basecase_order_zero NthDeriv.np_negative NthDeriv.DOM_ALL 0 _
           NthDeriv.negative_body args kwargs Hwrap Hn Hkeys).
Defined.



Lemma push_forward_assigns_only_witness :
  let G := mkCGraph 1 [4] [] [] in
  let x_list : list (value (list Z)) := [] in
  graphs two_graphs !! 3 = Some G ∧
  xbar (get_obj (CGraph_push_forward 3 x_list two_graphs).2 1) = xbar (get_obj two_graphs 1) ∧
  get_obj (CGraph_push_forward 3 x_list two_graphs).2 1 = get_obj two_graphs 1.
Proof.
  intros G x_list.
  assert (HG : graphs two_graphs !! 3 = Some G) by (vm_compute; reflexivity).
  destruct (push_forward_assigns_only two_graphs 3 G x_list 1 HG) as [Hxbar Hsame].
  split; [exact HG|]. split; [exact Hxbar|].
  apply Hsame. intros [Hin|(f & a & Hf & _)].
  - apply list_elem_of_singleton in Hin. discriminate Hin.
  - apply elem_of_nil in Hf. destruct Hf.
Defined.

Lemma node_registry_witness :
  traced product_graph ∧
  graphs product_graph !! 0 = Some product_cgraph ∧
  functionCount product_cgraph = length (functionList product_cgraph) ∧
  NoDup (functionList product_cgraph) ∧
  0 < next_ref product_graph ∧
  ∀ r, r ∈ functionList product_cgraph →
    r < next_ref product_graph ∧
    ∀ g' G', graphs product_graph !! g' = Some G' → r ∈ functionList G' → g' = 0.
Proof.
  assert (Htr : traced product_graph) by (exists product_trace; reflexivity).
  assert (HG : graphs product_graph !! 0 = Some product_cgraph) by (vm_compute; reflexivity).
  split; [exact Htr|]. split; [exact HG|].
  exact (node_registry product_graph 0 product_cgraph Htr HG).
Defined.

Lemma node_lists_append_only_witness :
  let G := mkCGraph 1 [1] [] [] in
  let cs : list (api_call (list Z)) := [NewFunction (VObj [3%Z]); Apply add [1; 2] []] in
  traced leaf_graph ∧
  graphs leaf_graph !! 0 = Some G ∧
  ∃ G', graphs (run_calls cs leaf_graph) !! 0 = Some G' ∧
        functionList G `prefix_of` functionList G'.
Proof.
  intros G cs.
  assert (Htr : traced leaf_graph) by (eexists; reflexivity).
  assert (HG : graphs leaf_graph !! 0 = Some G) by (vm_compute; reflexivity).
  split; [exact Htr|]. split; [exact HG|].
  exact (node_lists_append_only leaf_graph cs 0 G Htr HG).
Defined.

Lemma adjoints_unset_before_pullback_witness :
  forallb (λ c, negb (is_pullback c)) product_trace = true ∧
  is_set (xbar (get_obj (run_calls product_trace init_state) 5)) = false.
Proof.
  assert (Hcs : forallb (λ c, negb (is_pullback c)) product_trace = true) by reflexivity.
  split; [exact Hcs|].
  exact (adjoints_unset_before_pullback product_trace 5 Hcs).
Defined.


Lemma operations_record_node_witness :
  let G := mkCGraph 1 [1] [] [] in
  let f := next_ref leaf_graph in
  traced leaf_graph ∧
  cgraph leaf_graph = Some 0 ∧
  graphs leaf_graph !! 0 = Some G ∧
  x (get_obj leaf_graph 1) = Some (VObj [2%Z]) ∧
  ∃ s', Function_add DemoClass.ragged_ndim DemoClass.utpm_attr 1 (Node 1) leaf_graph
        = (Ok f, s') ∧
    x (get_obj s' f) = Some (VObj [4%Z]) ∧
    args (get_obj s' f) = Some [1; 1] ∧
    func (get_obj s' f) = Some add ∧
    funcargs (get_obj s' f) = Some [] ∧
    ID (get_obj s' f) = Some (Some 1) ∧
    forward_consistent s' f.
Proof.
  intros G f.
  assert (Htr : traced leaf_graph) by (eexists; reflexivity).
  assert (Hc : cgraph leaf_graph = Some 0) by (vm_compute; reflexivity).
  assert (HG : graphs leaf_graph !! 0 = Some G) by (vm_compute; reflexivity).
  assert (Hx : x (get_obj leaf_graph 1) = Some (VObj [2%Z])) by (vm_compute; reflexivity).
  split; [exact Htr|]. split; [exact Hc|]. split; [exact HG|]. split; [exact Hx|].
  destruct (operations_record_node DemoClass.ragged_ndim DemoClass.utpm_attr leaf_graph 0 G 1
              (VObj [2%Z])
              Htr Hc HG Hx) as (_ & Hbin & _).
  destruct (Hbin "__add__"%string 1 (VObj [2%Z]) add (VObj [4%Z]) Hx eq_refl eq_refl)
    as (s' & Hrun & H1 & H2 & H3 & H4 & H5 & H6 & _).
  exists s'. split; [exact Hrun|]. split; [exact H1|]. split; [exact H2|].
  split; [exact H3|]. split; [exact H4|]. split; [exact H5|]. exact H6.
Defined.

Lemma push_forward_raises_without_trace_witness :
  let G := mkCGraph 1 [1] [] [] in
  cgraph leaf_graph = Some 0 ∧
  graphs leaf_graph !! 0 = Some G ∧
  Function_push_forward add [1; 7] None [] leaf_graph = (Raise AttributeError, leaf_graph) ∧
  leaf_graph = leaf_graph ∧
  ((AttributeError = AttributeError ∧ ∃ k, k ∈ [1; 7] ∧ x (get_obj leaf_graph k) = None) ∨
   ∃ vs, Forall2 (λ k w, x (get_obj leaf_graph k) = Some w) [1; 7] vs ∧
         call add (vs ++ []) = Raise AttributeError).
Proof.
  intros G.
  assert (Hc : cgraph leaf_graph = Some 0) by (vm_compute; reflexivity).
  assert (HG : graphs leaf_graph !! 0 = Some G) by (vm_compute; reflexivity).
  assert (Hrun : Function_push_forward add [1; 7] None [] leaf_graph
                 = (Raise AttributeError, leaf_graph)) by (vm_compute; reflexivity).
  split; [exact Hc|]. split; [exact HG|]. split; [exact Hrun|].
  exact (push_forward_raises_without_trace leaf_graph add [1; 7] [] 0 G AttributeError
           leaf_graph Hc HG Hrun).
Defined.

Lemma tracing_without_graph_witness :
  cgraph (init_state (obj := list Z)) = None ∧
  ∃ s', Function_init (VObj [2%Z]) init_state = (Raise AttributeError, s') ∧
    graphs s' = graphs (init_state (obj := list Z)) ∧
    x (get_obj s' 0) = Some (VObj [2%Z]) ∧
    args (get_obj s' 0) = Some [0] ∧
    func (get_obj s' 0) = Some Function_Id ∧
    ID (get_obj s' 0) = Some None.
Proof.
  assert (Hc : cgraph (init_state (obj := list Z)) = None) by reflexivity.
  split; [exact Hc|].
  destruct (tracing_without_graph init_state Hc) as [Hinit _].
  assert (Hxv : VObj [2%Z] ≠ (VNone : value (list Z))) by discriminate.
  exact (Hinit (VObj [2%Z]) Hxv).
Defined.

Lemma pullback_seed_count_witness :
  let xbar_list : list (value (list Z)) := [VObj [1%Z]; VObj [9%Z]] in
  let no_seed : list (value (list Z)) := [] in
  graphs product_graph !! 0 = Some product_cgraph ∧
  length (dependentFunctionList product_cgraph) ≤ length xbar_list ∧
  CGraph_pullback 0 xbar_list product_graph =
  CGraph_pullback 0 (take (length (dependentFunctionList product_cgraph)) xbar_list)
    product_graph ∧
  length no_seed < length (dependentFunctionList product_cgraph) ∧
  (∃ e s', CGraph_pullback 0 no_seed product_graph = (Raise e, s') ∧
     bind (pullback_zero_init 0) (λ _, pullback_seed 0 no_seed) product_graph =
     (Raise e, s')) ∧
  (CGraph_pullback 0 no_seed product_graph).1 = Raise IndexError.
Proof.
  intros xbar_list no_seed.
  assert (HG : graphs product_graph !! 0 = Some product_cgraph) by (vm_compute; reflexivity).
  assert (Hle : length (dependentFunctionList product_cgraph) ≤ length xbar_list)
    by (simpl; lia).
  assert (Hlt : length no_seed < length (dependentFunctionList product_cgraph))
    by (simpl; lia).
  split; [exact HG|]. split; [exact Hle|].
  split; [exact (proj1 (pullback_seed_count product_graph 0 product_cgraph xbar_list HG) Hle)|].
  split; [exact Hlt|].
  split; [exact (proj1 (proj2 (pullback_seed_count product_graph 0 product_cgraph no_seed HG)
                                Hlt))|].
  vm_compute; reflexivity.
Defined.

Lemma pullback_starts_afresh_witness :
  let xbar_list : list (value (list Z)) := [VObj [1%Z]] in
  let s' := (CGraph_pullback 0 xbar_list product_graph).2 in
  graphs product_graph !! 0 = Some product_cgraph ∧
  same_up_to_adjoints product_graph product_graph ∧
  dependentFunctionList product_cgraph ≠ [] ∧
  (pullback_zero_init 0 product_graph).1 = Ok tt ∧
  (CGraph_pullback 0 xbar_list s').1 = (CGraph_pullback 0 xbar_list product_graph).1 ∧
  ∀ r, r ∈ functionList product_cgraph →
    xbar (get_obj (CGraph_pullback 0 xbar_list s').2 r) = xbar (get_obj s' r).
Proof.
  intros xbar_list s'.
  assert (HG : graphs product_graph !! 0 = Some product_cgraph) by (vm_compute; reflexivity).
  assert (Hdeps : ∀ d, d ∈ dependentFunctionList product_cgraph →
                       d ∈ functionList product_cgraph).
  { intros d Hd. simpl in Hd. apply list_elem_of_singleton in Hd. rewrite Hd. simpl.
    rewrite !elem_of_cons. lia. }
  assert (Hclosed : ∀ f a k, f ∈ functionList product_cgraph →
            args (get_obj product_graph f) = Some a → k ∈ a →
            k ∈ functionList product_cgraph).
  { intros f a k Hf Ha Hk. simpl in Hf. simpl.
    repeat (apply elem_of_cons in Hf as [Hf|Hf];
            [rewrite Hf in Ha; vm_compute in Ha; injection Ha as Ha; rewrite <- Ha in Hk;
             rewrite ?elem_of_cons, elem_of_nil in Hk; rewrite !elem_of_cons; lia|]).
    apply elem_of_nil in Hf. destruct Hf. }
  assert (Hst : same_up_to_adjoints product_graph product_graph).
  { split; [split; [reflexivity|split; [reflexivity|split; [reflexivity|]]]|];
      intros r; reflexivity. }
  assert (Hdep : dependentFunctionList product_cgraph ≠ []) by discriminate.
  assert (Hz : (pullback_zero_init 0 product_graph).1 = Ok tt) by (vm_compute; reflexivity).
  split; [exact HG|]. split; [exact Hst|]. split; [exact Hdep|]. split; [exact Hz|].
  destruct (pullback_starts_afresh product_graph product_graph 0 product_cgraph xbar_list
              HG Hdeps Hclosed Hst) as (_ & _ & Hres & Hadj).
  split; [exact Hres|]. exact (Hadj Hdep Hz).
Defined.


Lemma basecase_unexpected_keyword_witness :
  let kwargs : gmap string NthDeriv.pyval :=
    {["order" := NthDeriv.PInt 1]} in
  let args := [NthDeriv.PArray [NthDeriv.float_two_and_a_half]] in
  ∃ wrap,
    NthDeriv.basecase NthDeriv.np_negative NthDeriv.DOM_ALL 0 = Ok wrap ∧
    is_Some (kwargs !! "order") ∧
    NthDeriv.apply_derivative (wrap NthDeriv.negative_body) args kwargs
    = ([], Raise (ValueError "unexpected keyword args")).
Proof.
  intros kwargs args. eexists.
  assert (Hwrap : NthDeriv.basecase NthDeriv.np_negative NthDeriv.DOM_ALL 0 = Ok _)
    by reflexivity.
  assert (Hkey : is_Some (kwargs !! "order")) by (eexists; vm_compute; reflexivity).
  assert (Hout : "order"%string ≠ "out"%string) by discriminate.
  assert (Hn : "order"%string ≠ "n"%string) by discriminate.
  split; [exact Hwrap|]. split; [exact Hkey|].
  exact (basecase_unexpected_keyword NthDeriv.np_negative NthDeriv.DOM_ALL 0 _
           NthDeriv.negative_body args kwargs "order" Hwrap Hkey Hout Hn).
Defined.

Lemma basecase_positive_order_witness :
  let kwargs : gmap string NthDeriv.pyval := {["n" := NthDeriv.PInt 1]} in
  let args := [NthDeriv.PArray [NthDeriv.float_two_and_a_half]] in
  ∃ wrap,
    NthDeriv.basecase NthDeriv.np_negative NthDeriv.DOM_ALL 0 = Ok wrap ∧
    NthDeriv.apply_derivative (wrap NthDeriv.negative_body) args kwargs
    = ([NthDeriv.CallDeriv args NthDeriv.PNone (NthDeriv.PInt 1)],
       Ok (NthDeriv.PArray [NthDeriv.float_minus_one])).
Proof.
  intros kwargs args. eexists.
  assert (Hwrap : NthDeriv.basecase NthDeriv.np_negative NthDeriv.DOM_ALL 0 = Ok _)
    by reflexivity.
  assert (Hn : kwargs !! "n" = Some (NthDeriv.PInt 1)) by (vm_compute; reflexivity).
  assert (Hkeys : ∀ key, is_Some (kwargs !! key) → key = "out" ∨ key = "n").
  { intros key [v Hv]. apply lookup_singleton_Some in Hv as [<- _]. by right. }
  split; [exact Hwrap|].
  exact (basecase_positive_order NthDeriv.np_negative NthDeriv.DOM_ALL 0 _
           NthDeriv.negative_body args kwargs 1 Hwrap Hn ltac:(lia) Hkeys).
Defined.

Lemma derivatives_above_degree_witness :
  let kwargs : gmap string NthDeriv.pyval := {["n" := NthDeriv.PInt 2]} in
  let x := [NthDeriv.float_two_and_a_half; NthDeriv.float_minus_one] in
  ∃ wrap,
    NthDeriv.basecase NthDeriv.np_negative NthDeriv.DOM_ALL 0 = Ok wrap ∧
    kwargs !! "n" = Some (NthDeriv.PInt 2) ∧
    (NthDeriv.apply_derivative (wrap Derivatives.floor_body) [NthDeriv.PArray x] kwargs).2
      = Ok (NthDeriv.PArray [float_zero; float_zero]) ∧
    (NthDeriv.apply_derivative
       (wrap (Derivatives.square_body NthDeriv.np_negative)) [NthDeriv.PArray x] kwargs).2
      = Ok (NthDeriv.PArray [Derivatives.float_two; Derivatives.float_two]).
Proof.
  intros kwargs x. eexists.
  assert (Hwrap : NthDeriv.basecase NthDeriv.np_negative NthDeriv.DOM_ALL 0 = Ok _)
    by reflexivity.
  assert (Hn : kwargs !! "n" = Some (NthDeriv.PInt 2)) by (vm_compute; reflexivity).
  assert (Hkeys : ∀ key, is_Some (kwargs !! key) → key = "out" ∨ key = "n").
  { intros key [v Hv]. apply lookup_singleton_Some in Hv as [<- _]. by right. }
  assert (Hout : kwargs !! "out" = None ∨ kwargs !! "out" = Some NthDeriv.PNone ∨
                 ∃ b, kwargs !! "out" = Some (NthDeriv.PArray b))
    by (left; vm_compute; reflexivity).
  split; [exact Hwrap|]. split; [exact Hn|].
  destruct (derivatives_above_degree NthDeriv.np_negative NthDeriv.DOM_ALL 0 _
              NthDeriv.np_negative NthDeriv.np_negative x kwargs 2 Hwrap Hn Hkeys Hout)
    as (Hstep & _ & _ & _ & Hsquare).
  destruct (Hstep ltac:(lia)) as (_ & _ & Hfloor & _).
  split; [exact Hfloor|]. exact (Hsquare eq_refl).
Defined.

Lemma arccos_order_witness :
  let kwargs : gmap string NthDeriv.pyval := {["n" := NthDeriv.PInt 3]} in
  let x := NthDeriv.PFloat NthDeriv.float_two_and_a_half in
  let body : NthDeriv.deriv_body := λ _ _ _, Raise (OtherError "arcsin formula") in
  ∃ wrap,
    NthDeriv.basecase DemoClass.demo_arcsin NthDeriv.DOM_ABS_LT_1 0 = Ok wrap ∧
    kwargs !! "n" = Some (NthDeriv.PInt 3) ∧
    NthDeriv.apply_derivative
      (wrap (Derivatives.arccos_body DemoClass.demo_arcsin DemoClass.demo_negative body))
      [x] kwargs
    = ([NthDeriv.CallDeriv [x] NthDeriv.PNone (NthDeriv.PInt 3)],
       Ok (NthDeriv.PFloat (SFopp NthDeriv.float_two_and_a_half))).
Proof.
  intros kwargs x body. eexists.
  assert (Hwrap : NthDeriv.basecase DemoClass.demo_arcsin NthDeriv.DOM_ABS_LT_1 0 = Ok _)
    by reflexivity.
  assert (Hn : kwargs !! "n" = Some (NthDeriv.PInt 3)) by (vm_compute; reflexivity).
  assert (Hkeys : ∀ key, is_Some (kwargs !! key) → key = "out" ∨ key = "n").
  { intros key [v Hv]. apply lookup_singleton_Some in Hv as [<- _]. by right. }
  split; [exact Hwrap|]. split; [exact Hn|].
  exact (arccos_order DemoClass.demo_arcsin DemoClass.demo_negative DemoClass.demo_arcsin
           body NthDeriv.DOM_ABS_LT_1 0 _ x kwargs 3 Hwrap Hn ltac:(lia) Hkeys).
Defined.

Lemma hypergeometric_orders_witness :
  let kwargs : gmap string NthDeriv.pyval := {["n" := NthDeriv.PInt 1]} in
  let args := [NthDeriv.PFloat NthDeriv.float_two_and_a_half;
               NthDeriv.PFloat NthDeriv.float_minus_one] in
  let pylist : list NthDeriv.pyval → NthDeriv.pyval :=
    λ l, NthDeriv.PArray
           (omap (λ v, match v with NthDeriv.PFloat f => Some f | _ => None end) l) in
  let np_body : NthDeriv.pyval → NthDeriv.pyval → NthDeriv.pyval → NthDeriv.pyval →
                result NthDeriv.pyval := λ _ _ x _, Ok x in
  let body : NthDeriv.deriv_body := λ _ _ _, Raise (OtherError "hyp_pfq formula") in
  ∃ wrap,
    NthDeriv.basecase DemoClass.demo_arcsin NthDeriv.DOM_ALL 1 = Ok wrap ∧
    kwargs !! "n" = Some (NthDeriv.PInt 1) ∧
    NthDeriv.apply_derivative (wrap (Derivatives.hyp0f1_body pylist np_body body)) args kwargs
    = ([NthDeriv.CallDeriv args NthDeriv.PNone (NthDeriv.PInt 1)], Raise TypeError).
Proof.
  intros kwargs args pylist np_body body. eexists.
  assert (Hwrap : NthDeriv.basecase DemoClass.demo_arcsin NthDeriv.DOM_ALL 1 = Ok _)
    by reflexivity.
  assert (Hn : kwargs !! "n" = Some (NthDeriv.PInt 1)) by (vm_compute; reflexivity).
  assert (Hkeys : ∀ key, is_Some (kwargs !! key) → key = "out" ∨ key = "n").
  { intros key [v Hv]. apply lookup_singleton_Some in Hv as [<- _]. by right. }
  split; [exact Hwrap|]. split; [exact Hn|].
  exact (hypergeometric_orders pylist np_body body DemoClass.demo_arcsin NthDeriv.DOM_ALL 1 _
           args kwargs 1 _ Hwrap Hn ltac:(lia) Hkeys ltac:(left)).
Defined.



(** C6. Where the frame of the replays breaks: a node recorded by
    [Function.push_forward] with a node as [Fargs].  In the graph of
    [cg = CGraph(); x = Function([2]); y = Function.push_forward(Function.Id, x)],
    with [y] declared dependent and independent, [y.args] is the node [x]
    and the node list is [[x, y]].  [cg.pullback([ybar])] returns, for every
    bound of at least two iterations, and the two comprehensions over
    [F.args] in [Function.pullback(y)] have iterated [x] through
    [Function.__getitem__]: each has recorded the node [x[0]], the node
    list has grown to four nodes and the count to 4.  [cg.push_forward([v])]
    returns as well, and its assignment [y.args[0].x = v] has recorded the
    node [x[0]]: the node list has three nodes and the count is 3. *)
Theorem replay_appends_for_node_args (k : nat) :
  let s := DemoBare.node_args_graph in
  let item (i : nat) :=
    AnyArgs.mkFunction (Some (VObj [2%Z])) (Some (AnyArgs.ArgsTuple [1]))
      (Some DemoBare.arr_getitem) (Some (Some i)) (Some [VInt 0]) VNotSet in
  AnyArgs.graphs s !! 0 = Some (mkCGraph 2 [1; 2] [2] [2]) ∧
  AnyArgs.args (AnyArgs.get_obj s 1) = Some (AnyArgs.ArgsTuple [1]) ∧
  AnyArgs.args (AnyArgs.get_obj s 2) = Some (AnyArgs.ArgsNode 1) ∧
  AnyArgs.next_ref s = 3 ∧
  (∃ s', AnyArgs.CGraph_pullback DemoBare.arr_attr (2 + k) 0 [VObj [1%Z]] s = Some (Ok tt, s') ∧
     AnyArgs.graphs s' !! 0 = Some (mkCGraph 4 [1; 2; 3; 4] [2] [2]) ∧
     AnyArgs.get_obj s' 3 = item 2 ∧ AnyArgs.get_obj s' 4 = item 3 ∧
     AnyArgs.next_ref s' = 5) ∧
  (∃ s', AnyArgs.CGraph_push_forward DemoBare.arr_attr 0 [VObj [5%Z]] s = Some (Ok tt, s') ∧
     AnyArgs.graphs s' !! 0 = Some (mkCGraph 3 [1; 2; 3] [2] [2]) ∧
     AnyArgs.get_obj s' 3 = item 2 ∧ AnyArgs.next_ref s' = 4 ∧
     AnyArgs.x (AnyArgs.get_obj s' 1) = Some (VObj [2%Z])).
Proof.
  intros s item.
  split; [vm_compute; reflexivity|]. split; [vm_compute; reflexivity|].
  split; [vm_compute; reflexivity|]. split; [vm_compute; reflexivity|].
  split.
  - eexists. split; [vm_compute; reflexivity|].
    split; [vm_compute; reflexivity|]. split; [vm_compute; reflexivity|].
    split; vm_compute; reflexivity.
  - eexists. split; [vm_compute; reflexivity|].
    split; [vm_compute; reflexivity|]. split; [vm_compute; reflexivity|].
    split; vm_compute; reflexivity.
Qed.

Lemma replays_keep_structure_of_tuples_witness :
  let s := DemoBare.tuple_args_graph in
  let x_list : list (value (list Z)) := [VObj [5%Z]] in
  let xbar_list : list (value (list Z)) := [VObj [1%Z]] in
  AnyArgs.tuple_store s ∧
  (∃ r s', AnyArgs.CGraph_push_forward DemoBare.arr_attr 0 x_list s = Some (r, s') ∧
           AnyArgs.same_structure s s') ∧
  (∃ r s', AnyArgs.CGraph_pullback DemoBare.arr_attr 0 0 xbar_list s = Some (r, s') ∧
           AnyArgs.same_structure s s' ∧ AnyArgs.same_values s s').
Proof.
  intros s x_list xbar_list.
  assert (Hheap : AnyArgs.heap s =
            {[1 := AnyArgs.mkFunction (Some (VObj [2%Z])) (Some (AnyArgs.ArgsTuple [1]))
                     (Some AnyArgs.Function_Id) (Some (Some 0)) (Some []) VNotSet]})
    by (vm_compute; reflexivity).
  assert (Ht : AnyArgs.tuple_store s).
  { intros r b. unfold AnyArgs.get_obj. rewrite Hheap.
    destruct (decide (r = 1)) as [Hr|Hne].
    - rewrite Hr, lookup_singleton_eq. intros H. discriminate H.
    - rewrite (lookup_singleton_ne 1 r _ (not_eq_sym Hne)). intros H. discriminate H. }
  split; [exact Ht|].
  exact (replays_keep_structure_of_tuples DemoBare.arr_attr s 0 0 x_list xbar_list Ht).
Defined.

End Examples.

